(** * Declaration-existence check (misc-assignment-decl-exist)

    A shallow embedding of
    [clang-tools-extra/clang-tidy/misc/AssignmentDeclExistCheck.cpp]:
    the type-token parser, the declaration catalog and its JSON loader,
    the observation collector, the placeholder resolver and the
    matcher run at the end of the translation unit. *)

From Stdlib Require Import String Ascii List ZArith Lia Bool Arith.
From Stdlib Require Import OrderedTypeEx DecimalString Permutation.
Import ListNotations.

Local Open Scope list_scope.
Local Open Scope string_scope.

(** ** [std::map<std::string, V>]

    A [std::map] keeps its entries ordered by key; the loops of the check
    iterate over it in that order and [insert] leaves an existing entry
    alone.  Both matter below, so a map is the list of its entries in
    increasing key order. *)

Module StdMap.

Definition t (V : Type) : Type := list (string * V).

Definition key_lt (a b : string) : Prop := String.compare a b = Lt.

Definition empty {V : Type} : t V := [].

(** [m.find(k)]: [None] stands for the [end()] iterator. *)
Fixpoint find {V : Type} (k : string) (m : t V) : option V :=
  match m with
  | [] => None
  | (k', v) :: r => if String.eqb k k' then Some v else find k r
  end.

(** [m.insert(std::make_pair(k, v))]: no effect when [k] is present. *)
Fixpoint insert {V : Type} (k : string) (v : V) (m : t V) : t V :=
  match m with
  | [] => [(k, v)]
  | (k', v') :: r =>
      match String.compare k k' with
      | Lt => (k, v) :: m
      | Eq => m
      | Gt => (k', v') :: insert k v r
      end
  end.

(** [m[k] = v]: [operator[]] followed by an assignment. *)
Fixpoint assign {V : Type} (k : string) (v : V) (m : t V) : t V :=
  match m with
  | [] => [(k, v)]
  | (k', v') :: r =>
      match String.compare k k' with
      | Lt => (k, v) :: m
      | Eq => (k', v) :: r
      | Gt => (k', v') :: assign k v r
      end
  end.

(** [m.erase(it)] for the iterator [it] that [find(k)] returned. *)
Fixpoint erase {V : Type} (k : string) (m : t V) : t V :=
  match m with
  | [] => []
  | (k', v') :: r => if String.eqb k k' then r else (k', v') :: erase k r
  end.

(** The keys grow strictly along the list. *)
Inductive sorted {V : Type} : t V -> Prop :=
| sorted_nil : sorted []
| sorted_cons : forall k v m,
    (forall k' v', In (k', v') m -> key_lt k k') ->
    sorted m -> sorted ((k, v) :: m).

End StdMap.

(** ** Machine integers *)

Definition INT_MAX : Z := 2147483647.

(** [int] arithmetic, two's complement on 32 bits. *)
Definition int_wrap (z : Z) : Z := ((z + 2 ^ 31) mod 2 ^ 32 - 2 ^ 31)%Z.

(** ** Type descriptors *)

(** Map from type names to the amount of occurrences in the parameter. *)
Definition ParamMap : Type := StdMap.t Z.

Record TypeInfo : Type := mkTypeInfo {
  isVar : bool;
  name : string;
  pointers : Z
}.

Fixpoint repeat_char (c : ascii) (n : nat) : string :=
  match n with
  | O => EmptyString
  | S n' => String c (repeat_char c n')
  end.

Definition asterisks (n : nat) : string := repeat_char "*"%char n.
Definition spaces (n : nat) : string := repeat_char " "%char n.

(** [TypeInfo::toString]. *)
Definition toString (t : TypeInfo) : string :=
  (if isVar t then "%" else "") ++
  name t ++
  (if (0 <? pointers t)%Z
   then " " ++ asterisks (Z.to_nat (pointers t))
   else "").

(** [TypeInfo::operator==]. *)
Definition TypeInfo_eqb (a b : TypeInfo) : bool :=
  Bool.eqb (isVar a) (isVar b) && String.eqb (name a) (name b)
  && Z.eqb (pointers a) (pointers b).

(** ** Errors

    [llvm::Error] payloads the check produces.  [ErrorSuccess] is the
    payload-free value that [takeError()] yields on an [Expected] that
    holds a value; [resolveParams] returns it on one of its paths.  The
    embedding follows a release build, in which an [Error] that is never
    handled and an [Expected] made from a payload-free [Error] are not
    trapped. *)
Inductive Error : Type :=
| ParseTypeError (str : string) (pos : nat)
| StringError (msg : string)
| ErrorSuccess.

Inductive Expected (T : Type) : Type :=
| Ok (v : T)
| Err (e : Error).
Arguments Ok {T} v.
Arguments Err {T} e.

(** ** The type-token parser *)

(** [isalpha] in the C locale. *)
Definition isalpha (c : ascii) : bool :=
  let n := nat_of_ascii c in
  (((65 <=? n) && (n <=? 90)) || ((97 <=? n) && (n <=? 122)))%nat.

Definition isDigit (c : ascii) : bool :=
  let n := nat_of_ascii c in ((48 <=? n) && (n <=? 57))%nat.

(** [clang::isAlphanumeric]: an ASCII letter or digit. *)
Definition isAlphanumeric (c : ascii) : bool := isalpha c || isDigit c.

Definition isIdentStart (c : ascii) : bool := isalpha c || Ascii.eqb c "_".
Definition isIdentBody (c : ascii) : bool := isAlphanumeric c || Ascii.eqb c "_".

(** The parser reads [s] left to right through the index [pos].  The
    embedding carries the unread suffix of [s] next to [pos]; [s[pos]] is
    the head of the suffix, and the suffix is empty exactly when
    [pos == s.length()] (where [s[pos]] is the terminating NUL, which
    none of the loops accepts). *)

(** [while (s[pos] == ' ') pos++;] *)
Fixpoint skipSpaces (rest : string) (pos : nat) : string * nat :=
  match rest with
  | String c r => if Ascii.eqb c " " then skipSpaces r (S pos) else (rest, pos)
  | EmptyString => (rest, pos)
  end.

(** [while (isAlphanumeric(s[pos]) || s[pos] == '_') { identifier << s[pos]; pos++; }] *)
Fixpoint scanIdentifier (rest : string) (pos : nat) : string * string * nat :=
  match rest with
  | String c r =>
      if isIdentBody c
      then let '(id, r', pos') := scanIdentifier r (S pos) in (String c id, r', pos')
      else (EmptyString, rest, pos)
  | EmptyString => (EmptyString, rest, pos)
  end.

(** The final loop over the asterisks: the position of the first other
    character, or the number of asterisks added to [ptrs]. *)
Fixpoint countAsterisks (rest : string) (pos : nat) (ptrs : Z) : nat + Z :=
  match rest with
  | String c r =>
      if Ascii.eqb c "*"
      then countAsterisks r (S pos) (int_wrap (ptrs + 1))
      else inl pos
  | EmptyString => inr ptrs
  end.

Fixpoint dropChars (n : nat) (s : string) : string :=
  match n, s with
  | S n', String _ r => dropChars n' r
  | _, _ => s
  end.

Definition structPrefix : string := "struct ".

(** The part of [parseType] after the optional ['%']. *)
Definition parseAfterVar (s : string) (v : bool) (rest : string) (pos : nat)
  : Expected TypeInfo :=
  let '(rest, pos) :=
    if String.prefix structPrefix rest
    then skipSpaces (dropChars (String.length structPrefix) rest)
                    (pos + String.length structPrefix)
    else (rest, pos) in
  match rest with
  | EmptyString => Err (ParseTypeError s pos)
  | String c r =>
      if isIdentStart c then
        let '(id, rest, pos) := scanIdentifier r (S pos) in
        let ret := mkTypeInfo v (String c id) 0 in
        match rest with
        | EmptyString => Ok ret
        | _ =>
            let '(rest, pos) := skipSpaces rest pos in
            match rest with
            | EmptyString => Err (ParseTypeError s pos)
            | _ =>
                match countAsterisks rest pos 0 with
                | inl bad => Err (ParseTypeError s bad)
                | inr n => Ok (mkTypeInfo v (String c id) n)
                end
            end
        end
      else Err (ParseTypeError s pos)
  end.

(** [parseType]: [s[0] == '%'] sets [isVar] and moves past the mark. *)
Definition parseType (s : string) : Expected TypeInfo :=
  match s with
  | String c r =>
      if Ascii.eqb c "%" then parseAfterVar s true r 1
      else parseAfterVar s false s 0
  | EmptyString => parseAfterVar s false s 0
  end.

(** ** Printing numbers *)

(** [ss << n] for an [int]. *)
Definition show_int (z : Z) : string := NilZero.string_of_int (Z.to_int z).

(** [OS << n] for a [size_t] or an array index. *)
Definition show_nat (n : nat) : string := NilZero.string_of_uint (Nat.to_uint n).

Definition nl : string := String (ascii_of_nat 10) EmptyString.
Definition dquote : string := String (ascii_of_nat 34) EmptyString.
Definition squote : string := String (ascii_of_nat 39) EmptyString.

(** [OS << E] for an [llvm::Error]: the payload's [log], or the word
    [success] when there is no payload. *)
Definition showError (e : Error) : string :=
  match e with
  | ParseTypeError str pos =>
      "Unexpected character: " ++ squote
        ++ match String.get pos str with
           | Some c => String c EmptyString
           | None => String zero EmptyString
           end
        ++ squote ++ " in " ++ dquote ++ str ++ dquote
        ++ " (" ++ show_nat pos ++ ")"
  | StringError msg => msg
  | ErrorSuccess => "success"
  end.

(** ** Function signatures and shapes *)

Record FuncDecl : Type := mkFuncDecl {
  pMap : ParamMap;
  retType : string
}.

Definition ParamMap_eq_dec (a b : ParamMap) : {a = b} + {a <> b}.
Proof.
  apply list_eq_dec. intros [k v] [k' v'].
  destruct (string_dec k k') as [->|Hk]; [| right; congruence].
  destruct (Z.eq_dec v v') as [->|Hv]; [left; reflexivity | right; congruence].
Defined.

(** [FuncDecl::operator==]: both maps hold their entries in key order, so
    [pMap == rhs.pMap] is the equality of the entry sequences. *)
Definition FuncDecl_eq_dec (a b : FuncDecl) : {a = b} + {a <> b}.
Proof.
  destruct a as [p r], b as [p' r'].
  destruct (ParamMap_eq_dec p p') as [->|Hp]; [| right; congruence].
  destruct (string_dec r r') as [->|Hr]; [left; reflexivity | right; congruence].
Defined.

Fixpoint join (sep : string) (l : list string) : string :=
  match l with
  | [] => ""
  | [x] => x
  | x :: r => x ++ sep ++ join sep r
  end.

(** [FuncDecl::pretty]. *)
Definition pretty (f : FuncDecl) : string :=
  "(" ++ join ", " (map (fun kv => fst kv ++ ": " ++ show_int (snd kv)) (pMap f))
      ++ ") -> " ++ retType f.

(** [prettyMapAsStruct]. *)
Definition prettyMapAsStruct (m : ParamMap) : string :=
  "{ " ++ String.concat ""
            (map (fun kv => fst kv ++ ": " ++ show_int (snd kv) ++ "; ") m)
       ++ "};".

Record Declarations : Type := mkDeclarations {
  functions : StdMap.t FuncDecl;
  structs : StdMap.t ParamMap;
  unnamedFunctions : list FuncDecl;
  unnamedStructs : list ParamMap;
  varStructs : StdMap.t ParamMap
}.

Definition noDeclarations : Declarations := mkDeclarations [] [] [] [] [].

(** ** JSON values and the loader *)

#[local] Unset Elimination Schemes.
Inductive Value : Type :=
| JNull
| JBool (b : bool)
| JNumber (z : Z)
| JString (s : string)
| JArray (l : list Value)
| JObject (l : list (string * Value)).
#[local] Set Elimination Schemes.

(** A [json::Path]: the segments from the root to the current value. *)
Inductive Segment : Type :=
| Field (k : string)
| Index (i : nat).

Definition Path : Type := list Segment.

(** What [P.report(msg)] records in the root. *)
Record PathError : Type := mkPathError {
  message : string;
  path : Path
}.

(** A [fromJSON] overload: the new contents of its out-parameter and the
    report it made when it returned [false]. *)
Definition Loaded (T : Type) : Type := (T * option PathError)%type.

(** [Object::get]. *)
Fixpoint getProperty (k : string) (o : list (string * Value)) : option Value :=
  match o with
  | [] => None
  | (k', v) :: r => if String.eqb k k' then Some v else getProperty k r
  end.

(** Modelled from the spec: the [fromJSON] overloads of the JSON library
    for [int], [std::string], [std::map] and [std::vector]
    ([llvm/Support/JSON.h]) are not under src/.  "[params] (object:
    type-string -> integer count) and [return] (string)"; "any structural
    violation (wrong JSON shape, missing required key) aborts the entire
    load with a path-qualified error". *)
Definition fromJSON_int (E : Value) (out : Z) (P : Path) : Loaded Z :=
  match E with
  | JNumber z => (int_wrap z, None)
  | _ => (out, Some (mkPathError "expected integer" P))
  end.

Definition fromJSON_string (E : Value) (out : string) (P : Path) : Loaded string :=
  match E with
  | JString s => (s, None)
  | _ => (out, Some (mkPathError "expected string" P))
  end.

Section Containers.
Context {T : Type}.
Variable elem : Value -> T -> Path -> Loaded T.
Variable fresh : T.

(** The loop of the map overload: [Out[key]] is created, then filled. *)
Fixpoint fromJSON_entries (kvs : list (string * Value)) (out : StdMap.t T)
    (P : Path) : Loaded (StdMap.t T) :=
  match kvs with
  | [] => (out, None)
  | (k, v) :: r =>
      let cur := match StdMap.find k out with Some x => x | None => fresh end in
      let '(x, e) := elem v cur (P ++ [Field k])%list in
      let out' := StdMap.assign k x out in
      match e with
      | Some err => (out', Some err)
      | None => fromJSON_entries r out' P
      end
  end.

Definition fromJSON_map (E : Value) (out : StdMap.t T) (P : Path)
  : Loaded (StdMap.t T) :=
  match E with
  | JObject kvs => fromJSON_entries kvs [] P
  | _ => (out, Some (mkPathError "expected object" P))
  end.

(** The loop of the vector overload, after [Out.resize(A->size())]. *)
Fixpoint fromJSON_items (vs : list Value) (i : nat) (P : Path)
  : Loaded (list T) :=
  match vs with
  | [] => ([], None)
  | v :: r =>
      let '(x, e) := elem v fresh (P ++ [Index i])%list in
      match e with
      | Some err => (x :: map (fun _ => fresh) r, Some err)
      | None => let '(xs, e') := fromJSON_items r (S i) P in (x :: xs, e')
      end
  end.

Definition fromJSON_vector (E : Value) (out : list T) (P : Path)
  : Loaded (list T) :=
  match E with
  | JArray vs => fromJSON_items vs 0 P
  | _ => (out, Some (mkPathError "expected array" P))
  end.
End Containers.

Definition fromJSON_ParamMap : Value -> ParamMap -> Path -> Loaded ParamMap :=
  fromJSON_map fromJSON_int 0%Z.

(** Overloads fromJSON to work with FuncDecl. *)
Definition fromJSON_FuncDecl (E : Value) (out : FuncDecl) (P : Path)
  : Loaded FuncDecl :=
  match E with
  | JObject jsonObj =>
      match getProperty "params" jsonObj, getProperty "return" jsonObj with
      | None, _ => (out, Some (mkPathError "expected property 'params'" P))
      | Some _, None => (out, Some (mkPathError "expected property 'return'" P))
      | Some params, Some ret =>
          let '(pm, e) := fromJSON_ParamMap params (pMap out) P in
          match e with
          | Some err => (mkFuncDecl pm (retType out), Some err)
          | None =>
              let '(rt, e') := fromJSON_string ret (retType out) P in
              (mkFuncDecl pm rt, e')
          end
      end
  | _ => (out, Some (mkPathError "expected object" P))
  end.

Definition emptyFuncDecl : FuncDecl := mkFuncDecl [] "".

(** One step of the loader: the overload runs only when the key is present. *)
Definition loadKey {T : Type} (load : Value -> T -> Path -> Loaded T)
    (v : option Value) (out : T) (P : Path) : Loaded T :=
  match v with
  | Some E => load E out P
  | None => (out, None)
  end.

(** Overloads fromJSON to work with Declarations. *)
Definition fromJSON_Declarations (E : Value) (out : Declarations) (P : Path)
  : Loaded Declarations :=
  match E with
  | JObject jsonObj =>
      (* The absence of functions/structs is allowed. *)
      let '(fs, e) := loadKey (fromJSON_map fromJSON_FuncDecl emptyFuncDecl)
                        (getProperty "functions" jsonObj) (functions out) P in
      let out := mkDeclarations fs (structs out) (unnamedFunctions out)
                   (unnamedStructs out) (varStructs out) in
      match e with Some err => (out, Some err) | None =>
      let '(ss, e) := loadKey (fromJSON_map fromJSON_ParamMap [])
                        (getProperty "structs" jsonObj) (structs out) P in
      let out := mkDeclarations (functions out) ss (unnamedFunctions out)
                   (unnamedStructs out) (varStructs out) in
      match e with Some err => (out, Some err) | None =>
      let '(ufs, e) := loadKey (fromJSON_vector fromJSON_FuncDecl emptyFuncDecl)
                         (getProperty "functions*" jsonObj) (unnamedFunctions out) P in
      let out := mkDeclarations (functions out) (structs out) ufs
                   (unnamedStructs out) (varStructs out) in
      match e with Some err => (out, Some err) | None =>
      let '(uss, e) := loadKey (fromJSON_vector fromJSON_ParamMap [])
                         (getProperty "structs*" jsonObj) (unnamedStructs out) P in
      let out := mkDeclarations (functions out) (structs out) (unnamedFunctions out)
                   uss (varStructs out) in
      match e with Some err => (out, Some err) | None =>
      let '(vs, e) := loadKey (fromJSON_map fromJSON_ParamMap [])
                        (getProperty "%structs" jsonObj) (varStructs out) P in
      (mkDeclarations (functions out) (structs out) (unnamedFunctions out)
         (unnamedStructs out) vs, e)
      end end end end
  | _ => (out, Some (mkPathError "expected object" P))
  end.

(** [root.getError()] for the root named [Declarations]. *)
Definition showSegment (s : Segment) : string :=
  match s with
  | Field k => "." ++ k
  | Index i => "[" ++ show_nat i ++ "]"
  end.

Definition getError (e : PathError) : string :=
  message e ++
  match path e with
  | [] => " when parsing Declarations"
  | p => " at Declarations" ++ String.concat "" (map showSegment p)
  end.

(** ** Start of the check: loading and registration *)

Definition EXIT_FAILURE : Z := 1.

(** What the host finds behind [DeclFile]: the file cannot be opened,
    its text is not JSON, or it parses to a value. *)
Inductive FileContents : Type :=
| Unreadable (reason : string)
| Malformed
| Json (v : Value).

(** [readJsonFile]: the parsed value, or the lines written before
    [exit(EXIT_FAILURE)]. *)
Definition readJsonFile (FileName : string) (file : FileContents)
  : list string + Value :=
  match file with
  | Unreadable reason =>
      inl ["Error opening json file: " ++ FileName ++ ": " ++ reason ++ nl]
  | Malformed => inl ["Unable to parse json file " ++ FileName ++ nl]
  | Json v => inr v
  end.

(** Check if any anonymous declarations overlaps with any named
    declarations: the line written before [exit(EXIT_FAILURE)], if any. *)
Definition checkOverlappingDefinitions (decls : Declarations) : option string :=
  let funcs := map snd (functions decls) in
  let structs := map snd (structs decls) in
  match List.find (fun it => negb (count_occ FuncDecl_eq_dec funcs it =? 0)%nat)
                  (unnamedFunctions decls) with
  | Some it =>
      Some ("Unnamed function declaration " ++ pretty it
              ++ " has a named counterpart" ++ nl)
  | None =>
      match List.find (fun it => negb (count_occ ParamMap_eq_dec structs it =? 0)%nat)
                      (unnamedStructs decls) with
      | Some it =>
          Some ("Unnamed struct declaration " ++ prettyMapAsStruct it
                  ++ " has a named counterpart" ++ nl)
      | None => None
      end
  end.

Inductive Matcher : Type :=
| functionDecl_fun
| recordDecl_struct
| typedefDecl_typedefStruct.

(** How [registerMatchers] ends: the process has exited, or the call has
    returned with the catalog as loaded so far, the matchers added to the
    finder and the lines written to the error stream. *)
Inductive Outcome : Type :=
| ProcessExit (status : Z) (errs : list string)
| Returned (decls : Declarations) (matchers : list Matcher) (errs : list string).

Definition allMatchers : list Matcher :=
  [functionDecl_fun; recordDecl_struct; typedefDecl_typedefStruct].

(** [AssignmentDeclExistCheck::registerMatchers]; the call of
    [checkOverlappingDefinitions] is commented out in the source. *)
Definition registerMatchers (DeclFile : string) (file : FileContents)
    (decls : Declarations) : Outcome :=
  if String.eqb DeclFile "" then Returned decls [] []
  else
    match readJsonFile DeclFile file with
    | inl errs => ProcessExit EXIT_FAILURE errs
    | inr json =>
        match fromJSON_Declarations json decls [] with
        | (decls', Some err) =>
            Returned decls' [] ["Declarations: " ++ getError err ++ nl]
        | (decls', None) => Returned decls' allMatchers []
        end
    end.

(** The earlier revision of the same file, which has no [%structs] key
    and does call [checkOverlappingDefinitions]. *)
Module Legacy.

Definition fromJSON_Declarations (E : Value) (out : Declarations) (P : Path)
  : Loaded Declarations :=
  match E with
  | JObject jsonObj =>
      let '(fs, e) := loadKey (fromJSON_map fromJSON_FuncDecl emptyFuncDecl)
                        (getProperty "functions" jsonObj) (functions out) P in
      let out := mkDeclarations fs (structs out) (unnamedFunctions out)
                   (unnamedStructs out) (varStructs out) in
      match e with Some err => (out, Some err) | None =>
      let '(ss, e) := loadKey (fromJSON_map fromJSON_ParamMap [])
                        (getProperty "structs" jsonObj) (structs out) P in
      let out := mkDeclarations (functions out) ss (unnamedFunctions out)
                   (unnamedStructs out) (varStructs out) in
      match e with Some err => (out, Some err) | None =>
      let '(ufs, e) := loadKey (fromJSON_vector fromJSON_FuncDecl emptyFuncDecl)
                         (getProperty "functions*" jsonObj) (unnamedFunctions out) P in
      let out := mkDeclarations (functions out) (structs out) ufs
                   (unnamedStructs out) (varStructs out) in
      match e with Some err => (out, Some err) | None =>
      let '(uss, e) := loadKey (fromJSON_vector fromJSON_ParamMap [])
                         (getProperty "structs*" jsonObj) (unnamedStructs out) P in
      (mkDeclarations (functions out) (structs out) (unnamedFunctions out)
         uss (varStructs out), e)
      end end end
  | _ => (out, Some (mkPathError "expected object" P))
  end.

Definition registerMatchers (DeclFile : string) (file : FileContents)
    (decls : Declarations) : Outcome :=
  if String.eqb DeclFile "" then Returned decls [] []
  else
    match readJsonFile DeclFile file with
    | inl errs => ProcessExit EXIT_FAILURE errs
    | inr json =>
        match fromJSON_Declarations json decls [] with
        | (decls', Some err) =>
            Returned decls' [] ["Declarations: " ++ getError err ++ nl]
        | (decls', None) =>
            match checkOverlappingDefinitions decls' with
            | Some line => ProcessExit EXIT_FAILURE [line]
            | None => Returned decls' allMatchers []
            end
        end
    end.

End Legacy.

(** ** Observation *)

Definition SourceLocation : Type := nat.

(** The part of a [clang::FunctionDecl] the check reads; the type strings
    are [getUnqualifiedType().getAsString()] of each type. *)
Record FunctionDecl : Type := mkFunctionDecl {
  fd_name : string;
  fd_parameters : list string;
  fd_returnType : string;
  fd_location : SourceLocation
}.

Record RecordDecl : Type := mkRecordDecl {
  rd_name : string;
  rd_fields : list string;
  rd_location : SourceLocation
}.

(** A typedef and the record its underlying type names, if it is one. *)
Record TypedefDecl : Type := mkTypedefDecl {
  td_name : string;
  td_record : option RecordDecl
}.

(** The file-scope maps filled while the translation unit is visited. *)
Record Found : Type := mkFound {
  foundFuncs : StdMap.t FuncDecl;
  funcLocMap : StdMap.t SourceLocation;
  foundStructs : StdMap.t ParamMap;
  structLocMap : StdMap.t SourceLocation
}.

Definition nothingFound : Found := mkFound [] [] [] [].

(** Remove the prefix keyword "struct" from a string that represents a
    type. *)
Definition removeStructPrefix (s : string) : string :=
  if String.prefix structPrefix s
  then dropChars (String.length structPrefix) s
  else s.

(** [m[x]], the value or the value-initialised [0]. *)
Definition countOf (x : string) (m : ParamMap) : Z :=
  match StdMap.find x m with Some n => n | None => 0%Z end.

(** Given a range of elements, return a map from the elements to the
    amount of times they occur in the range: [m[*it]++] for each. *)
Definition countOccurrences (l : list string) : ParamMap :=
  fold_left (fun m x => StdMap.assign x (int_wrap (countOf x m + 1)) m) l [].

(** [AssignmentDeclExistCheck::checkFun]. *)
Definition checkFun (decl : FunctionDecl) (st : Found) : Found :=
  let name := fd_name decl in
  if String.eqb name "main" then st
  else
    let typeStrings := map removeStructPrefix (fd_parameters decl) in
    let retType := removeStructPrefix (fd_returnType decl) in
    let currentFunc := mkFuncDecl (countOccurrences typeStrings) retType in
    mkFound (StdMap.insert name currentFunc (foundFuncs st))
            (StdMap.insert name (fd_location decl) (funcLocMap st))
            (foundStructs st) (structLocMap st).

(** [AssignmentDeclExistCheck::checkStruct]; [n] is the typedef's name. *)
Definition checkStruct (decl : RecordDecl) (n : option string) (st : Found)
  : Found :=
  let name := match n with Some x => x | None => rd_name decl end in
  let typeStrings := map removeStructPrefix (rd_fields decl) in
  let currentStruct := countOccurrences typeStrings in
  mkFound (foundFuncs st) (funcLocMap st)
          (StdMap.insert name currentStruct (foundStructs st))
          (StdMap.insert name (rd_location decl) (structLocMap st)).

(** [AssignmentDeclExistCheck::checkTypedef]. *)
Definition checkTypedef (decl : TypedefDecl) (st : Found) : Found :=
  match td_record decl with
  | None => st
  | Some d => checkStruct d (Some (td_name decl)) st
  end.

(** A node bound by one of the three matchers. *)
Inductive MatchResult : Type :=
| MatchedFun (d : FunctionDecl)
| MatchedStruct (d : RecordDecl)
| MatchedTypedef (d : TypedefDecl).

(** [AssignmentDeclExistCheck::check]. *)
Definition check (Result : MatchResult) (st : Found) : Found :=
  match Result with
  | MatchedFun d => checkFun d st
  | MatchedStruct d => checkStruct d None st
  | MatchedTypedef d => checkTypedef d st
  end.

(** The calls of [check] over one translation unit, in visiting order. *)
Definition observe (nodes : list MatchResult) (st : Found) : Found :=
  fold_left (fun st r => check r st) nodes st.

(** ** Placeholder resolution *)

(** [associateVar]: the binding map afterwards and the lines written. *)
Definition associateVar (var target : string) (varMap : StdMap.t string)
  : StdMap.t string * list string :=
  match parseType var with
  | Ok maybeType =>
      if isVar maybeType then
        (varMap, ["Redundant variable '%'" ++ " in " ++ var ++ ", skipped" ++ nl])
      else if (0 <? pointers maybeType)%Z then
        (varMap, ["Unexpected pointer asterisks in " ++ var ++ ", skipped" ++ nl])
      else (StdMap.insert (name maybeType) target varMap, [])
  | Err e => (varMap, [showError e ++ ", skipped" ++ nl])
  end.

(** Bind variable names to structs that match: the body of the two
    nested loops, then the loops. *)
Definition bindOne (var : string * ParamMap)
    (acc : StdMap.t string * list string) (found : string * ParamMap)
  : StdMap.t string * list string :=
  if ParamMap_eq_dec (snd var) (snd found)
  then let '(varMap, lines) := associateVar (fst var) (fst found) (fst acc) in
       (varMap, app (snd acc) lines)
  else acc.

Definition bindVars (decls : Declarations) (st : Found)
  : StdMap.t string * list string :=
  fold_left (fun acc var => fold_left (bindOne var) (foundStructs st) acc)
            (varStructs decls) ([], []).

(** Look up var in varMap, if it is a variable, otherwise return it as is. *)
Definition resolveVar (var : string) (varMap : StdMap.t string)
  : Expected string :=
  match parseType var with
  | Ok maybeType =>
      if negb (isVar maybeType) then Ok (name maybeType)
      else
        match StdMap.find (name maybeType) varMap with
        | None => Err (StringError ("No such variable: " ++ name maybeType))
        | Some resolved =>
            (* Ensure pointers are preserved after resolving *)
            Ok (toString (mkTypeInfo false resolved (pointers maybeType)))
        end
  | Err e => Err e
  end.

(** The loop of [resolveParams].  When [resolveVar] fails the source
    returns [maybeType.takeError()] of the parse that succeeded, which
    carries no payload. *)
Fixpoint resolveParamsLoop (params : list (string * Z))
    (varMap : StdMap.t string) (ret : ParamMap) : Expected ParamMap :=
  match params with
  | [] => Ok ret
  | it :: rest =>
      match parseType (fst it) with
      | Ok _ =>
          match resolveVar (fst it) varMap with
          | Ok var => resolveParamsLoop rest varMap (StdMap.insert var (snd it) ret)
          | Err _ => Err ErrorSuccess
          end
      | Err e => Err e
      end
  end.

Definition resolveParams (params : ParamMap) (varMap : StdMap.t string)
  : Expected ParamMap :=
  resolveParamsLoop params varMap [].

Definition resolveFunction (params : FuncDecl) (varMap : StdMap.t string)
  : Expected FuncDecl :=
  match resolveParams (pMap params) varMap with
  | Ok maybeParams =>
      match resolveVar (retType params) varMap with
      | Ok maybeRet => Ok (mkFuncDecl maybeParams maybeRet)
      | Err e => Err e
      end
  | Err e => Err e
  end.

(** The resolution loops of [onEndOfTranslationUnit] differ only in the
    resolver and in the text between the error and the skipped entry. *)
Section ResolveLoops.
Context {A : Type}.
Variable resolve : A -> Expected A.
Variable skipped : string.

(** Over a map: an entry that resolves is inserted under its name. *)
Definition resolveNamedStep (acc : StdMap.t A * list string)
    (entry : string * A) : StdMap.t A * list string :=
  match resolve (snd entry) with
  | Ok r => (StdMap.insert (fst entry) r (fst acc), snd acc)
  | Err e =>
      (fst acc, app (snd acc) [showError e ++ skipped ++ fst entry ++ nl])
  end.

Definition resolveNamed (m : StdMap.t A) : StdMap.t A * list string :=
  fold_left resolveNamedStep m ([], []).

Variable show : A -> string.

(** Over a vector: an entry that resolves is pushed back. *)
Definition resolveUnnamedStep (acc : list A * list string) (entry : A)
  : list A * list string :=
  match resolve entry with
  | Ok r => (app (fst acc) [r], snd acc)
  | Err e =>
      (fst acc, app (snd acc) [showError e ++ skipped ++ show entry ++ nl])
  end.

Definition resolveUnnamed (l : list A) : list A * list string :=
  fold_left resolveUnnamedStep l ([], []).
End ResolveLoops.

(** The first half of [onEndOfTranslationUnit]: the binding map, the
    catalog in resolved form and the lines written. *)
Definition resolveDeclarations (decls : Declarations) (st : Found)
  : Declarations * list string :=
  let '(varMap, l0) := bindVars decls st in
  let '(funcs, l1) :=
    resolveNamed (fun f => resolveFunction f varMap) ", skipped " (functions decls) in
  let '(structs, l2) :=
    resolveNamed (fun p => resolveParams p varMap) " skipped " (structs decls) in
  let '(unnamedFuncs, l3) :=
    resolveUnnamed (fun f => resolveFunction f varMap) " skipped " pretty
                   (unnamedFunctions decls) in
  let '(unnamedStructs, l4) :=
    resolveUnnamed (fun p => resolveParams p varMap) " skipped " prettyMapAsStruct
                   (unnamedStructs decls) in
  let '(varStructs, l5) :=
    resolveNamed (fun p => resolveParams p varMap) " skipped " (varStructs decls) in
  (mkDeclarations funcs structs unnamedFuncs unnamedStructs varStructs,
   (l0 ++ l1 ++ l2 ++ l3 ++ l4 ++ l5)%list).

(** ** Matching *)

(** [diag(loc, "Expected %0 but got %1") << a << b].  The location is what
    [funcLocMap.find(name)] points at; [None] is the [end()] iterator,
    which the source dereferences all the same. *)
Record Diag : Type := mkDiag {
  location : option SourceLocation;
  description : string;
  arg0 : string;
  arg1 : string
}.

Definition mismatch (loc : option SourceLocation) (expected actual : string)
  : Diag :=
  mkDiag loc "Expected %0 but got %1" expected actual.

(** [std::find] followed by [erase] when it found something. *)
Fixpoint eraseFirst {A : Type} (eq_dec : forall a b : A, {a = b} + {a <> b})
    (x : A) (l : list A) : list A :=
  match l with
  | [] => []
  | y :: r => if eq_dec y x then r else y :: eraseFirst eq_dec x r
  end.

(** One round of the loop over [foundFuncs]: search for named first,
    fall back to unnamed. *)
Definition matchFun (locs : StdMap.t SourceLocation) (func : string * FuncDecl)
    (st : StdMap.t FuncDecl * list FuncDecl)
  : (StdMap.t FuncDecl * list FuncDecl) * list Diag :=
  let name := fst func in
  match StdMap.find name (fst st) with
  | Some maybeNamedFunc =>
      ((StdMap.erase name (fst st), snd st),
       if FuncDecl_eq_dec (snd func) maybeNamedFunc then []
       else [mismatch (StdMap.find name locs)
                      (pretty maybeNamedFunc) (pretty (snd func))])
  | None => ((fst st, eraseFirst FuncDecl_eq_dec (snd func) (snd st)), [])
  end.

Fixpoint matchFuncs (locs : StdMap.t SourceLocation)
    (found : list (string * FuncDecl))
    (st : StdMap.t FuncDecl * list FuncDecl)
  : (StdMap.t FuncDecl * list FuncDecl) * list Diag :=
  match found with
  | [] => (st, [])
  | func :: rest =>
      let '(st1, d1) := matchFun locs func st in
      let '(st2, d2) := matchFuncs locs rest st1 in
      (st2, (d1 ++ d2)%list)
  end.

(** [std::find_if] over [varStructs] for the shape of the record. *)
Definition findVarRec (shape : ParamMap) (varStructs : StdMap.t ParamMap)
  : option (string * ParamMap) :=
  List.find (fun pm => if ParamMap_eq_dec (snd pm) shape then true else false)
            varStructs.

(** One round of the loop over [foundStructs]. *)
Definition matchStruct (locs : StdMap.t SourceLocation)
    (record : string * ParamMap)
    (st : StdMap.t ParamMap * StdMap.t ParamMap * list ParamMap)
  : (StdMap.t ParamMap * StdMap.t ParamMap * list ParamMap) * list Diag :=
  let '(structs, varStructs, unnamedStructs) := st in
  let name := fst record in
  match StdMap.find name structs with
  | Some maybeNamedRec =>
      ((StdMap.erase name structs, varStructs, unnamedStructs),
       if ParamMap_eq_dec (snd record) maybeNamedRec then []
       else [mismatch (StdMap.find name locs)
                      (prettyMapAsStruct maybeNamedRec)
                      (prettyMapAsStruct (snd record))])
  | None =>
      match findVarRec (snd record) varStructs with
      | Some maybeVarRec =>
          ((structs, StdMap.erase (fst maybeVarRec) varStructs, unnamedStructs), [])
      | None =>
          ((structs, varStructs,
            eraseFirst ParamMap_eq_dec (snd record) unnamedStructs), [])
      end
  end.

Fixpoint matchStructs (locs : StdMap.t SourceLocation)
    (found : list (string * ParamMap))
    (st : StdMap.t ParamMap * StdMap.t ParamMap * list ParamMap)
  : (StdMap.t ParamMap * StdMap.t ParamMap * list ParamMap) * list Diag :=
  match found with
  | [] => (st, [])
  | record :: rest =>
      let '(st1, d1) := matchStruct locs record st in
      let '(st2, d2) := matchStructs locs rest st1 in
      (st2, (d1 ++ d2)%list)
  end.

(** The two matching loops: what is left of the resolved catalog, and the
    diagnostics in the order they are emitted.  Both loops read
    [funcLocMap]. *)
Definition matchAll (resolved : Declarations) (st : Found)
  : Declarations * list Diag :=
  let '((funcs, unnamedFuncs), d1) :=
    matchFuncs (funcLocMap st) (foundFuncs st)
               (functions resolved, unnamedFunctions resolved) in
  let '((structs, varStructs, unnamedStructs), d2) :=
    matchStructs (funcLocMap st) (foundStructs st)
                 (structs resolved, varStructs resolved, unnamedStructs resolved) in
  (mkDeclarations funcs structs unnamedFuncs unnamedStructs varStructs,
   (d1 ++ d2)%list).

(** ** The report *)

Definition section {A : Type} (title : string) (show : A -> string)
    (l : list A) : list string :=
  match l with
  | [] => []
  | _ => (title ++ nl) :: map (fun it => show it ++ nl) l
  end.

(** The five listings that end [onEndOfTranslationUnit]. *)
Definition report (rest : Declarations) : list string :=
  List.concat
    [section "MISSING NAMED FUNCTION(s):" fst (functions rest);
     section "MISSING NAMED STRUCT(s):" fst (structs rest);
     section "MISSING UNNAMED FUNCTION(s):" pretty (unnamedFunctions rest);
     section "MISSING UNNAMED STRUCT(s):" prettyMapAsStruct (unnamedStructs rest);
     section "MISSING VARIABLE STRUCT(s):" fst (varStructs rest)].

Record Output : Type := mkOutput {
  diagnostics : list Diag;
  errs : list string
}.

(** What is left unmatched at the end of the translation unit. *)
Definition leftover (decls : Declarations) (st : Found) : Declarations :=
  fst (matchAll (fst (resolveDeclarations decls st)) st).

(** [AssignmentDeclExistCheck::onEndOfTranslationUnit]. *)
Definition onEndOfTranslationUnit (decls : Declarations) (st : Found) : Output :=
  let '(resolved, lines) := resolveDeclarations decls st in
  let '(rest, diags) := matchAll resolved st in
  mkOutput diags (lines ++ report rest)%list.

(** ** One run of the check *)

Inductive Run : Type :=
| Exited (status : Z) (errs : list string)
| Finished (out : Output).

(** Modelled from the spec: the finder that drives the check
    ([MatchFinder], not under src/).  It calls [check] once per bound node
    in visiting order and [onEndOfTranslationUnit] at the end, for a check
    that registered a matcher; "on such an error, matching is skipped
    entirely for this run (the component degrades to a no-op, not a
    partial check)". *)
Definition runCheck (DeclFile : string) (file : FileContents)
    (nodes : list MatchResult) : Run :=
  match registerMatchers DeclFile file noDeclarations with
  | ProcessExit status lines => Exited status lines
  | Returned decls [] lines => Finished (mkOutput [] lines)
  | Returned decls _ lines =>
      let out := onEndOfTranslationUnit decls (observe nodes nothingFound) in
      Finished (mkOutput (diagnostics out) (lines ++ errs out)%list)
  end.

(** ** Vocabulary of the statements *)

(** The signature [checkFun] records for a declaration, and the shape
    [checkStruct] records. *)
Definition signatureOf (d : FunctionDecl) : FuncDecl :=
  mkFuncDecl (countOccurrences (map removeStructPrefix (fd_parameters d)))
             (removeStructPrefix (fd_returnType d)).

Definition shapeOf (d : RecordDecl) : ParamMap :=
  countOccurrences (map removeStructPrefix (rd_fields d)).

(** The function declarations of a visit that carry the name [n], in
    visiting order. *)
Definition functionsNamed (n : string) (nodes : list MatchResult)
  : list FunctionDecl :=
  flat_map (fun r =>
              match r with
              | MatchedFun d => if String.eqb (fd_name d) n then [d] else []
              | _ => []
              end) nodes.

(** The records of a visit observed under the name [n]: a record by its
    own name, the record behind a typedef by the typedef's. *)
Definition recordsNamed (n : string) (nodes : list MatchResult)
  : list RecordDecl :=
  flat_map (fun r =>
              match r with
              | MatchedStruct d => if String.eqb (rd_name d) n then [d] else []
              | MatchedTypedef d =>
                  match td_record d with
                  | Some rd => if String.eqb (td_name d) n then [rd] else []
                  | None => []
                  end
              | MatchedFun _ => []
              end) nodes.

(** All four observation maps are well-formed maps. *)
Definition wellFormed (st : Found) : Prop :=
  StdMap.sorted (foundFuncs st) /\ StdMap.sorted (funcLocMap st) /\
  StdMap.sorted (foundStructs st) /\ StdMap.sorted (structLocMap st).

(** The visits of a function named [main]. *)
Definition isMainFunction (r : MatchResult) : bool :=
  match r with
  | MatchedFun d => String.eqb (fd_name d) "main"
  | _ => false
  end.

(** The diagnostics one observed function gives rise to, read off the
    expected map as it is before the loop. *)
Definition mismatchOf (locs : StdMap.t SourceLocation)
    (funcs : StdMap.t FuncDecl) (func : string * FuncDecl) : list Diag :=
  match StdMap.find (fst func) funcs with
  | Some expected =>
      if FuncDecl_eq_dec (snd func) expected then []
      else [mismatch (StdMap.find (fst func) locs)
                     (pretty expected) (pretty (snd func))]
  | None => []
  end.

(** A type string that is a placeholder reference without a binding. *)
Definition unboundRef (s : string) (varMap : StdMap.t string) : Prop :=
  exists ty, parseType s = Ok ty /\ isVar ty = true /\
             StdMap.find (name ty) varMap = None.

Definition unboundParams (p : ParamMap) (varMap : StdMap.t string) : Prop :=
  exists key count, In (key, count) p /\ unboundRef key varMap.

Definition unboundFunction (f : FuncDecl) (varMap : StdMap.t string) : Prop :=
  unboundParams (pMap f) varMap \/ unboundRef (retType f) varMap.

(** The three maps of a catalog are well-formed maps. *)
Definition wellFormedCatalog (decls : Declarations) : Prop :=
  StdMap.sorted (functions decls) /\ StdMap.sorted (structs decls) /\
  StdMap.sorted (varStructs decls).

(** The catalog with one of its containers replaced. *)
Definition withFunctions (fs : StdMap.t FuncDecl) (d : Declarations) :=
  mkDeclarations fs (structs d) (unnamedFunctions d) (unnamedStructs d)
                 (varStructs d).
Definition withStructs (ss : StdMap.t ParamMap) (d : Declarations) :=
  mkDeclarations (functions d) ss (unnamedFunctions d) (unnamedStructs d)
                 (varStructs d).
Definition withUnnamedFunctions (l : list FuncDecl) (d : Declarations) :=
  mkDeclarations (functions d) (structs d) l (unnamedStructs d) (varStructs d).
Definition withUnnamedStructs (l : list ParamMap) (d : Declarations) :=
  mkDeclarations (functions d) (structs d) (unnamedFunctions d) l (varStructs d).

(** What the matcher makes of a catalog: the entries left over and the
    diagnostics. *)
Definition checked (decls : Declarations) (st : Found)
  : Declarations * list Diag :=
  matchAll (fst (resolveDeclarations decls st)) st.

(** The identifier [associateVar] binds for a template declared under
    the name [var]: the name has to parse, without the ['%'] mark and
    without asterisks. *)
Definition templateName (var : string) : option string :=
  match parseType var with
  | Ok ty =>
      if isVar ty then None
      else if (0 <? pointers ty)%Z then None
      else Some (name ty)
  | Err _ => None
  end.

(** The configuration of the placeholder example: one template of shape
    [{int: 1}] declared under [key] and a function that refers to [%T]. *)
Definition exampleTemplates (key : string) : Declarations :=
  mkDeclarations [("f", mkFuncDecl [("%T", 1%Z)] "void")] [] [] []
                 [(key, [("int", 1%Z)])].

(** A visit of [struct Point { int x; }] and [void f(struct Point)]. *)
Definition exampleVisit : list MatchResult :=
  [MatchedStruct (mkRecordDecl "Point" ["int"] 3);
   MatchedFun (mkFunctionDecl "f" ["struct Point"] "void" 7)].

(** A configuration whose [functions.foo] omits ["return"]. *)
Definition missingReturnConfig : Value :=
  JObject [("functions",
            JObject [("foo", JObject [("params", JObject [("int", JNumber 1)])])])].



(** An identifier: first character alphabetic or underscore, the rest
    alphanumeric or underscore. *)
Fixpoint allIdentBody (s : string) : bool :=
  match s with
  | EmptyString => true
  | String c r => isIdentBody c && allIdentBody r
  end.

Definition validIdentifier (id : string) : bool :=
  match id with
  | EmptyString => false
  | String c r => isIdentStart c && allIdentBody r
  end.

(** The first character of [s] exists and satisfies [p]. *)
Definition headIs (p : ascii -> bool) (s : string) : bool :=
  match s with
  | EmptyString => false
  | String c _ => p c
  end.

(** The expected [foo : (int: 1) -> int] and a visit of
    [int foo(int, char)]. *)
Definition fooExpected : StdMap.t FuncDecl :=
  [("foo", mkFuncDecl [("int", 1%Z)] "int")].

Definition fooVisit : list MatchResult :=
  [MatchedFun (mkFunctionDecl "foo" ["int"; "char"] "int" 7)].

(** A catalog with [g : (%U: 1) -> void], to which nothing is bound, and
    [h : (int: 1) -> int]. *)
Definition unboundExample : Declarations :=
  mkDeclarations [("g", mkFuncDecl [("%U", 1%Z)] "void");
                  ("h", mkFuncDecl [("int", 1%Z)] "int")] [] [] [] [].

(** A catalog that expects [int main()] and a visit of it. *)
Definition mainExpected : Declarations :=
  mkDeclarations [("main", mkFuncDecl [] "int")] [] [] [] [].

Definition mainVisit : list MatchResult :=
  [MatchedFun (mkFunctionDecl "main" [] "int" 1)].

(** Well-formedness of a map that is written out. *)
Ltac sorted_by_computation :=
  repeat (constructor;
          [ let H := fresh in
            intros ? ? H; simpl in H;
            repeat (destruct H as [H|H]; [injection H as <- <-; reflexivity|]);
            destruct H
          | ]);
  constructor.

(** The result of a parse of a suffix, read as a result on the whole
    string [s] in which the suffix starts at [pos]. *)
Definition relocate {T : Type} (s : string) (pos : nat) (r : Expected T)
  : Expected T :=
  match r with
  | Err (ParseTypeError _ p) => Err (ParseTypeError s (pos + p))
  | other => other
  end.

(** A shape written with plain identifiers only, and a signature and a
    catalog written that way. *)
Definition plainParams (p : ParamMap) : Prop :=
  StdMap.sorted p /\ forall k c, In (k, c) p -> validIdentifier k = true.

Definition plainFunction (f : FuncDecl) : Prop :=
  plainParams (pMap f) /\ validIdentifier (retType f) = true.

Definition plainCatalog (decls : Declarations) : Prop :=
  (StdMap.sorted (functions decls) /\
   forall n f, In (n, f) (functions decls) -> plainFunction f) /\
  (StdMap.sorted (structs decls) /\
   forall n p, In (n, p) (structs decls) -> plainParams p) /\
  (forall f, In f (unnamedFunctions decls) -> plainFunction f) /\
  (forall p, In p (unnamedStructs decls) -> plainParams p) /\
  (StdMap.sorted (varStructs decls) /\
   forall n p, In (n, p) (varStructs decls) -> plainParams p).

(** The bindings the two nested loops of [bindVars] attempt, in the order
    they attempt them: identifier and name of the observed record. *)
Definition bindingCandidates (decls : Declarations) (st : Found)
  : list (string * string) :=
  flat_map
    (fun var =>
       flat_map
         (fun found =>
            if ParamMap_eq_dec (snd var) (snd found)
            then match templateName (fst var) with
                 | Some id => [(id, fst found)]
                 | None => []
                 end
            else [])
         (foundStructs st))
    (varStructs decls).

(** The diagnostics one observed record gives rise to, read off the
    expected named records as they are before the loop. *)
Definition mismatchOfStruct (locs : StdMap.t SourceLocation)
    (structs : StdMap.t ParamMap) (record : string * ParamMap) : list Diag :=
  match StdMap.find (fst record) structs with
  | Some expected =>
      if ParamMap_eq_dec (snd record) expected then []
      else [mismatch (StdMap.find (fst record) locs)
                     (prettyMapAsStruct expected)
                     (prettyMapAsStruct (snd record))]
  | None => []
  end.

(** What a visit has to add for a node is there already: the names it
    would be recorded under are in the maps (a function called [main] and
    a typedef of something that is no record add nothing). *)
Definition covered (r : MatchResult) (st : Found) : Prop :=
  match r with
  | MatchedFun d =>
      fd_name d = "main" \/
      (StdMap.find (fd_name d) (foundFuncs st) <> None /\
       StdMap.find (fd_name d) (funcLocMap st) <> None)
  | MatchedStruct d =>
      StdMap.find (rd_name d) (foundStructs st) <> None /\
      StdMap.find (rd_name d) (structLocMap st) <> None
  | MatchedTypedef d =>
      td_record d = None \/
      (StdMap.find (td_name d) (foundStructs st) <> None /\
       StdMap.find (td_name d) (structLocMap st) <> None)
  end.

(** ** The earlier revision: matching while visiting

    In the revision that still calls [checkOverlappingDefinitions] there
    are no observation maps: [checkFun] and [checkStruct] match each
    declaration against the catalog at once, erase from the global
    catalog what they matched, and [onEndOfTranslationUnit] lists what is
    left of it.  The state is the catalog and the diagnostics emitted so
    far. *)
Module Earlier.

(** [AssignmentDeclExistCheck::checkFun]. *)
Definition checkFun (decl : FunctionDecl) (st : Declarations * list Diag)
  : Declarations * list Diag :=
  let '(decls, diags) := st in
  let name := fd_name decl in
  let typeStrings := map removeStructPrefix (fd_parameters decl) in
  let retType := removeStructPrefix (fd_returnType decl) in
  let currentFunc := mkFuncDecl (countOccurrences typeStrings) retType in
  match StdMap.find name (functions decls) with
  | None =>
      (* Name not found among named declarations; check the unnamed
         declarations vector. *)
      (mkDeclarations (functions decls) (structs decls)
         (eraseFirst FuncDecl_eq_dec currentFunc (unnamedFunctions decls))
         (unnamedStructs decls) (varStructs decls),
       diags)
  | Some expected =>
      (* Name match; ensure the signature matches. *)
      (mkDeclarations (StdMap.erase name (functions decls)) (structs decls)
         (unnamedFunctions decls) (unnamedStructs decls) (varStructs decls),
       if FuncDecl_eq_dec currentFunc expected then diags
       else app diags [mismatch (Some (fd_location decl))
                                (pretty expected) (pretty currentFunc)])
  end.

(** [AssignmentDeclExistCheck::checkStruct]. *)
Definition checkStruct (decl : RecordDecl) (n : option string)
    (st : Declarations * list Diag) : Declarations * list Diag :=
  let '(decls, diags) := st in
  let name := match n with Some x => x | None => rd_name decl end in
  let typeStrings := map removeStructPrefix (rd_fields decl) in
  let currentStruct := countOccurrences typeStrings in
  match StdMap.find name (structs decls) with
  | None =>
      (mkDeclarations (functions decls) (structs decls) (unnamedFunctions decls)
         (eraseFirst ParamMap_eq_dec currentStruct (unnamedStructs decls))
         (varStructs decls),
       diags)
  | Some pMap =>
      (mkDeclarations (functions decls) (StdMap.erase name (structs decls))
         (unnamedFunctions decls) (unnamedStructs decls) (varStructs decls),
       if ParamMap_eq_dec pMap currentStruct then diags
       else app diags
              [mkDiag (Some (rd_location decl))
                      "Wrong members of '%0': should consist of %1"
                      name (prettyMapAsStruct pMap)])
  end.

(** [AssignmentDeclExistCheck::checkTypedef]. *)
Definition checkTypedef (decl : TypedefDecl) (st : Declarations * list Diag)
  : Declarations * list Diag :=
  match td_record decl with
  | None => st
  | Some d => checkStruct d (Some (td_name decl)) st
  end.

(** [AssignmentDeclExistCheck::check]. *)
Definition check (Result : MatchResult) (st : Declarations * list Diag)
  : Declarations * list Diag :=
  match Result with
  | MatchedFun d => checkFun d st
  | MatchedStruct d => checkStruct d None st
  | MatchedTypedef d => checkTypedef d st
  end.

(** The calls of [check] over one translation unit, in visiting order. *)
Definition observe (nodes : list MatchResult) (st : Declarations * list Diag)
  : Declarations * list Diag :=
  fold_left (fun st r => check r st) nodes st.

(** [AssignmentDeclExistCheck::onEndOfTranslationUnit]: four listings. *)
Definition onEndOfTranslationUnit (decls : Declarations) : list string :=
  List.concat
    [section "MISSING NAMED FUNCTION(s):" fst (functions decls);
     section "MISSING NAMED STRUCT(s):" fst (structs decls);
     section "MISSING UNNAMED FUNCTION(s):" pretty (unnamedFunctions decls);
     section "MISSING UNNAMED STRUCT(s):" prettyMapAsStruct (unnamedStructs decls)].

End Earlier.

(** The location of the declaration a node stands for; for a typedef,
    that of the record behind it. *)
Definition nodeLocation (r : MatchResult) : option SourceLocation :=
  match r with
  | MatchedFun d => Some (fd_location d)
  | MatchedStruct d => Some (rd_location d)
  | MatchedTypedef d => option_map rd_location (td_record d)
  end.

(** The diagnostics the earlier revision emits when it visits the node
    [r] with the catalog [decls]. *)
Definition emittedBy (r : MatchResult) (decls : Declarations) : list Diag :=
  snd (Earlier.check r (decls, [])).

(** What [funcLocMap.find(n)] gives after the visit of [nodes]: the
    location of the first function declaration called [n], nothing when
    there is none or when [n] is [main]. *)
Definition functionLocation (n : string) (nodes : list MatchResult)
  : option SourceLocation :=
  if String.eqb n "main" then None
  else option_map fd_location (hd_error (functionsNamed n nodes)).

(** The diagnostics the record loop emits for one observed record, read
    off the visit [nodes] and the expected named records as they are
    before the loop. *)
Definition recordDiagnostics (nodes : list MatchResult)
    (structs : StdMap.t ParamMap) (record : string * ParamMap) : list Diag :=
  match StdMap.find (fst record) structs with
  | Some expected =>
      if ParamMap_eq_dec (snd record) expected then []
      else [mismatch (functionLocation (fst record) nodes)
                     (prettyMapAsStruct expected)
                     (prettyMapAsStruct (snd record))]
  | None => []
  end.

(** One expected record [Point] of shape [{int: 2}]. *)
Definition pointExpected : Declarations :=
  mkDeclarations [] [("Point", [("int", 2%Z)])] [] [] [].

(** A visit of [struct Point { int x; }] and of a function that is
    called [Point] as well. *)
Definition sharedNameVisit : list MatchResult :=
  [MatchedStruct (mkRecordDecl "Point" ["int"] 3);
   MatchedFun (mkFunctionDecl "Point" [] "void" 9)].

(** The name of the first record, in the order of the map, whose shape
    is exactly [shape]. *)
Definition firstOfShape (shape : ParamMap) (records : StdMap.t ParamMap)
  : option string :=
  option_map fst
    (List.find (fun found => if ParamMap_eq_dec shape (snd found) then true else false)
               records).

(** Two templates that declare the same identifier [T] with different
    shapes, and a visit of [struct A { int x; }] and
    [struct C { char c; }]. *)
Definition twoTemplates : Declarations :=
  mkDeclarations [] [] [] []
                 [("T", [("int", 1%Z)]); ("struct T", [("char", 1%Z)])].

Definition twoRecordsVisit : list MatchResult :=
  [MatchedStruct (mkRecordDecl "A" ["int"] 1);
   MatchedStruct (mkRecordDecl "C" ["char"] 2)].

(** The type string [key] resolves to the name [k]. *)
Definition resolvesTo (varMap : StdMap.t string) (k : string)
    (entry : string * Z) : bool :=
  match resolveVar (fst entry) varMap with
  | Ok k' => String.eqb k' k
  | Err _ => false
  end.

(** Every type string of the shape [p] resolves under [varMap]. *)
Definition resolvable (varMap : StdMap.t string) (p : ParamMap) : Prop :=
  forall key c, In (key, c) p -> exists r, resolveVar key varMap = Ok r.

(** [params] is the shape [p] in resolved form: each resolved type name
    with the count of the first type string of [p] that resolves to it. *)
Definition resolvedShape (varMap : StdMap.t string) (p params : ParamMap)
  : Prop :=
  forall k, StdMap.find k params =
            option_map snd (List.find (resolvesTo varMap k) p).

(** * Properties *)

(** ** Facts about [StdMap] *)

Section StdMapFacts.
Context {V : Type}.
Implicit Types (m : StdMap.t V) (k : string) (v : V).

Lemma key_lt_trans a b c :
  StdMap.key_lt a b -> StdMap.key_lt b c -> StdMap.key_lt a c.
Proof.
  unfold StdMap.key_lt. intros Hab Hbc.
  apply String_as_OT.cmp_lt. apply String_as_OT.cmp_lt in Hab, Hbc.
  eapply String_as_OT.lt_trans; eassumption.
Qed.

Lemma key_lt_neq a b : StdMap.key_lt a b -> a <> b.
Proof.
  unfold StdMap.key_lt. intros H ->.
  assert (E : String.compare b b = Eq) by (apply String_as_OT.cmp_eq; reflexivity).
  congruence.
Qed.

Lemma compare_Gt_lt a b : String.compare a b = Gt -> StdMap.key_lt b a.
Proof.
  unfold StdMap.key_lt. intros H. rewrite String.compare_antisym, H. reflexivity.
Qed.

Lemma find_In m k v : StdMap.find k m = Some v -> In (k, v) m.
Proof.
  induction m as [|[k' v'] r IH]; simpl; [discriminate|].
  destruct (String.eqb_spec k k') as [->|Hne].
  - intros [= ->]. now left.
  - intros H. right. now apply IH.
Qed.

Lemma find_None_notin m k v : StdMap.find k m = None -> ~ In (k, v) m.
Proof.
  induction m as [|[k' v'] r IH]; simpl; [tauto|].
  destruct (String.eqb_spec k k') as [->|Hne]; [discriminate|].
  intros H [[= E _]|Hin]; [congruence | now apply IH in Hin].
Qed.

Lemma In_find m k v : StdMap.sorted m -> In (k, v) m -> StdMap.find k m = Some v.
Proof.
  induction 1 as [|k' v' r Hlt Hs IH]; simpl; [tauto|].
  intros [[= -> ->]|Hin].
  - now rewrite String.eqb_refl.
  - destruct (String.eqb_spec k k') as [->|Hne]; [|now apply IH].
    apply Hlt in Hin. now apply key_lt_neq in Hin.
Qed.

Lemma sorted_tail k v m : StdMap.sorted ((k, v) :: m) -> StdMap.sorted m.
Proof. now inversion 1. Qed.

Lemma sorted_head_lt k v m k' v' :
  StdMap.sorted ((k, v) :: m) -> In (k', v') m -> StdMap.key_lt k k'.
Proof. inversion 1; subst; eauto. Qed.

Lemma In_insert m k v k' v' :
  In (k', v') (StdMap.insert k v m) -> (k' = k /\ v' = v) \/ In (k', v') m.
Proof.
  induction m as [|[k0 v0] r IH]; simpl.
  - intros [[= <- <-]|[]]. now left.
  - destruct (String.compare k k0); simpl.
    + tauto.
    + intros [[= <- <-]|H]; [now left | now right].
    + intros [H|H]; [now (right; left)|]. apply IH in H. tauto.
Qed.

Lemma insert_sorted m k v : StdMap.sorted m -> StdMap.sorted (StdMap.insert k v m).
Proof.
  induction 1 as [|k0 v0 r Hlt Hs IH]; simpl.
  - constructor; [intros ? ? []|constructor].
  - destruct (String.compare k k0) eqn:E.
    + now constructor.
    + constructor; [|now constructor].
      intros k' v' [[= <- <-]|Hin]; [exact E|].
      eapply key_lt_trans; [exact E | eauto].
    + constructor; [|exact IH].
      intros k' v' Hin. apply In_insert in Hin as [[-> ->]|Hin]; [|eauto].
      now apply compare_Gt_lt.
Qed.

(** [insert] keeps the entry that is already there. *)
Lemma find_insert m k v k' :
  StdMap.sorted m ->
  StdMap.find k' (StdMap.insert k v m) =
  if String.eqb k' k
  then match StdMap.find k m with Some old => Some old | None => Some v end
  else StdMap.find k' m.
Proof.
  induction 1 as [|k0 v0 r Hlt Hs IH]; simpl.
  - destruct (String.eqb k' k); reflexivity.
  - destruct (String.compare k k0) eqn:E.
    + apply String.compare_eq_iff in E. subst k0.
      rewrite String.eqb_refl. simpl.
      destruct (String.eqb_spec k' k) as [->|Hne]; reflexivity.
    + assert (Hk : k <> k0) by now apply key_lt_neq.
      apply String.eqb_neq in Hk. rewrite Hk. simpl.
      destruct (String.eqb_spec k' k) as [->|Hne].
      * destruct (StdMap.find k r) eqn:F; [|reflexivity].
        apply find_In, Hlt in F.
        exfalso. eapply key_lt_neq; [|reflexivity].
        eapply key_lt_trans; eassumption.
      * reflexivity.
    + assert (Hk : k <> k0).
      { intros ->. apply compare_Gt_lt, key_lt_neq in E. congruence. }
      apply String.eqb_neq in Hk. rewrite Hk. simpl. rewrite IH.
      destruct (String.eqb_spec k' k0) as [->|Hne0]; [|reflexivity].
      rewrite String.eqb_sym in Hk. now rewrite Hk.
Qed.

Lemma In_erase m k k' v' : In (k', v') (StdMap.erase k m) -> In (k', v') m.
Proof.
  induction m as [|[k0 v0] r IH]; simpl; [tauto|].
  destruct (String.eqb k k0); simpl; [tauto|]. intros [H|H]; auto.
Qed.

Lemma erase_sorted m k : StdMap.sorted m -> StdMap.sorted (StdMap.erase k m).
Proof.
  induction 1 as [|k0 v0 r Hlt Hs IH]; simpl; [constructor|].
  destruct (String.eqb k k0); [assumption|].
  constructor; [|assumption]. intros k' v' Hin. apply In_erase in Hin. eauto.
Qed.

Lemma find_erase m k k' :
  StdMap.sorted m ->
  StdMap.find k' (StdMap.erase k m) =
  if String.eqb k' k then None else StdMap.find k' m.
Proof.
  induction 1 as [|k0 v0 r Hlt Hs IH]; simpl.
  - now destruct (String.eqb k' k).
  - destruct (String.eqb_spec k k0) as [->|Hne].
    + destruct (String.eqb_spec k' k0) as [->|Hne']; [|reflexivity].
      destruct (StdMap.find k0 r) eqn:F; [|reflexivity].
      apply find_In, Hlt, key_lt_neq in F. congruence.
    + simpl. rewrite IH.
      destruct (String.eqb_spec k' k0) as [->|Hne0]; [|reflexivity].
      apply not_eq_sym, String.eqb_neq in Hne. now rewrite Hne.
Qed.

(** What [find] and [erase] do to the sequence of entries. *)
Lemma find_split m k v :
  StdMap.find k m = Some v ->
  exists l1 l2, m = (l1 ++ (k, v) :: l2)%list /\ StdMap.erase k m = (l1 ++ l2)%list.
Proof.
  induction m as [|[k0 v0] r IH]; simpl; [discriminate|].
  destruct (String.eqb_spec k k0) as [->|Hne].
  - intros [= ->]. now exists [], r.
  - intros F. destruct (IH F) as (l1 & l2 & -> & E).
    exists ((k0, v0) :: l1), l2. simpl. now rewrite E.
Qed.

End StdMapFacts.

(** ** A loaded catalog is well-formed *)

Lemma In_assign {V : Type} (m : StdMap.t V) k v k' v' :
  In (k', v') (StdMap.assign k v m) -> k' = k \/ In (k', v') m.
Proof.
  induction m as [|[k0 v0] r IH]; simpl.
  - intros [[= <- <-]|[]]. now left.
  - destruct (String.compare k k0) eqn:E; simpl.
    + apply String.compare_eq_iff in E. subst k0.
      intros [[= <- <-]|H]; [now left|right; now right].
    + intros [[= <- <-]|H]; [now left|now right].
    + intros [H|H]; [right; now left|]. apply IH in H. tauto.
Qed.

Lemma assign_sorted {V : Type} (m : StdMap.t V) k v :
  StdMap.sorted m -> StdMap.sorted (StdMap.assign k v m).
Proof.
  induction 1 as [|k0 v0 r Hlt Hs IH]; simpl.
  - constructor; [intros ? ? []|constructor].
  - destruct (String.compare k k0) eqn:E.
    + now constructor.
    + constructor; [|now constructor].
      intros k' v' [[= <- <-]|Hin]; [exact E|].
      eapply key_lt_trans; [exact E | eauto].
    + constructor; [|exact IH].
      intros k' v' Hin. apply In_assign in Hin as [->|Hin]; [|eauto].
      now apply compare_Gt_lt.
Qed.

Lemma fromJSON_map_sorted {T : Type} (elem : Value -> T -> Path -> Loaded T)
    (fresh : T) E out P :
  StdMap.sorted out -> StdMap.sorted (fst (fromJSON_map elem fresh E out P)).
Proof.
  intros Hout.
  assert (H : forall kvs acc, StdMap.sorted acc ->
            StdMap.sorted (fst (fromJSON_entries elem fresh kvs acc P))).
  { induction kvs as [|[k v] r IH]; intros acc Hs; simpl; [exact Hs|].
    destruct (elem v _ _) as [x [err|]]; simpl.
    - now apply assign_sorted.
    - apply IH. now apply assign_sorted. }
  destruct E; simpl; try exact Hout. apply H. constructor.
Qed.

Lemma loadKey_map_sorted {T : Type} (elem : Value -> T -> Path -> Loaded T)
    (fresh : T) v out P :
  StdMap.sorted out ->
  StdMap.sorted (fst (loadKey (fromJSON_map elem fresh) v out P)).
Proof.
  intros Hout. destruct v; simpl; [|exact Hout]. now apply fromJSON_map_sorted.
Qed.

(** Whatever the loader leaves in the catalog, complete or not, its
    three maps are well-formed. *)
Lemma fromJSON_Declarations_wellFormed E out P :
  wellFormedCatalog out ->
  wellFormedCatalog (fst (fromJSON_Declarations E out P)).
Proof.
  intros (Wf & Ws & Wv). unfold fromJSON_Declarations.
  destruct E; try (repeat split; assumption).
  pose proof (loadKey_map_sorted fromJSON_FuncDecl emptyFuncDecl
                (getProperty "functions" l) (functions out) P Wf) as H1.
  destruct (loadKey (fromJSON_map fromJSON_FuncDecl emptyFuncDecl) _ _ _) as [fs [e|]];
    simpl in H1; [repeat split; assumption|].
  pose proof (loadKey_map_sorted fromJSON_ParamMap []
                (getProperty "structs" l) (structs out) P Ws) as H2.
  cbn [structs functions unnamedFunctions unnamedStructs varStructs].
  destruct (loadKey (fromJSON_map fromJSON_ParamMap []) (getProperty "structs" l) _ _)
    as [ss [e|]]; simpl in H2; [repeat split; assumption|].
  destruct (loadKey (fromJSON_vector fromJSON_FuncDecl emptyFuncDecl) _ _ _)
    as [ufs [e|]]; [repeat split; assumption|].
  cbn [structs functions unnamedFunctions unnamedStructs varStructs].
  destruct (loadKey (fromJSON_vector fromJSON_ParamMap []) _ _ _)
    as [uss [e|]]; [repeat split; assumption|].
  cbn [structs functions unnamedFunctions unnamedStructs varStructs].
  pose proof (loadKey_map_sorted fromJSON_ParamMap []
                (getProperty "%structs" l) (varStructs out) P Wv) as H3.
  destruct (loadKey (fromJSON_map fromJSON_ParamMap []) (getProperty "%structs" l) _ _)
    as [vs e]; simpl in H3. repeat split; assumption.
Qed.

(** ** Observation *)

Lemma check_wellFormed r st : wellFormed st -> wellFormed (check r st).
Proof.
  intros (H1 & H2 & H3 & H4).
  destruct r as [d|d|d]; simpl.
  - unfold checkFun. destruct (String.eqb (fd_name d) "main");
      repeat split; simpl; auto using insert_sorted.
  - repeat split; simpl; auto using insert_sorted.
  - unfold checkTypedef. destruct (td_record d);
      repeat split; simpl; auto using insert_sorted.
Qed.

Lemma observe_wellFormed nodes st : wellFormed st -> wellFormed (observe nodes st).
Proof.
  revert st. induction nodes as [|r rest IH]; intros st H; [exact H|].
  apply IH, check_wellFormed, H.
Qed.

Lemma nothingFound_wellFormed : wellFormed nothingFound.
Proof. repeat split; constructor. Qed.

(** An entry present before a visit is still the one found after it,
    and an absent one is filled by the first declaration of that name. *)
Lemma observe_foundFuncs nodes : forall st n,
  wellFormed st ->
  StdMap.find n (foundFuncs (observe nodes st)) =
  match StdMap.find n (foundFuncs st) with
  | Some old => Some old
  | None =>
      if String.eqb n "main" then None
      else option_map signatureOf (hd_error (functionsNamed n nodes))
  end.
Proof.
  induction nodes as [|r rest IH]; intros st n W.
  - simpl. destruct (StdMap.find n (foundFuncs st)); [reflexivity|].
    now destruct (String.eqb n "main").
  - change (observe (r :: rest) st) with (observe rest (check r st)).
    rewrite IH by now apply check_wellFormed.
    destruct W as (W1 & _).
    destruct r as [d|d|d]; simpl.
    + unfold checkFun.
      destruct (String.eqb_spec (fd_name d) "main") as [Em|Nm].
      * destruct (StdMap.find n (foundFuncs st)); [reflexivity|].
        destruct (String.eqb_spec n "main") as [->|Nn]; [reflexivity|].
        destruct (String.eqb_spec (fd_name d) n) as [E|_]; [congruence|reflexivity].
      * simpl. rewrite find_insert by assumption.
        destruct (String.eqb_spec n (fd_name d)) as [->|Nn].
        -- rewrite String.eqb_refl.
           destruct (StdMap.find (fd_name d) (foundFuncs st)); [reflexivity|].
           apply String.eqb_neq in Nm. now rewrite Nm.
        -- destruct (String.eqb_spec (fd_name d) n) as [E|_]; [congruence|].
           reflexivity.
    + reflexivity.
    + unfold checkTypedef. now destruct (td_record d).
Qed.

Lemma observe_funcLocMap nodes : forall st n,
  wellFormed st ->
  StdMap.find n (funcLocMap (observe nodes st)) =
  match StdMap.find n (funcLocMap st) with
  | Some old => Some old
  | None =>
      if String.eqb n "main" then None
      else option_map fd_location (hd_error (functionsNamed n nodes))
  end.
Proof.
  induction nodes as [|r rest IH]; intros st n W.
  - simpl. destruct (StdMap.find n (funcLocMap st)); [reflexivity|].
    now destruct (String.eqb n "main").
  - change (observe (r :: rest) st) with (observe rest (check r st)).
    rewrite IH by now apply check_wellFormed.
    destruct W as (_ & W2 & _).
    destruct r as [d|d|d]; simpl.
    + unfold checkFun.
      destruct (String.eqb_spec (fd_name d) "main") as [Em|Nm].
      * destruct (StdMap.find n (funcLocMap st)); [reflexivity|].
        destruct (String.eqb_spec n "main") as [->|Nn]; [reflexivity|].
        destruct (String.eqb_spec (fd_name d) n) as [E|_]; [congruence|reflexivity].
      * simpl. rewrite find_insert by assumption.
        destruct (String.eqb_spec n (fd_name d)) as [->|Nn].
        -- rewrite String.eqb_refl.
           destruct (StdMap.find (fd_name d) (funcLocMap st)); [reflexivity|].
           apply String.eqb_neq in Nm. now rewrite Nm.
        -- destruct (String.eqb_spec (fd_name d) n) as [E|_]; [congruence|].
           reflexivity.
    + reflexivity.
    + unfold checkTypedef. now destruct (td_record d).
Qed.

Lemma observe_foundStructs nodes : forall st n,
  wellFormed st ->
  StdMap.find n (foundStructs (observe nodes st)) =
  match StdMap.find n (foundStructs st) with
  | Some old => Some old
  | None => option_map shapeOf (hd_error (recordsNamed n nodes))
  end.
Proof.
  induction nodes as [|r rest IH]; intros st n W.
  - simpl. now destruct (StdMap.find n (foundStructs st)).
  - change (observe (r :: rest) st) with (observe rest (check r st)).
    rewrite IH by now apply check_wellFormed.
    destruct W as (_ & _ & W3 & _).
    destruct r as [d|d|d]; simpl.
    + unfold checkFun. now destruct (String.eqb (fd_name d) "main").
    + rewrite find_insert by assumption.
      destruct (String.eqb_spec n (rd_name d)) as [->|Nn].
      * rewrite String.eqb_refl.
        now destruct (StdMap.find (rd_name d) (foundStructs st)).
      * destruct (String.eqb_spec (rd_name d) n) as [E|_]; [congruence|].
        reflexivity.
    + unfold checkTypedef. destruct (td_record d) as [rd|]; [|reflexivity].
      simpl. rewrite find_insert by assumption.
      destruct (String.eqb_spec n (td_name d)) as [->|Nn].
      * rewrite String.eqb_refl.
        now destruct (StdMap.find (td_name d) (foundStructs st)).
      * destruct (String.eqb_spec (td_name d) n) as [E|_]; [congruence|].
        reflexivity.
Qed.

(** C4, as stated, fails: of two declarations of [f] the map keeps the
    signature of the first one visited, not of the last. *)
Lemma observe_keeps_first_not_last :
  let first := mkFunctionDecl "f" ["int"] "void" 1 in
  let last := mkFunctionDecl "f" ["char"] "void" 2 in
  let st := observe [MatchedFun first; MatchedFun last] nothingFound in
  StdMap.find "f" (foundFuncs st) = Some (signatureOf first) /\
  StdMap.find "f" (foundFuncs st) <> Some (signatureOf last).
Proof. split; [reflexivity | discriminate]. Qed.

(** C4 (amended): after any sequence of observation calls the
    observed-functions map holds, for every name other than [main], the
    signature of the first function declaration of that name in traversal
    order, and the observed-records map holds the shape of the first
    record observed under that name: [insert] leaves an existing entry
    alone, so duplicate names are resolved first-write-wins. *)
Theorem observe_first_write_wins (nodes : list MatchResult) (n : string) :
  StdMap.find n (foundFuncs (observe nodes nothingFound)) =
    (if String.eqb n "main" then None
     else option_map signatureOf (hd_error (functionsNamed n nodes)))
  /\
  StdMap.find n (foundStructs (observe nodes nothingFound)) =
    option_map shapeOf (hd_error (recordsNamed n nodes)).
Proof.
  split.
  - now rewrite observe_foundFuncs by apply nothingFound_wellFormed.
  - now rewrite observe_foundStructs by apply nothingFound_wellFormed.
Qed.

(** ** The loop over the observed functions *)

Lemma flat_map_agree {A B : Type} (f g : A -> list B) (l : list A) :
  (forall a, In a l -> f a = g a) -> flat_map f l = flat_map g l.
Proof.
  induction l as [|a r IH]; intros H; simpl; [reflexivity|].
  rewrite H by now left. f_equal. apply IH. intros b Hb. apply H. now right.
Qed.

Lemma matchFuncs_spec locs found : forall funcs unnamed,
  StdMap.sorted found -> StdMap.sorted funcs ->
  let '((funcs', _), diags) := matchFuncs locs found (funcs, unnamed) in
  StdMap.sorted funcs' /\
  (forall n, StdMap.find n funcs' =
             match StdMap.find n found with
             | Some _ => None
             | None => StdMap.find n funcs
             end) /\
  diags = flat_map (mismatchOf locs funcs) found.
Proof.
  induction found as [|[k sig] rest IH]; intros funcs unnamed Sf Sm; simpl.
  - auto.
  - assert (Hrest : forall f, In f rest -> fst f <> k).
    { intros [k' v'] Hin. simpl. apply not_eq_sym, key_lt_neq.
      eapply sorted_head_lt; eassumption. }
    apply sorted_tail in Sf.
    unfold matchFun at 1. simpl.
    destruct (StdMap.find k funcs) as [e|] eqn:F.
    + specialize (IH (StdMap.erase k funcs) unnamed Sf (erase_sorted _ k Sm)).
      destruct (matchFuncs locs rest (StdMap.erase k funcs, unnamed))
        as [[funcs' unnamed'] d2].
      destruct IH as (S' & Hfind & Hd). split; [exact S'|]. split.
      * intros n. rewrite Hfind, find_erase by assumption.
        destruct (String.eqb_spec n k) as [->|Hne].
        -- now destruct (StdMap.find k rest).
        -- reflexivity.
      * unfold mismatchOf at 1. simpl. rewrite F. f_equal. rewrite Hd.
        apply flat_map_agree. intros f Hin. unfold mismatchOf.
        rewrite find_erase by assumption.
        apply Hrest, String.eqb_neq in Hin. now rewrite Hin.
    + specialize (IH funcs (eraseFirst FuncDecl_eq_dec sig unnamed) Sf Sm).
      destruct (matchFuncs locs rest (funcs, eraseFirst FuncDecl_eq_dec sig unnamed))
        as [[funcs' unnamed'] d2].
      destruct IH as (S' & Hfind & Hd). split; [exact S'|]. split.
      * intros n. rewrite Hfind.
        destruct (String.eqb_spec n k) as [->|Hne]; [|reflexivity].
        rewrite F. now destruct (StdMap.find k rest).
      * unfold mismatchOf at 1. simpl. rewrite F. exact Hd.
Qed.


(** ** The resolution loops *)

Section ResolveFacts.
Context {A : Type}.
Variable resolve : A -> Expected A.
Variable skipped : string.

(** The map a resolution loop builds, without the lines it writes. *)
Lemma resolveNamed_fst_from (m : StdMap.t A) : forall acc,
  fst (fold_left (resolveNamedStep resolve skipped) m acc) =
  fold_left
    (fun acc entry =>
       match resolve (snd entry) with
       | Ok r => StdMap.insert (fst entry) r acc
       | Err _ => acc
       end) m (fst acc).
Proof.
  induction m as [|entry rest IH]; intros acc; simpl; [reflexivity|].
  rewrite IH. unfold resolveNamedStep. now destruct (resolve (snd entry)).
Qed.

Lemma resolveNamed_fst (m : StdMap.t A) :
  fst (resolveNamed resolve skipped m) =
  fold_left
    (fun acc entry =>
       match resolve (snd entry) with
       | Ok r => StdMap.insert (fst entry) r acc
       | Err _ => acc
       end) m [].
Proof. apply resolveNamed_fst_from. Qed.

Lemma resolveNamed_sorted (m : StdMap.t A) :
  StdMap.sorted (fst (resolveNamed resolve skipped m)).
Proof.
  rewrite resolveNamed_fst.
  assert (H : forall acc, StdMap.sorted acc ->
            StdMap.sorted
              (fold_left
                 (fun acc entry =>
                    match resolve (snd entry) with
                    | Ok r => StdMap.insert (fst entry) r acc
                    | Err _ => acc
                    end) m acc)).
  { induction m as [|entry rest IH]; intros acc Hs; simpl; [exact Hs|].
    apply IH. destruct (resolve (snd entry)); auto using insert_sorted. }
  apply H. constructor.
Qed.

(** An entry that does not resolve leaves the resolved map as if the
    entry had not been in the catalog. *)
Lemma resolveNamed_drop (m : StdMap.t A) (n : string) (x : A) (e : Error) :
  StdMap.find n m = Some x -> resolve x = Err e ->
  fst (resolveNamed resolve skipped m) =
  fst (resolveNamed resolve skipped (StdMap.erase n m)).
Proof.
  intros F R. rewrite !resolveNamed_fst.
  destruct (find_split m n x F) as (l1 & l2 & -> & ->).
  rewrite !fold_left_app. simpl. now rewrite R.
Qed.

Lemma resolveNamed_lines_keep (m : StdMap.t A) (line : string) :
  forall acc, In line (snd acc) ->
  In line (snd (fold_left (resolveNamedStep resolve skipped) m acc)).
Proof.
  induction m as [|entry rest IH]; intros acc Hin; simpl; [exact Hin|].
  apply IH. unfold resolveNamedStep.
  destruct (resolve (snd entry)); simpl; [exact Hin|].
  apply in_or_app. now left.
Qed.

Lemma resolveNamed_warns_from (m : StdMap.t A) (n : string) (x : A) (e : Error) :
  forall acc, In (n, x) m -> resolve x = Err e ->
  In (showError e ++ skipped ++ n ++ nl)
     (snd (fold_left (resolveNamedStep resolve skipped) m acc)).
Proof.
  induction m as [|entry rest IH]; intros acc Hin R; [destruct Hin|].
  simpl. destruct Hin as [->|Hin]; [|now apply IH].
  apply resolveNamed_lines_keep. unfold resolveNamedStep. simpl. rewrite R.
  simpl. apply in_or_app. right. now left.
Qed.

(** ... and a line that names it is written. *)
Lemma resolveNamed_warns (m : StdMap.t A) (n : string) (x : A) (e : Error) :
  In (n, x) m -> resolve x = Err e ->
  In (showError e ++ skipped ++ n ++ nl) (snd (resolveNamed resolve skipped m)).
Proof. apply resolveNamed_warns_from. Qed.

Variable show : A -> string.

Lemma resolveUnnamed_fst_from (l : list A) : forall acc,
  fst (fold_left (resolveUnnamedStep resolve skipped show) l acc) =
  fold_left
    (fun acc entry =>
       match resolve entry with
       | Ok r => app acc [r]
       | Err _ => acc
       end) l (fst acc).
Proof.
  induction l as [|entry rest IH]; intros acc; simpl; [reflexivity|].
  rewrite IH. unfold resolveUnnamedStep. now destruct (resolve entry).
Qed.

Lemma resolveUnnamed_drop (l1 l2 : list A) (x : A) (e : Error) :
  resolve x = Err e ->
  fst (resolveUnnamed resolve skipped show (l1 ++ x :: l2)%list) =
  fst (resolveUnnamed resolve skipped show (l1 ++ l2)%list).
Proof.
  intros R. unfold resolveUnnamed. rewrite !resolveUnnamed_fst_from.
  rewrite !fold_left_app. simpl. now rewrite R.
Qed.

Lemma resolveUnnamed_lines_keep (l : list A) (line : string) :
  forall acc, In line (snd acc) ->
  In line (snd (fold_left (resolveUnnamedStep resolve skipped show) l acc)).
Proof.
  induction l as [|entry rest IH]; intros acc Hin; simpl; [exact Hin|].
  apply IH. unfold resolveUnnamedStep.
  destruct (resolve entry); simpl; [exact Hin|].
  apply in_or_app. now left.
Qed.

Lemma resolveUnnamed_warns_from (l : list A) (x : A) (e : Error) :
  forall acc, In x l -> resolve x = Err e ->
  In (showError e ++ skipped ++ show x ++ nl)
     (snd (fold_left (resolveUnnamedStep resolve skipped show) l acc)).
Proof.
  induction l as [|entry rest IH]; intros acc Hin R; [destruct Hin|].
  simpl. destruct Hin as [->|Hin]; [|now apply IH].
  apply resolveUnnamed_lines_keep. unfold resolveUnnamedStep. rewrite R.
  simpl. apply in_or_app. right. now left.
Qed.

Lemma resolveUnnamed_warns (l : list A) (x : A) (e : Error) :
  In x l -> resolve x = Err e ->
  In (showError e ++ skipped ++ show x ++ nl)
     (snd (resolveUnnamed resolve skipped show l)).
Proof. apply resolveUnnamed_warns_from. Qed.

End ResolveFacts.

(** The parts of [resolveDeclarations]. *)
Lemma resolveDeclarations_parts decls st :
  let varMap := fst (bindVars decls st) in
  let fs := resolveNamed (fun f => resolveFunction f varMap) ", skipped "
                         (functions decls) in
  let ss := resolveNamed (fun p => resolveParams p varMap) " skipped "
                         (structs decls) in
  let ufs := resolveUnnamed (fun f => resolveFunction f varMap) " skipped " pretty
                            (unnamedFunctions decls) in
  let uss := resolveUnnamed (fun p => resolveParams p varMap) " skipped "
                            prettyMapAsStruct (unnamedStructs decls) in
  let vs := resolveNamed (fun p => resolveParams p varMap) " skipped "
                         (varStructs decls) in
  resolveDeclarations decls st =
  (mkDeclarations (fst fs) (fst ss) (fst ufs) (fst uss) (fst vs),
   (snd (bindVars decls st) ++ snd fs ++ snd ss ++ snd ufs ++ snd uss ++ snd vs)%list).
Proof.
  unfold resolveDeclarations. destruct (bindVars decls st) as [varMap l0]. simpl.
  destruct (resolveNamed _ ", skipped " _) as [fs l1].
  destruct (resolveNamed _ " skipped " (structs decls)) as [ss l2].
  destruct (resolveUnnamed _ _ pretty _) as [ufs l3].
  destruct (resolveUnnamed _ _ prettyMapAsStruct _) as [uss l4].
  destruct (resolveNamed _ " skipped " (varStructs decls)) as [vs l5].
  reflexivity.
Qed.

Lemma matchAll_parts resolved st :
  let fm := matchFuncs (funcLocMap st) (foundFuncs st)
              (functions resolved, unnamedFunctions resolved) in
  let sm := matchStructs (funcLocMap st) (foundStructs st)
              (structs resolved, varStructs resolved, unnamedStructs resolved) in
  matchAll resolved st =
  (mkDeclarations (fst (fst fm)) (fst (fst (fst sm))) (snd (fst fm))
                  (snd (fst sm)) (snd (fst (fst sm))),
   (snd fm ++ snd sm)%list).
Proof.
  unfold matchAll.
  destruct (matchFuncs _ _ _) as [[funcs unnamedFuncs] d1].
  destruct (matchStructs _ _ _) as [[[structs varStructs] unnamedStructs] d2].
  reflexivity.
Qed.

Lemma onEndOfTranslationUnit_parts decls st :
  onEndOfTranslationUnit decls st =
  mkOutput (snd (matchAll (fst (resolveDeclarations decls st)) st))
           (snd (resolveDeclarations decls st) ++ report (leftover decls st))%list.
Proof.
  unfold onEndOfTranslationUnit, leftover.
  destruct (resolveDeclarations decls st) as [resolved lines]. simpl.
  now destruct (matchAll resolved st).
Qed.

(** ** The report and the loop over the observed records *)

Lemma section_In {A : Type} (title : string) (show : A -> string)
    (l : list A) (x : A) :
  In x l -> In (show x ++ nl) (section title show l).
Proof.
  intros Hin. unfold section. destruct l as [|y r]; [destruct Hin|].
  right. now apply (in_map (fun it => show it ++ nl)).
Qed.

Lemma report_names_function rest n f :
  In (n, f) (functions rest) -> In (n ++ nl) (report rest).
Proof.
  intros Hin. unfold report. simpl. apply in_or_app. left.
  now apply (section_In _ fst _ (n, f)).
Qed.

(** The loop over the records only ever removes expected entries. *)
Lemma matchStructs_subset locs found : forall structs vs us,
  let '((structs', vs', _), _) := matchStructs locs found (structs, vs, us) in
  (forall x, In x structs' -> In x structs) /\ (forall x, In x vs' -> In x vs).
Proof.
  induction found as [|record rest IH]; intros structs vs us; simpl; [auto|].
  destruct (StdMap.find (fst record) structs) as [e|].
  - specialize (IH (StdMap.erase (fst record) structs) vs us).
    destruct (matchStructs locs rest _) as [[[s' v'] u'] d2].
    destruct IH as (H1 & H2). split; [|exact H2].
    intros [k v] Hin. eapply In_erase, H1, Hin.
  - destruct (findVarRec (snd record) vs) as [pm|].
    + specialize (IH structs (StdMap.erase (fst pm) vs) us).
      destruct (matchStructs locs rest _) as [[[s' v'] u'] d2].
      destruct IH as (H1 & H2). split; [exact H1|].
      intros [k v] Hin. eapply In_erase, H2, Hin.
    + specialize (IH structs vs (eraseFirst ParamMap_eq_dec (snd record) us)).
      now destruct (matchStructs locs rest _) as [[[s' v'] u'] d2].
Qed.

(** ** [main] *)

Lemma check_main_noop d st :
  fd_name d = "main" -> check (MatchedFun d) st = st.
Proof. intros E. simpl. unfold checkFun. now rewrite E. Qed.

Lemma observe_without_main nodes : forall st,
  observe nodes st = observe (filter (fun r => negb (isMainFunction r)) nodes) st.
Proof.
  induction nodes as [|r rest IH]; intros st; [reflexivity|].
  change (observe (r :: rest) st) with (observe rest (check r st)).
  simpl. destruct (isMainFunction r) eqn:E; simpl.
  - destruct r as [d|d|d]; try discriminate. simpl in E.
    apply String.eqb_eq in E. rewrite (check_main_noop d st E). apply IH.
  - apply IH.
Qed.

(** C8: a function named [main] is excluded from observation, so the
    run is the one of the same visit without the [main] functions and no
    diagnostic stems from it; and an expected entry named [main] that
    matching starts with is left over and listed as missing. *)
Theorem main_never_checked (decls : Declarations) (nodes : list MatchResult) :
  let st := observe nodes nothingFound in
  StdMap.find "main" (foundFuncs st) = None /\
  (forall d st0, fd_name d = "main" -> check (MatchedFun d) st0 = st0) /\
  onEndOfTranslationUnit decls st =
    onEndOfTranslationUnit decls
      (observe (filter (fun r => negb (isMainFunction r)) nodes) nothingFound) /\
  (forall expected,
     StdMap.find "main" (functions (fst (resolveDeclarations decls st)))
       = Some expected ->
     StdMap.find "main" (functions (leftover decls st)) = Some expected /\
     In ("main" ++ nl) (errs (onEndOfTranslationUnit decls st))).
Proof.
  intros st.
  assert (Hmain : StdMap.find "main" (foundFuncs st) = None).
  { unfold st. now rewrite observe_foundFuncs by apply nothingFound_wellFormed. }
  split; [exact Hmain|]. split; [intros d st0; apply check_main_noop|].
  split; [unfold st; now rewrite <- observe_without_main|].
  intros expected Hexp.
  assert (Hleft : StdMap.find "main" (functions (leftover decls st)) = Some expected).
  { unfold leftover. rewrite matchAll_parts. simpl.
    pose proof (observe_wellFormed nodes _ nothingFound_wellFormed) as (W1 & _).
    fold st in W1.
    assert (Hs : StdMap.sorted (functions (fst (resolveDeclarations decls st)))).
    { rewrite resolveDeclarations_parts. simpl. apply resolveNamed_sorted. }
    pose proof (matchFuncs_spec (funcLocMap st) (foundFuncs st) _
                  (unnamedFunctions (fst (resolveDeclarations decls st))) W1 Hs) as H.
    destruct (matchFuncs _ _ _) as [[funcs' unnamed'] diags]. simpl.
    destruct H as (_ & Hfind & _). now rewrite Hfind, Hmain. }
  split; [exact Hleft|].
  rewrite onEndOfTranslationUnit_parts. cbn [errs]. apply in_or_app. right.
  apply (report_names_function _ "main" expected), find_In, Hleft.
Qed.

(** ** Unbound placeholders *)

Lemma resolveVar_unbound s varMap :
  unboundRef s varMap -> exists e, resolveVar s varMap = Err e.
Proof.
  intros (ty & P & V & F). unfold resolveVar. rewrite P, V, F. simpl. eauto.
Qed.

Lemma resolveParamsLoop_unbound params varMap :
  unboundParams params varMap ->
  forall ret, exists e, resolveParamsLoop params varMap ret = Err e.
Proof.
  intros (key & count & Hin & U).
  induction params as [|it rest IH]; intros ret; [destruct Hin|].
  simpl. destruct (parseType (fst it)) as [ty|e]; [|eauto].
  destruct (resolveVar (fst it) varMap) as [var|e] eqn:R; [|eauto].
  destruct Hin as [->|Hin]; [|now apply IH].
  simpl in R. destruct (resolveVar_unbound _ _ U) as (e & E). congruence.
Qed.

Lemma resolveParams_unbound p varMap :
  unboundParams p varMap -> exists e, resolveParams p varMap = Err e.
Proof. intros U. now apply resolveParamsLoop_unbound. Qed.

Lemma resolveFunction_unbound f varMap :
  unboundFunction f varMap -> exists e, resolveFunction f varMap = Err e.
Proof.
  intros [U|U]; unfold resolveFunction.
  - destruct (resolveParams_unbound _ _ U) as (e & ->). eauto.
  - destruct (resolveParams (pMap f) varMap); [|eauto].
    destruct (resolveVar_unbound _ _ U) as (e & ->). eauto.
Qed.

(** A name found in a resolved map belongs to an entry that resolved. *)
Lemma resolveNamed_find {A : Type} (resolve : A -> Expected A) skipped
    (m : StdMap.t A) n r :
  StdMap.find n (fst (resolveNamed resolve skipped m)) = Some r ->
  exists x, In (n, x) m /\ resolve x = Ok r.
Proof.
  rewrite resolveNamed_fst.
  assert (H : forall acc, StdMap.sorted acc ->
     StdMap.find n (fold_left
        (fun acc entry =>
           match resolve (snd entry) with
           | Ok r => StdMap.insert (fst entry) r acc
           | Err _ => acc
           end) m acc) = Some r ->
     StdMap.find n acc = Some r \/ exists x, In (n, x) m /\ resolve x = Ok r).
  { induction m as [|[k x] rest IH]; intros acc Hs F; simpl in F; [now left|].
    apply IH in F.
    - destruct F as [F|(y & Hin & R)]; [|right; exists y; split; [now right|exact R]].
      destruct (resolve x) as [rx|e] eqn:R; [|now left].
      rewrite find_insert in F by assumption.
      destruct (String.eqb_spec n k) as [->|Hne]; [|now left].
      destruct (StdMap.find k acc) as [old|]; [now left|].
      injection F as <-. right. exists x. split; [now left|exact R].
    - destruct (resolve x); auto using insert_sorted. }
  intros F. apply H in F; [|constructor]. destruct F as [F|F]; [discriminate|exact F].
Qed.

Lemma resolveNamed_find_unresolved {A : Type} (resolve : A -> Expected A) skipped
    (m : StdMap.t A) n x e :
  StdMap.sorted m -> StdMap.find n m = Some x -> resolve x = Err e ->
  StdMap.find n (fst (resolveNamed resolve skipped m)) = None.
Proof.
  intros Hs F R.
  destruct (StdMap.find n (fst (resolveNamed resolve skipped m))) as [r|] eqn:E;
    [|reflexivity].
  apply resolveNamed_find in E as (y & Hin & Ry).
  apply In_find in Hin; [|assumption]. congruence.
Qed.

Lemma bindVars_withFunctions fs decls st :
  bindVars (withFunctions fs decls) st = bindVars decls st.
Proof. reflexivity. Qed.

Lemma find_None_of_subset {V : Type} (m m' : StdMap.t V) n :
  (forall x, In x m' -> In x m) -> StdMap.find n m = None ->
  StdMap.find n m' = None.
Proof.
  intros Hsub F. destruct (StdMap.find n m') as [v|] eqn:E; [|reflexivity].
  apply find_In, Hsub in E. now apply find_None_notin in E.
Qed.

Lemma matchFuncs_subset locs found : forall funcs unnamed,
  forall x, In x (fst (fst (matchFuncs locs found (funcs, unnamed)))) -> In x funcs.
Proof.
  induction found as [|func rest IH]; intros funcs unnamed x; simpl; [auto|].
  unfold matchFun. simpl.
  destruct (StdMap.find (fst func) funcs) as [e|].
  - specialize (IH (StdMap.erase (fst func) funcs) unnamed x).
    destruct (matchFuncs locs rest _) as [[f' u'] d2]. simpl in *.
    intros Hin. destruct x as [k v]. eapply In_erase, IH, Hin.
  - specialize (IH funcs (eraseFirst FuncDecl_eq_dec (snd func) unnamed) x).
    now destruct (matchFuncs locs rest _) as [[f' u'] d2].
Qed.

Lemma leftover_subset decls st :
  let resolved := fst (resolveDeclarations decls st) in
  (forall x, In x (functions (leftover decls st)) -> In x (functions resolved)) /\
  (forall x, In x (structs (leftover decls st)) -> In x (structs resolved)) /\
  (forall x, In x (varStructs (leftover decls st)) -> In x (varStructs resolved)).
Proof.
  intros resolved. unfold leftover. fold resolved. rewrite matchAll_parts.
  cbn [fst functions structs varStructs].
  pose proof (matchStructs_subset (funcLocMap st) (foundStructs st)
                (structs resolved) (varStructs resolved) (unnamedStructs resolved)) as H.
  destruct (matchStructs _ _ _) as [[[s' v'] u'] d2]. cbn [fst snd].
  destruct H as (H1 & H2). split; [|split; assumption].
  apply matchFuncs_subset.
Qed.

Lemma checked_same decls decls' st :
  fst (resolveDeclarations decls st) = fst (resolveDeclarations decls' st) ->
  checked decls st = checked decls' st.
Proof. unfold checked. now intros ->. Qed.

Lemma lines_of_resolution decls st line :
  In line (snd (resolveDeclarations decls st)) ->
  In line (errs (onEndOfTranslationUnit decls st)).
Proof.
  intros H. rewrite onEndOfTranslationUnit_parts. cbn [errs].
  apply in_or_app. now left.
Qed.

(** C7: an expected declaration with a placeholder reference that has no
    binding does not stop the pass.  A line that names it (a named
    function, record or placeholder record by name, an unnamed one by its
    printed form) is written, it is absent from what is left over for the
    missing report, and for the functions and records of the catalog the
    entries left over and the diagnostics are those of the catalog without
    it: every other declaration is resolved and checked as before. *)
Theorem unbound_placeholder_is_dropped (decls : Declarations) (st : Found)
    (Hwf : wellFormedCatalog decls) :
  let varMap := fst (bindVars decls st) in
  let lines := errs (onEndOfTranslationUnit decls st) in
  (forall n f,
     StdMap.find n (functions decls) = Some f -> unboundFunction f varMap ->
     (exists e, In (showError e ++ ", skipped " ++ n ++ nl) lines) /\
     StdMap.find n (functions (leftover decls st)) = None /\
     checked decls st =
       checked (withFunctions (StdMap.erase n (functions decls)) decls) st) /\
  (forall n p,
     StdMap.find n (structs decls) = Some p -> unboundParams p varMap ->
     (exists e, In (showError e ++ " skipped " ++ n ++ nl) lines) /\
     StdMap.find n (structs (leftover decls st)) = None /\
     checked decls st =
       checked (withStructs (StdMap.erase n (structs decls)) decls) st) /\
  (forall l1 f l2,
     unnamedFunctions decls = (l1 ++ f :: l2)%list -> unboundFunction f varMap ->
     (exists e, In (showError e ++ " skipped " ++ pretty f ++ nl) lines) /\
     checked decls st = checked (withUnnamedFunctions (l1 ++ l2) decls) st) /\
  (forall l1 p l2,
     unnamedStructs decls = (l1 ++ p :: l2)%list -> unboundParams p varMap ->
     (exists e, In (showError e ++ " skipped " ++ prettyMapAsStruct p ++ nl) lines) /\
     checked decls st = checked (withUnnamedStructs (l1 ++ l2) decls) st) /\
  (forall n p,
     StdMap.find n (varStructs decls) = Some p -> unboundParams p varMap ->
     (exists e, In (showError e ++ " skipped " ++ n ++ nl) lines) /\
     StdMap.find n (varStructs (leftover decls st)) = None).
Proof.
  intros varMap lines. destruct Hwf as (Wf & Ws & Wv).
  pose proof (resolveDeclarations_parts decls st) as Hres. cbv zeta in Hres.
  fold varMap in Hres.
  destruct (leftover_subset decls st) as (Lf & Ls & Lv).
  rewrite Hres in Lf, Ls, Lv. cbn [fst functions structs varStructs] in Lf, Ls, Lv.
  split; [|split; [|split; [|split]]].
  - intros n f F U. destruct (resolveFunction_unbound _ _ U) as (e & R).
    split; [|split].
    + exists e. apply lines_of_resolution. rewrite Hres. cbn [snd].
      apply in_or_app. right. apply in_or_app. left.
      apply (resolveNamed_warns (fun f => resolveFunction f varMap) ", skipped "
               (functions decls) n f e); [now apply find_In|exact R].
    + eapply find_None_of_subset; [exact Lf|].
      eapply resolveNamed_find_unresolved; eassumption.
    + apply checked_same. rewrite Hres, resolveDeclarations_parts. cbn [fst].
      cbn [withFunctions functions structs unnamedFunctions unnamedStructs varStructs].
      rewrite bindVars_withFunctions. fold varMap. f_equal.
      eapply resolveNamed_drop; eassumption.
  - intros n p F U. destruct (resolveParams_unbound _ _ U) as (e & R).
    split; [|split].
    + exists e. apply lines_of_resolution. rewrite Hres. cbn [snd].
      apply in_or_app. right. apply in_or_app. right. apply in_or_app. left.
      apply (resolveNamed_warns (fun p => resolveParams p varMap) " skipped "
               (structs decls) n p e); [now apply find_In|exact R].
    + eapply find_None_of_subset; [exact Ls|].
      eapply resolveNamed_find_unresolved; eassumption.
    + apply checked_same. rewrite Hres, resolveDeclarations_parts. cbn [fst].
      cbn [withStructs functions structs unnamedFunctions unnamedStructs varStructs].
      change (bindVars (withStructs _ decls) st) with (bindVars decls st).
      fold varMap. f_equal.
      eapply resolveNamed_drop; eassumption.
  - intros l1 f l2 E U. destruct (resolveFunction_unbound _ _ U) as (e & R).
    split.
    + exists e. apply lines_of_resolution. rewrite Hres. cbn [snd].
      do 3 (apply in_or_app; right). apply in_or_app. left.
      apply (resolveUnnamed_warns (fun f => resolveFunction f varMap) " skipped "
               pretty (unnamedFunctions decls) f e); [|exact R].
      rewrite E. apply in_or_app. right. now left.
    + apply checked_same. rewrite Hres, resolveDeclarations_parts. cbn [fst].
      cbn [withUnnamedFunctions functions structs unnamedFunctions unnamedStructs varStructs].
      change (bindVars (withUnnamedFunctions _ decls) st) with (bindVars decls st).
      fold varMap. f_equal. rewrite E.
      eapply resolveUnnamed_drop; eassumption.
  - intros l1 p l2 E U. destruct (resolveParams_unbound _ _ U) as (e & R).
    split.
    + exists e. apply lines_of_resolution. rewrite Hres. cbn [snd].
      do 4 (apply in_or_app; right). apply in_or_app. left.
      apply (resolveUnnamed_warns (fun p => resolveParams p varMap) " skipped "
               prettyMapAsStruct (unnamedStructs decls) p e); [|exact R].
      rewrite E. apply in_or_app. right. now left.
    + apply checked_same. rewrite Hres, resolveDeclarations_parts. cbn [fst].
      cbn [withUnnamedStructs functions structs unnamedFunctions unnamedStructs varStructs].
      change (bindVars (withUnnamedStructs _ decls) st) with (bindVars decls st).
      fold varMap. f_equal. rewrite E.
      eapply resolveUnnamed_drop; eassumption.
  - intros n p F U. destruct (resolveParams_unbound _ _ U) as (e & R).
    split.
    + exists e. apply lines_of_resolution. rewrite Hres. cbn [snd].
      do 5 (apply in_or_app; right).
      apply (resolveNamed_warns (fun p => resolveParams p varMap) " skipped "
               (varStructs decls) n p e); [now apply find_In|exact R].
    + eapply find_None_of_subset; [exact Lv|].
      eapply resolveNamed_find_unresolved; eassumption.
Qed.

(** ** Binding placeholders *)

Lemma fold_left_inv {A B : Type} (f : A -> B -> A) (P : A -> Prop) (l : list B) :
  (forall a x, In x l -> P a -> P (f a x)) ->
  forall a, P a -> P (fold_left f l a).
Proof.
  induction l as [|y r IH]; intros Hstep a Ha; simpl; [exact Ha|].
  apply IH.
  - intros a' x Hin. apply Hstep. now right.
  - apply Hstep; [now left|exact Ha].
Qed.

Lemma fold_left_reach {A B : Type} (f : A -> B -> A) (I Q : A -> Prop)
    (l : list B) (x : B) :
  In x l ->
  (forall a y, I a -> I (f a y)) ->
  (forall a, I a -> Q (f a x)) ->
  (forall a y, I a -> Q a -> Q (f a y)) ->
  forall a, I a -> Q (fold_left f l a).
Proof.
  intros Hin HI Hx Hkeep.
  induction l as [|y r IH]; intros a Ia; [destruct Hin|].
  simpl. destruct Hin as [->|Hin].
  - apply (fold_left_inv f (fun a => I a /\ Q a)); [|split; auto].
    intros a' y' _ [Ia' Qa']. split; auto.
  - apply IH; auto.
Qed.

Lemma associateVar_fst var target varMap :
  fst (associateVar var target varMap) =
  match templateName var with
  | Some id => StdMap.insert id target varMap
  | None => varMap
  end.
Proof.
  unfold associateVar, templateName.
  destruct (parseType var) as [ty|e]; [|reflexivity].
  destruct (isVar ty); [reflexivity|].
  now destruct (0 <? pointers ty)%Z.
Qed.

Lemma bindOne_fst var acc found :
  fst (bindOne var acc found) =
  if ParamMap_eq_dec (snd var) (snd found)
  then match templateName (fst var) with
       | Some id => StdMap.insert id (fst found) (fst acc)
       | None => fst acc
       end
  else fst acc.
Proof.
  unfold bindOne. destruct (ParamMap_eq_dec (snd var) (snd found)); [|reflexivity].
  rewrite <- associateVar_fst.
  now destruct (associateVar (fst var) (fst found) (fst acc)).
Qed.

Lemma bindOne_sorted var acc found :
  StdMap.sorted (fst acc) -> StdMap.sorted (fst (bindOne var acc found)).
Proof.
  intros Hs. rewrite bindOne_fst.
  destruct (ParamMap_eq_dec _ _); [|exact Hs].
  destruct (templateName (fst var)); auto using insert_sorted.
Qed.

Lemma bindOne_keeps var acc found id target :
  StdMap.sorted (fst acc) ->
  StdMap.find id (fst acc) = Some target ->
  StdMap.find id (fst (bindOne var acc found)) = Some target.
Proof.
  intros Hs F. rewrite bindOne_fst.
  destruct (ParamMap_eq_dec _ _); [|exact F].
  destruct (templateName (fst var)) as [id'|]; [|exact F].
  rewrite find_insert by assumption.
  destruct (String.eqb_spec id id') as [<-|Hne]; [|exact F]. now rewrite F.
Qed.

Lemma bindVars_sorted decls st : StdMap.sorted (fst (bindVars decls st)).
Proof.
  unfold bindVars.
  apply (fold_left_inv _ (fun acc => StdMap.sorted (fst acc))); [|constructor].
  intros acc var _ Hs.
  apply (fold_left_inv _ (fun acc => StdMap.sorted (fst acc))); [|exact Hs].
  intros acc' found _. apply bindOne_sorted.
Qed.

(** Every template with a bindable name whose shape is that of an
    observed record gets its identifier bound. *)
Lemma bindVars_complete decls st var shape observed id :
  In (var, shape) (varStructs decls) ->
  In (observed, shape) (foundStructs st) ->
  templateName var = Some id ->
  exists target, StdMap.find id (fst (bindVars decls st)) = Some target.
Proof.
  intros Hv Ho Ht. unfold bindVars.
  apply (fold_left_reach _ (fun acc => StdMap.sorted (fst acc))
           (fun acc => exists target, StdMap.find id (fst acc) = Some target)
           _ (var, shape) Hv); [| | |constructor].
  - intros acc v Hs.
    apply (fold_left_inv _ (fun acc => StdMap.sorted (fst acc))); [|exact Hs].
    intros acc' found _. apply bindOne_sorted.
  - intros acc Hs.
    apply (fold_left_reach _ (fun acc => StdMap.sorted (fst acc))
             (fun acc => exists target, StdMap.find id (fst acc) = Some target)
             _ (observed, shape) Ho); [| | |exact Hs].
    + intros acc' found. apply bindOne_sorted.
    + intros acc' Hs'. rewrite bindOne_fst. simpl.
      destruct (ParamMap_eq_dec shape shape); [|congruence].
      rewrite Ht, find_insert, String.eqb_refl by assumption.
      destruct (StdMap.find id (fst acc')); eauto.
    + intros acc' found Hs' (target & F). exists target. now apply bindOne_keeps.
  - intros acc v Hs (target & F). exists target.
    apply (fold_left_inv (bindOne v)
             (fun acc => StdMap.sorted (fst acc) /\
                         StdMap.find id (fst acc) = Some target)
             (foundStructs st)); [|split; auto].
    intros acc' found _ [Hs' F']. split;
      [now apply bindOne_sorted | now apply bindOne_keeps].
Qed.

(** Every binding comes from such a template and such a record. *)
Lemma bindVars_sound decls st id target :
  StdMap.find id (fst (bindVars decls st)) = Some target ->
  exists var shape,
    In (var, shape) (varStructs decls) /\
    In (target, shape) (foundStructs st) /\
    templateName var = Some id.
Proof.
  set (P := fun acc : StdMap.t string * list string =>
    StdMap.sorted (fst acc) /\
    forall id target, StdMap.find id (fst acc) = Some target ->
      exists var shape,
        In (var, shape) (varStructs decls) /\
        In (target, shape) (foundStructs st) /\
        templateName var = Some id).
  assert (H : P (bindVars decls st)).
  { unfold bindVars. apply (fold_left_inv _ P).
    - intros acc [var shape] Hv Pacc.
      apply (fold_left_inv _ P); [|exact Pacc].
      intros acc' [observed oshape] Ho [Hs Hb]. split; [now apply bindOne_sorted|].
      intros id' target'. rewrite bindOne_fst. simpl.
      destruct (ParamMap_eq_dec shape oshape) as [->|]; [|apply Hb].
      destruct (templateName var) as [i|] eqn:Ht; [|apply Hb].
      rewrite find_insert by assumption.
      destruct (String.eqb_spec id' i) as [->|Hne]; [|apply Hb].
      destruct (StdMap.find i (fst acc')) as [old|] eqn:F.
      + intros [= <-]. now apply Hb.
      + intros [= <-]. exists var, oshape. auto.
    - split; [constructor|]. intros ? ? [=]. }
  intros F. now apply H.
Qed.

Lemma resolveVar_bound s ty varMap target :
  parseType s = Ok ty -> isVar ty = true ->
  StdMap.find (name ty) varMap = Some target ->
  resolveVar s varMap = Ok (toString (mkTypeInfo false target (pointers ty))).
Proof. intros P V F. unfold resolveVar. now rewrite P, V, F. Qed.

(** C2, as stated, fails: a template declared under the name [%T] is
    skipped as redundant, nothing is bound, and the function that refers
    to [%T] is dropped instead of being rewritten. *)
Lemma percent_template_is_not_bound :
  let decls := exampleTemplates "%T" in
  let st := observe exampleVisit nothingFound in
  parseType "%T" = Ok (mkTypeInfo true "T" 0) /\
  fst (bindVars decls st) = [] /\
  StdMap.find "f" (functions (fst (resolveDeclarations decls st))) = None.
Proof. repeat split. Qed.

(** ** Loading the configuration *)

(** C3, as stated, fails: with ["return"] missing from [functions.foo]
    [registerMatchers] returns instead of exiting, and the run finishes
    with the one line of the load error. *)
Lemma schema_violation_does_not_exit :
  registerMatchers "decl.json" (Json missingReturnConfig) noDeclarations =
    Returned (mkDeclarations [("foo", emptyFuncDecl)] [] [] [] []) []
      ["Declarations: expected property 'return' at Declarations.foo" ++ nl] /\
  runCheck "decl.json" (Json missingReturnConfig) exampleVisit =
    Finished (mkOutput []
      ["Declarations: expected property 'return' at Declarations.foo" ++ nl]).
Proof. split; reflexivity. Qed.

(** C3 (amended): a configuration that is well-formed JSON but violates
    the schema does not end the process: [registerMatchers] writes the
    path-qualified error to the error stream and returns without adding a
    matcher, so the run produces no diagnostic and no missing report; the
    process exits, with [EXIT_FAILURE], only when the file cannot be
    opened or is not JSON. *)
Theorem schema_violation_skips_matching :
  (forall DeclFile json nodes decls' err,
     DeclFile <> "" ->
     fromJSON_Declarations json noDeclarations [] = (decls', Some err) ->
     registerMatchers DeclFile (Json json) noDeclarations =
       Returned decls' [] ["Declarations: " ++ getError err ++ nl] /\
     runCheck DeclFile (Json json) nodes =
       Finished (mkOutput [] ["Declarations: " ++ getError err ++ nl])) /\
  (forall DeclFile file decls status lines,
     registerMatchers DeclFile file decls = ProcessExit status lines ->
     status = EXIT_FAILURE /\
     ((exists reason, file = Unreadable reason) \/ file = Malformed)).
Proof.
  split.
  - intros DeclFile json nodes decls' err Hne Hload.
    apply String.eqb_neq in Hne.
    unfold runCheck, registerMatchers. rewrite Hne. cbn [readJsonFile].
    now rewrite Hload.
  - intros DeclFile file decls status lines. unfold registerMatchers.
    destruct (String.eqb DeclFile ""); [discriminate|].
    destruct file as [reason| |v]; cbn [readJsonFile].
    + intros [= <- _]. split; [reflexivity|]. left. now exists reason.
    + intros [= <- _]. split; [reflexivity|]. now right.
    + destruct (fromJSON_Declarations v decls []) as [d [e|]]; discriminate.
Qed.

(** ** The overlap check *)




(** ** The type-token parser *)

Lemma isIdentStart_body c : isIdentStart c = true -> isIdentBody c = true.
Proof.
  unfold isIdentStart, isIdentBody, isAlphanumeric.
  destruct (isalpha c), (Ascii.eqb c "_"), (isDigit c); simpl; congruence.
Qed.

Lemma scanIdentifier_app id : forall after pos,
  allIdentBody id = true -> headIs isIdentBody after = false ->
  scanIdentifier (id ++ after) pos = (id, after, pos + String.length id).
Proof.
  induction id as [|c r IH]; intros after pos Hid Hafter;
    cbn [append scanIdentifier String.length].
  - rewrite Nat.add_0_r. destruct after as [|c r]; [reflexivity|].
    cbn [headIs] in Hafter. cbn [scanIdentifier]. now rewrite Hafter.
  - cbn [allIdentBody] in Hid. apply andb_true_iff in Hid as [Hc Hr].
    rewrite Hc, (IH after (S pos) Hr Hafter). f_equal. lia.
Qed.

Lemma skipSpaces_app n : forall after pos,
  headIs (fun c => Ascii.eqb c " ") after = false ->
  skipSpaces (spaces n ++ after) pos = (after, pos + n).
Proof.
  induction n as [|n IH]; intros after pos Hafter.
  - cbn [spaces repeat_char append]. rewrite Nat.add_0_r.
    destruct after as [|c r]; [reflexivity|].
    cbn [headIs] in Hafter. cbn [skipSpaces]. now rewrite Hafter.
  - change (spaces (S n) ++ after) with (String " " (spaces n ++ after)).
    cbn [skipSpaces]. change (Ascii.eqb " " " ") with true. cbv iota.
    rewrite (IH after (S pos) Hafter). f_equal. lia.
Qed.

Lemma int_wrap_small z : (0 <= z <= INT_MAX)%Z -> int_wrap z = z.
Proof.
  unfold int_wrap, INT_MAX. intros H.
  rewrite Z.mod_small by lia. lia.
Qed.

Lemma countAsterisks_app k : forall tail pos ptrs,
  headIs (fun c => Ascii.eqb c "*") tail = false ->
  (0 <= ptrs)%Z -> (ptrs + Z.of_nat k <= INT_MAX)%Z ->
  countAsterisks (asterisks k ++ tail) pos ptrs =
  match tail with
  | EmptyString => inr (ptrs + Z.of_nat k)%Z
  | String _ _ => inl (pos + k)
  end.
Proof.
  induction k as [|k IH]; intros tail pos ptrs Htail H0 Hmax.
  - cbn [asterisks repeat_char append Z.of_nat]. rewrite Nat.add_0_r, Z.add_0_r.
    destruct tail as [|c r]; [reflexivity|].
    cbn [headIs] in Htail. cbn [countAsterisks]. now rewrite Htail.
  - change (asterisks (S k) ++ tail) with (String "*" (asterisks k ++ tail)).
    cbn [countAsterisks]. change (Ascii.eqb "*" "*") with true. cbv iota.
    rewrite int_wrap_small by lia.
    rewrite IH by (auto; lia).
    destruct tail; [f_equal; lia | f_equal; lia].
Qed.

Lemma prefix_app p : forall s,
  String.prefix p s = true -> exists s', s = p ++ s'.
Proof.
  induction p as [|a p IH]; intros s H.
  - now exists s.
  - destruct s as [|b s]; [discriminate|]. simpl in H.
    destruct (ascii_dec a b) as [->|]; [|discriminate].
    destruct (IH s H) as (s' & ->). now exists s'.
Qed.

(** An identifier followed by something that cannot continue it starts
    with the literal [struct ] only when it is the word [struct] followed
    by a space. *)
Lemma no_struct_prefix id after :
  allIdentBody id = true -> headIs isIdentBody after = false ->
  id <> "struct" \/ headIs (fun c => Ascii.eqb c " ") after = false ->
  String.prefix structPrefix (id ++ after) = false.
Proof.
  intros Hid Hafter Hns.
  destruct (String.prefix structPrefix (id ++ after)) eqn:E; [|reflexivity].
  exfalso. apply prefix_app in E as (s' & E).
  pose proof (scanIdentifier_app id after 0 Hid Hafter) as Hscan.
  rewrite E in Hscan. cbn in Hscan.
  injection Hscan as Hi Ha _. subst id after.
  destruct Hns as [Hns|Hns]; [congruence|discriminate].
Qed.

Lemma spaces_asterisks_empty n k tail :
  spaces n ++ asterisks k ++ tail = "" -> n = 0 /\ k = 0 /\ tail = "".
Proof. destruct n, k, tail; simpl; try discriminate; auto. Qed.

(** What the parser makes of an identifier followed by [n] spaces, [k]
    asterisks and a rest that starts with neither. *)
Lemma parseAfterVar_shape s v id n k tail pos :
  validIdentifier id = true ->
  id <> "struct" \/ n = 0 ->
  (Z.of_nat k <= INT_MAX)%Z ->
  headIs (fun c => Ascii.eqb c "*") tail = false ->
  (k = 0 -> headIs (fun c => Ascii.eqb c " ") tail = false) ->
  (k = 0 -> n = 0 -> headIs isIdentBody tail = false) ->
  parseAfterVar s v (id ++ spaces n ++ asterisks k ++ tail) pos =
  match tail with
  | EmptyString =>
      match k, n with
      | 0, 0 => Ok (mkTypeInfo v id 0)
      | 0, S _ => Err (ParseTypeError s (pos + String.length id + n))
      | S _, _ => Ok (mkTypeInfo v id (Z.of_nat k))
      end
  | String _ _ => Err (ParseTypeError s (pos + String.length id + n + k))
  end.
Proof.
  intros Hid Hstruct Hk Hstar Hspace Hbody.
  assert (H2 : headIs (fun c => Ascii.eqb c " ") (asterisks k ++ tail) = false).
  { destruct k; [now apply Hspace | reflexivity]. }
  assert (H1 : headIs isIdentBody (spaces n ++ asterisks k ++ tail) = false).
  { destruct n; [|reflexivity]. destruct k; [now apply Hbody | reflexivity]. }
  destruct id as [|c r]; [discriminate|].
  cbn [validIdentifier] in Hid. apply andb_true_iff in Hid as [Hc Hr].
  assert (Hall : allIdentBody (String c r) = true).
  { cbn [allIdentBody]. now rewrite (isIdentStart_body c Hc), Hr. }
  unfold parseAfterVar.
  rewrite no_struct_prefix; [|exact Hall|exact H1|].
  2:{ destruct Hstruct as [Hs| ->]; [now left|right; exact H2]. }
  cbn [append]. rewrite Hc.
  rewrite (scanIdentifier_app r _ (S pos) Hr H1).
  destruct (spaces n ++ asterisks k ++ tail) as [|a0 s0] eqn:E.
  - apply spaces_asterisks_empty in E as (-> & -> & ->). reflexivity.
  - rewrite <- E. rewrite (skipSpaces_app n _ _ H2).
    destruct (asterisks k ++ tail) as [|a1 s1] eqn:E2.
    + destruct k, tail; try discriminate.
      destruct n; [discriminate|]. f_equal. f_equal. cbn [String.length]. lia.
    + rewrite <- E2.
      rewrite (countAsterisks_app k tail _ 0%Z Hstar) by lia.
      destruct tail.
      * destruct k; [discriminate|]. reflexivity.
      * f_equal. f_equal. cbn [String.length]. lia.
Qed.

Lemma parseType_shape v id n k tail :
  validIdentifier id = true ->
  id <> "struct" \/ n = 0 ->
  (Z.of_nat k <= INT_MAX)%Z ->
  headIs (fun c => Ascii.eqb c "*") tail = false ->
  (k = 0 -> headIs (fun c => Ascii.eqb c " ") tail = false) ->
  (k = 0 -> n = 0 -> headIs isIdentBody tail = false) ->
  let mark := if v : bool then "%" else "" in
  let s := mark ++ id ++ spaces n ++ asterisks k ++ tail in
  parseType s =
  match tail with
  | EmptyString =>
      match k, n with
      | 0, 0 => Ok (mkTypeInfo v id 0)
      | 0, S _ => Err (ParseTypeError s (String.length s))
      | S _, _ => Ok (mkTypeInfo v id (Z.of_nat k))
      end
  | String _ _ =>
      Err (ParseTypeError s (String.length mark + String.length id + n + k))
  end.
Proof.
  intros Hid Hstruct Hk Hstar Hspace Hbody mark s.
  assert (Hlen : forall a b, String.length (a ++ b) = String.length a + String.length b).
  { induction a; intros b; simpl; [reflexivity|]. now rewrite IHa. }
  assert (Hsp : forall m, String.length (spaces m) = m).
  { induction m; simpl; [reflexivity|]. now f_equal. }
  assert (Hast : forall m, String.length (asterisks m) = m).
  { induction m; simpl; [reflexivity|]. now f_equal. }
  assert (E : parseType s =
              parseAfterVar s v (id ++ spaces n ++ asterisks k ++ tail)
                            (String.length mark)).
  { unfold s, mark. destruct v.
    - reflexivity.
    - cbn [append String.length]. destruct id as [|c r]; [discriminate|].
      cbn [append parseType].
      cbn [validIdentifier] in Hid. apply andb_true_iff in Hid as [Hc _].
      destruct (Ascii.eqb_spec c "%") as [->|_]; [discriminate|reflexivity]. }
  rewrite E, parseAfterVar_shape by assumption.
  destruct tail; [|reflexivity].
  destruct k; [|reflexivity]. destruct n; [reflexivity|].
  f_equal. f_equal. unfold s. rewrite !Hlen, Hsp, Hast. simpl. lia.
Qed.


Lemma length_append a : forall b,
  String.length (a ++ b) = String.length a + String.length b.
Proof. induction a as [|x a IH]; intros b; simpl; [reflexivity|]. now rewrite IH. Qed.

Lemma length_repeat_char c n : String.length (repeat_char c n) = n.
Proof. induction n; simpl; [reflexivity|]. now f_equal. Qed.

Lemma append_assoc (a b c : string) : (a ++ b) ++ c = a ++ b ++ c.
Proof. induction a as [|x a IH]; simpl; [reflexivity|]. now rewrite IH. Qed.

Lemma append_empty (a : string) : a ++ "" = a.
Proof. induction a as [|x a IH]; simpl; [reflexivity|]. now rewrite IH. Qed.





(** The asterisk of ["struct *"] follows the keyword, not an identifier. *)
Lemma asterisk_after_keyword_is_refused :
  parseType "struct *" = Err (ParseTypeError "struct *" 7).
Proof. reflexivity. Qed.

(** C6, as stated, fails: [struct] is a valid identifier, and the
    rendering of a pointer to it starts with the literal the parser skips. *)
Lemma roundtrip_fails_on_struct :
  validIdentifier "struct" = true /\
  toString (mkTypeInfo false "struct" 1) = "struct *" /\
  parseType (toString (mkTypeInfo false "struct" 1)) =
    Err (ParseTypeError "struct *" 7).
Proof. repeat split. Qed.

(** C6 (amended): for every descriptor whose name is a valid identifier
    and whose pointer depth is a non-negative [int], and whose name is
    not the word [struct] unless the depth is zero, parsing the rendered
    form gives the descriptor back. *)
Theorem parse_toString_roundtrip (d : TypeInfo)
    (Hid : validIdentifier (name d) = true)
    (Hptr : (0 <= pointers d <= INT_MAX)%Z)
    (Hstruct : name d <> "struct" \/ pointers d = 0%Z) :
  parseType (toString d) = Ok d.
Proof.
  destruct d as [v id p]. cbn [name pointers isVar] in *. unfold toString.
  cbn [name pointers isVar].
  destruct (Z.ltb_spec 0 p) as [Hpos|Hzero].
  - pose proof (parseType_shape v id 1 (Z.to_nat p) "" Hid) as H.
    cbv zeta in H. rewrite append_empty in H.
    change (spaces 1 ++ asterisks (Z.to_nat p))
      with (" " ++ asterisks (Z.to_nat p)) in H.
    rewrite H; try reflexivity; try discriminate.
    + destruct (Z.to_nat p) eqn:E; [lia|]. rewrite <- E. f_equal. f_equal. lia.
    + destruct Hstruct as [Hs|Hs]; [now left|lia].
    + lia.
  - assert (p = 0%Z) as -> by lia.
    pose proof (parseType_shape v id 0 0 "" Hid) as H.
    cbv zeta in H. cbn [spaces asterisks repeat_char append] in H.
    rewrite append_empty in *.
    apply H; try reflexivity; try discriminate; auto.
Qed.

(** The placeholder [%T **] survives rendering and parsing. *)
Lemma parse_toString_roundtrip_witness :
  parseType (toString (mkTypeInfo true "T" 2)) = Ok (mkTypeInfo true "T" 2).
Proof.
  apply (parse_toString_roundtrip (mkTypeInfo true "T" 2)).
  - reflexivity.
  - unfold INT_MAX. simpl. lia.
  - left. discriminate.
Defined.

(** ** The statements at concrete inputs *)


(** [g] refers to the unbound [%U] and is dropped; [h] is still left over
    as missing when nothing is observed. *)
Lemma unbound_placeholder_witness :
  wellFormedCatalog unboundExample /\
  StdMap.find "g" (functions (leftover unboundExample nothingFound)) = None /\
  StdMap.find "h" (functions (leftover unboundExample nothingFound)) =
    Some (mkFuncDecl [("int", 1%Z)] "int").
Proof.
  assert (W : wellFormedCatalog unboundExample).
  { repeat split; sorted_by_computation. }
  split; [exact W|]. split; [|reflexivity].
  refine (proj1 (proj2 (proj1 (unbound_placeholder_is_dropped unboundExample nothingFound W)
                          "g" (mkFuncDecl [("%U", 1%Z)] "void") eq_refl _))).
  left. exists "%U", 1%Z. split; [now left|].
  exists (mkTypeInfo true "U" 0). repeat split.
Defined.

(** An expected [main] stays missing although [main] is visited. *)
Lemma main_never_checked_witness :
  In ("main" ++ nl)
     (errs (onEndOfTranslationUnit mainExpected (observe mainVisit nothingFound))) /\
  diagnostics (onEndOfTranslationUnit mainExpected (observe mainVisit nothingFound)) = [].
Proof.
  split; [|reflexivity].
  exact (proj2 (proj2 (proj2 (proj2 (main_never_checked mainExpected mainVisit)))
                  (mkFuncDecl [] "int") eq_refl)).
Defined.

(** The configuration without ["return"] ends the run with one line. *)
Lemma schema_violation_witness :
  runCheck "decl.json" (Json missingReturnConfig) exampleVisit =
  Finished (mkOutput []
    ["Declarations: " ++
     getError (mkPathError "expected property 'return'" [Field "foo"]) ++ nl]).
Proof.
  refine (proj2 (proj1 schema_violation_skips_matching "decl.json"
                   missingReturnConfig exampleVisit
                   (mkDeclarations [("foo", emptyFuncDecl)] [] [] [] [])
                   (mkPathError "expected property 'return'" [Field "foo"]) _ _)).
  - discriminate.
  - reflexivity.
Defined.


(** * Further properties *)

(** ** More facts about [StdMap] *)

Section StdMapMore.
Context {V : Type}.
Implicit Types (m : StdMap.t V) (k : string) (v : V).

Lemma key_lt_irrefl k : ~ StdMap.key_lt k k.
Proof. intros H. now apply key_lt_neq in H. Qed.

Lemma find_head_absent k v m :
  StdMap.sorted ((k, v) :: m) -> StdMap.find k m = None.
Proof.
  intros Hs. destruct (StdMap.find k m) as [x|] eqn:F; [|reflexivity].
  apply find_In in F. eapply sorted_head_lt in F; [|exact Hs].
  now apply key_lt_irrefl in F.
Qed.

Lemma find_assign m k v k' :
  StdMap.sorted m ->
  StdMap.find k' (StdMap.assign k v m) =
  if String.eqb k' k then Some v else StdMap.find k' m.
Proof.
  induction 1 as [|k0 v0 r Hlt Hs IH]; simpl.
  - destruct (String.eqb k' k); reflexivity.
  - destruct (String.compare k k0) eqn:E.
    + apply String.compare_eq_iff in E. subst k0. simpl.
      destruct (String.eqb k' k); reflexivity.
    + simpl. destruct (String.eqb_spec k' k) as [->|Hne]; reflexivity.
    + assert (Hk : k <> k0).
      { intros ->. apply compare_Gt_lt, key_lt_neq in E. congruence. }
      simpl. rewrite IH.
      destruct (String.eqb_spec k' k0) as [->|Hne0]; [|reflexivity].
      apply not_eq_sym, String.eqb_neq in Hk. now rewrite Hk.
Qed.

(** Two well-formed maps with the same lookups are the same map. *)
Lemma sorted_ext m : forall m',
  StdMap.sorted m -> StdMap.sorted m' ->
  (forall k, StdMap.find k m = StdMap.find k m') -> m = m'.
Proof.
  induction m as [|[k v] r IH]; intros [|[k' v'] r'] Hs Hs' Hf.
  - reflexivity.
  - specialize (Hf k'). simpl in Hf. rewrite String.eqb_refl in Hf. discriminate.
  - specialize (Hf k). simpl in Hf. rewrite String.eqb_refl in Hf. discriminate.
  - assert (Hk : k = k').
    { pose proof (Hf k) as H1. pose proof (Hf k') as H2. simpl in H1, H2.
      rewrite String.eqb_refl in H1, H2.
      destruct (String.eqb_spec k k') as [E|Hne]; [exact E|].
      destruct (String.eqb_spec k' k) as [E|_]; [now symmetry|].
      symmetry in H1. apply find_In in H1. apply find_In in H2.
      eapply sorted_head_lt in H1; [|exact Hs'].
      eapply sorted_head_lt in H2; [|exact Hs].
      exfalso. eapply key_lt_irrefl, key_lt_trans; eassumption. }
    subst k'.
    assert (Hv : v = v').
    { specialize (Hf k). simpl in Hf. rewrite String.eqb_refl in Hf. congruence. }
    subst v'. f_equal.
    apply IH; [eapply sorted_tail; eassumption..|].
    intros x. destruct (String.eqb_spec x k) as [->|Hne].
    + now rewrite (find_head_absent _ _ _ Hs), (find_head_absent _ _ _ Hs').
    + specialize (Hf x). simpl in Hf.
      apply String.eqb_neq in Hne. now rewrite Hne in Hf.
Qed.

(** [insert] on a key that is present changes nothing. *)
Lemma insert_present m k v old :
  StdMap.sorted m -> StdMap.find k m = Some old -> StdMap.insert k v m = m.
Proof.
  intros Hs F. apply sorted_ext; [now apply insert_sorted|exact Hs|].
  intros x. rewrite find_insert by assumption.
  destruct (String.eqb_spec x k) as [->|_]; [|reflexivity]. now rewrite F.
Qed.

(** [insert] of a key beyond the last one appends the entry. *)
Lemma insert_append m k v :
  StdMap.sorted (m ++ [(k, v)])%list -> StdMap.insert k v m = (m ++ [(k, v)])%list.
Proof.
  induction m as [|[k0 v0] r IH]; intros Hs; simpl; [reflexivity|].
  simpl in Hs.
  assert (Hlt : StdMap.key_lt k0 k).
  { eapply sorted_head_lt; [exact Hs|]. apply in_or_app. right. now left. }
  assert (E : String.compare k k0 = Gt).
  { rewrite String.compare_antisym. unfold StdMap.key_lt in Hlt. now rewrite Hlt. }
  rewrite E. f_equal. apply IH. eapply sorted_tail; eassumption.
Qed.

Lemma sorted_app_l (m1 m2 : StdMap.t V) :
  StdMap.sorted (m1 ++ m2)%list -> StdMap.sorted m1.
Proof.
  induction m1 as [|[k v] r IH]; intros Hs; [constructor|].
  simpl in Hs. constructor.
  - intros k' v' Hin. apply (sorted_head_lt k v (r ++ m2)%list k' v' Hs).
    apply in_or_app. left. exact Hin.
  - apply IH. eapply sorted_tail; eassumption.
Qed.

End StdMapMore.

(** ** Counting occurrences *)

Lemma int_wrap_add_l a b : int_wrap (int_wrap a + b) = int_wrap (a + b).
Proof.
  unfold int_wrap. f_equal.
  replace ((a + 2 ^ 31) mod 2 ^ 32 - 2 ^ 31 + b + 2 ^ 31)%Z
    with ((a + 2 ^ 31) mod 2 ^ 32 + b)%Z by lia.
  rewrite Zplus_mod_idemp_l. f_equal. lia.
Qed.

Lemma countOccurrences_from l : forall m x,
  StdMap.sorted m ->
  let m' := fold_left
              (fun m x => StdMap.assign x (int_wrap (countOf x m + 1)) m) l m in
  StdMap.sorted m' /\
  StdMap.find x m' =
    match count_occ string_dec l x with
    | O => StdMap.find x m
    | S n => Some (int_wrap (countOf x m + Z.of_nat (S n)))
    end.
Proof.
  induction l as [|y r IH]; intros m x Hs; [now split|].
  cbn [fold_left]. cbv zeta.
  set (m1 := StdMap.assign y (int_wrap (countOf y m + 1)) m).
  assert (Hs1 : StdMap.sorted m1) by now apply assign_sorted.
  destruct (IH m1 x Hs1) as [Hs' Hf]. split; [exact Hs'|].
  rewrite Hf. cbn [count_occ].
  assert (F1 : StdMap.find x m1 =
               if String.eqb x y then Some (int_wrap (countOf y m + 1))
               else StdMap.find x m).
  { unfold m1. now rewrite find_assign. }
  destruct (string_dec y x) as [->|Hne].
  - rewrite String.eqb_refl in F1.
    destruct (count_occ string_dec r x) as [|n].
    + rewrite F1. reflexivity.
    + unfold countOf at 1. rewrite F1. rewrite int_wrap_add_l. f_equal. f_equal. lia.
  - apply not_eq_sym, String.eqb_neq in Hne. rewrite Hne in F1.
    unfold countOf at 1. rewrite F1. fold (countOf x m).
    reflexivity.
Qed.

Lemma countOccurrences_sorted l : StdMap.sorted (countOccurrences l).
Proof. apply (countOccurrences_from l [] ""). constructor. Qed.

(** The map built from a range holds, for each element that occurs, the
    number of its occurrences as an [int], and nothing for any other. *)
Theorem countOccurrences_counts (l : list string) (x : string) :
  StdMap.find x (countOccurrences l) =
  match count_occ string_dec l x with
  | O => None
  | S n => Some (int_wrap (Z.of_nat (S n)))
  end.
Proof.
  destruct (countOccurrences_from l [] x) as [_ H]; [constructor|].
  unfold countOccurrences. rewrite H. reflexivity.
Qed.

Lemma count_occ_le_length (l : list string) x :
  count_occ string_dec l x <= List.length l.
Proof.
  induction l as [|y r IH]; simpl; [lia|]. destruct (string_dec y x); lia.
Qed.

(** Shapes are multisets: two ranges that fit an [int] give the same map
    exactly when one is a rearrangement of the other. *)
Theorem countOccurrences_multiset (l l' : list string)
    (Hl : (Z.of_nat (List.length l) <= INT_MAX)%Z)
    (Hl' : (Z.of_nat (List.length l') <= INT_MAX)%Z) :
  countOccurrences l = countOccurrences l' <-> Permutation l l'.
Proof.
  split.
  - intros E. apply (Permutation_count_occ string_dec). intros x.
    pose proof (countOccurrences_counts l x) as H1.
    pose proof (countOccurrences_counts l' x) as H2.
    rewrite E, H2 in H1.
    pose proof (count_occ_le_length l x). pose proof (count_occ_le_length l' x).
    destruct (count_occ string_dec l x) as [|n],
             (count_occ string_dec l' x) as [|n']; try discriminate; [reflexivity|].
    injection H1 as H1. rewrite !int_wrap_small in H1 by lia. lia.
  - intros P. apply sorted_ext; try apply countOccurrences_sorted.
    intros x. rewrite !countOccurrences_counts.
    now rewrite (proj1 (Permutation_count_occ string_dec l l') P x).
Qed.

(** A swap of two parameters leaves the shape alone. *)
Lemma countOccurrences_multiset_witness :
  countOccurrences ["int"; "char"; "int"] = countOccurrences ["char"; "int"; "int"].
Proof.
  apply (countOccurrences_multiset ["int"; "char"; "int"] ["char"; "int"; "int"]).
  - unfold INT_MAX. simpl. lia.
  - unfold INT_MAX. simpl. lia.
  - apply perm_trans with ("char" :: "int" :: ["int"]); [apply perm_swap|].
    apply Permutation_refl.
Defined.

(** ** What the parser accepts *)

Lemma skipSpaces_inv rest : forall pos r p,
  skipSpaces rest pos = (r, p) ->
  exists n, rest = spaces n ++ r /\ p = pos + n /\
            headIs (fun c => Ascii.eqb c " ") r = false.
Proof.
  induction rest as [|c rest IH]; intros pos r p H; cbn [skipSpaces] in H.
  - injection H as <- <-. exists 0. repeat split. lia.
  - destruct (Ascii.eqb_spec c " ") as [->|Hne].
    + apply IH in H as (n & -> & -> & Hh). exists (S n). repeat split; [lia|exact Hh].
    + injection H as <- <-. exists 0. repeat split; [lia|].
      cbn [headIs]. now apply Ascii.eqb_neq.
Qed.

Lemma scanIdentifier_inv rest : forall pos id r p,
  scanIdentifier rest pos = (id, r, p) ->
  rest = id ++ r /\ allIdentBody id = true /\ p = pos + String.length id /\
  headIs isIdentBody r = false.
Proof.
  induction rest as [|c rest IH]; intros pos id r p H; cbn [scanIdentifier] in H.
  - injection H as <- <- <-. repeat split. cbn [String.length]. lia.
  - destruct (isIdentBody c) eqn:Hc.
    + destruct (scanIdentifier rest (S pos)) as [[id' r'] p'] eqn:E.
      injection H as <- <- <-.
      apply IH in E as (-> & Hall & -> & Hh). repeat split.
      * cbn [allIdentBody]. now rewrite Hc, Hall.
      * cbn [String.length]. lia.
      * exact Hh.
    + injection H as <- <- <-. repeat split; [cbn [String.length]; lia|exact Hc].
Qed.

Lemma int_wrap_idem a : int_wrap (int_wrap a) = int_wrap a.
Proof.
  replace (int_wrap a) with (int_wrap a + 0)%Z at 1 by lia.
  rewrite int_wrap_add_l. f_equal. lia.
Qed.

Lemma countAsterisks_inv rest : forall pos acc n,
  int_wrap acc = acc ->
  countAsterisks rest pos acc = inr n ->
  rest = asterisks (String.length rest) /\
  n = int_wrap (acc + Z.of_nat (String.length rest)).
Proof.
  induction rest as [|c rest IH]; intros pos acc n Hacc H; cbn [countAsterisks] in H.
  - injection H as <-. split; [reflexivity|]. cbn [String.length Z.of_nat].
    now rewrite Z.add_0_r.
  - destruct (Ascii.eqb_spec c "*") as [->|Hne]; [|discriminate].
    apply IH in H as [Hr Hn]; [|apply int_wrap_idem]. split.
    + cbn [String.length asterisks repeat_char]. f_equal. exact Hr.
    + rewrite Hn, int_wrap_add_l. f_equal. cbn [String.length]. lia.
Qed.

Lemma countAsterisks_bad rest : forall pos acc bad,
  countAsterisks rest pos acc = inl bad -> pos <= bad < pos + String.length rest.
Proof.
  induction rest as [|c rest IH]; intros pos acc bad H; cbn [countAsterisks] in H.
  - discriminate.
  - cbn [String.length]. destruct (Ascii.eqb c "*").
    + apply IH in H. lia.
    + injection H as <-. lia.
Qed.

Lemma struct_prefix_inv rest :
  String.prefix structPrefix rest = true ->
  rest = structPrefix ++ dropChars (String.length structPrefix) rest.
Proof. intros H. apply prefix_app in H as (s' & ->). reflexivity. Qed.

(** The strings [parseAfterVar] accepts, and what it reads from them. *)
Lemma parseAfterVar_Ok_inv s v rest pos t :
  parseAfterVar s v rest pos = Ok t ->
  exists pre n k,
    rest = pre ++ name t ++ spaces n ++ asterisks k /\
    (pre = "" \/ exists m, pre = structPrefix ++ spaces m) /\
    isVar t = v /\
    validIdentifier (name t) = true /\
    pointers t = int_wrap (Z.of_nat k) /\
    (k = 0 -> n = 0).
Proof.
  unfold parseAfterVar. intros H.
  assert (Hpre : exists pre r0 p0,
            (if String.prefix structPrefix rest
             then skipSpaces (dropChars (String.length structPrefix) rest)
                             (pos + String.length structPrefix)
             else (rest, pos)) = (r0, p0) /\
            rest = pre ++ r0 /\
            (pre = "" \/ exists m, pre = structPrefix ++ spaces m)).
  { destruct (String.prefix structPrefix rest) eqn:Ep.
    - destruct (skipSpaces _ _) as [r0 p0] eqn:Es.
      pose proof Es as Es'. apply skipSpaces_inv in Es' as (m & Hd & _ & _).
      exists (structPrefix ++ spaces m), r0, p0. split; [reflexivity|]. split.
      + rewrite (struct_prefix_inv rest Ep) at 1. rewrite Hd.
        now rewrite append_assoc.
      + right. now exists m.
    - exists "", rest, pos. repeat split. now left. }
  destruct Hpre as (pre & r0 & p0 & E0 & Hrest & Hp). rewrite E0 in H.
  destruct r0 as [|c r]; [discriminate|].
  destruct (isIdentStart c) eqn:Hc; [|discriminate].
  destruct (scanIdentifier r (S p0)) as [[id r1] p1] eqn:Es.
  apply scanIdentifier_inv in Es as (-> & Hall & -> & Hh).
  assert (Hvalid : validIdentifier (String c id) = true).
  { cbn [validIdentifier]. now rewrite Hc, Hall. }
  destruct r1 as [|c1 r1'] eqn:Er1.
  - injection H as <-. exists pre, 0, 0. cbn [name isVar pointers].
    repeat split; auto.
  - rewrite <- Er1 in *.
    destruct (skipSpaces r1 _) as [r2 p2] eqn:Esp.
    assert (H' : match r2 with
                 | "" => Err (ParseTypeError s p2)
                 | String _ _ =>
                     match countAsterisks r2 p2 0 with
                     | inl bad => Err (ParseTypeError s bad)
                     | inr n => Ok (mkTypeInfo v (String c id) n)
                     end
                 end = Ok t).
    { destruct r1; [discriminate|exact H]. }
    clear H. apply skipSpaces_inv in Esp as (n & -> & _ & _).
    destruct r2 as [|c2 r2'] eqn:Er2; [discriminate|]. rewrite <- Er2 in *.
    destruct (countAsterisks r2 p2 0) as [bad|k] eqn:Ec; [discriminate|].
    injection H' as <-.
    apply countAsterisks_inv in Ec as [Hr Hn]; [|reflexivity].
    exists pre, n, (String.length r2). cbn [name isVar pointers].
    split; [|repeat split; auto].
    + rewrite Hrest. now rewrite <- Hr.
    + intros Hz. rewrite Er2 in Hz. discriminate.
Qed.

(** The grammar of type tokens: whatever parses is an optional ['%'], an
    optional [struct] keyword with the spaces after it, an identifier, and
    either nothing more or some spaces and at least one asterisk; the
    descriptor holds the mark, the identifier and the number of asterisks
    (as an [int]). *)
Theorem parseType_accepts_only_grammar (s : string) (t : TypeInfo) :
  parseType s = Ok t ->
  exists pre n k,
    s = (if isVar t then "%" else "") ++ pre ++ name t
          ++ spaces n ++ asterisks k /\
    (pre = "" \/ exists m, pre = structPrefix ++ spaces m) /\
    validIdentifier (name t) = true /\
    pointers t = int_wrap (Z.of_nat k) /\
    (k = 0 -> n = 0).
Proof.
  unfold parseType. intros H.
  destruct s as [|c r].
  - apply parseAfterVar_Ok_inv in H as (pre & n & k & Hs & Hp & Hv & Hid & Hk & Hn).
    exists pre, n, k. rewrite Hv. auto.
  - destruct (Ascii.eqb_spec c "%") as [->|Hne];
      apply parseAfterVar_Ok_inv in H as (pre & n & k & Hs & Hp & Hv & Hid & Hk & Hn);
      exists pre, n, k; rewrite Hv.
    + split; [|auto]. cbn [append]. now rewrite Hs.
    + split; [|auto]. exact Hs.
Qed.

Lemma parseType_accepts_witness :
  exists pre n k,
    "%struct  Node **" = (if true then "%" else "") ++ pre ++ "Node"
          ++ spaces n ++ asterisks k /\
    (pre = "" \/ exists m, pre = structPrefix ++ spaces m) /\
    validIdentifier "Node" = true /\
    2%Z = int_wrap (Z.of_nat k) /\
    (k = 0 -> n = 0).
Proof.
  exact (parseType_accepts_only_grammar "%struct  Node **"
           (mkTypeInfo true "Node" 2) eq_refl).
Defined.

(** ** Positions *)

Lemma skipSpaces_reloc rest : forall pos,
  skipSpaces rest pos =
  (fst (skipSpaces rest 0), pos + snd (skipSpaces rest 0)).
Proof.
  intros pos. destruct (skipSpaces rest 0) as [r0 p0] eqn:E0.
  destruct (skipSpaces rest pos) as [r p] eqn:E.
  apply skipSpaces_inv in E0 as (n0 & H0 & -> & Hh0).
  apply skipSpaces_inv in E as (n & H & -> & Hh).
  assert (Hn : skipSpaces rest 0 = (r, 0 + n)).
  { rewrite H at 1. now apply skipSpaces_app. }
  assert (Hn0 : skipSpaces rest 0 = (r0, 0 + n0)).
  { rewrite H0 at 1. now apply skipSpaces_app. }
  rewrite Hn in Hn0. injection Hn0 as -> ->. reflexivity.
Qed.

Lemma scanIdentifier_reloc rest : forall pos,
  scanIdentifier rest pos =
  (fst (fst (scanIdentifier rest 0)), snd (fst (scanIdentifier rest 0)),
   pos + snd (scanIdentifier rest 0)).
Proof.
  induction rest as [|c rest IH]; intros pos; cbn [scanIdentifier].
  - cbn. f_equal. lia.
  - destruct (isIdentBody c).
    + rewrite (IH (S pos)), (IH 1).
      destruct (scanIdentifier rest 0) as [[id r] p]. cbn. f_equal. lia.
    + cbn. f_equal. lia.
Qed.

Lemma countAsterisks_reloc rest : forall pos acc,
  countAsterisks rest pos acc =
  match countAsterisks rest 0 acc with
  | inl bad => inl (pos + bad)
  | inr n => inr n
  end.
Proof.
  induction rest as [|c rest IH]; intros pos acc; cbn [countAsterisks].
  - reflexivity.
  - destruct (Ascii.eqb c "*").
    + rewrite (IH (S pos)), (IH 1).
      destruct (countAsterisks rest 0 _); [f_equal; lia|reflexivity].
    + f_equal. lia.
Qed.

(** The parser reads [s] and [pos] only to label its errors. *)
Lemma parseAfterVar_reloc s v rest pos :
  parseAfterVar s v rest pos = relocate s pos (parseAfterVar "" v rest 0).
Proof.
  unfold parseAfterVar.
  destruct (String.prefix structPrefix rest).
  - rewrite (skipSpaces_reloc _ (pos + _)), (skipSpaces_reloc _ (0 + _)).
    destruct (skipSpaces (dropChars _ rest) 0) as [r0 p0]. cbn [fst snd].
    destruct r0 as [|c r]; [cbn; f_equal; f_equal; lia|].
    destruct (isIdentStart c); [|cbn; f_equal; f_equal; lia].
    repeat match goal with
           | |- context [scanIdentifier r ?p] =>
               lazymatch p with 0 => fail | _ => rewrite (scanIdentifier_reloc r p) end
           end.
    destruct (scanIdentifier r 0) as [[id r1] p1]. cbn [fst snd].
    destruct r1 as [|c1 r1']; [reflexivity|].
    repeat match goal with
           | |- context [skipSpaces (String c1 r1') ?p] =>
               lazymatch p with 0 => fail
               | _ => rewrite (skipSpaces_reloc (String c1 r1') p) end
           end.
    destruct (skipSpaces (String c1 r1') 0) as [r2 p2]. cbn [fst snd].
    destruct r2 as [|c2 r2']; [cbn; f_equal; f_equal; lia|].
    repeat match goal with
           | |- context [countAsterisks (String c2 r2') ?p 0%Z] =>
               lazymatch p with 0 => fail
               | _ => rewrite (countAsterisks_reloc (String c2 r2') p 0%Z) end
           end.
    destruct (countAsterisks (String c2 r2') 0 0); cbn; [f_equal; f_equal; lia|reflexivity].
  - destruct rest as [|c r]; [cbn; f_equal; f_equal; lia|].
    destruct (isIdentStart c); [|cbn; f_equal; f_equal; lia].
    repeat match goal with
           | |- context [scanIdentifier r ?p] =>
               lazymatch p with 0 => fail | _ => rewrite (scanIdentifier_reloc r p) end
           end.
    destruct (scanIdentifier r 0) as [[id r1] p1]. cbn [fst snd].
    destruct r1 as [|c1 r1']; [reflexivity|].
    repeat match goal with
           | |- context [skipSpaces (String c1 r1') ?p] =>
               lazymatch p with 0 => fail
               | _ => rewrite (skipSpaces_reloc (String c1 r1') p) end
           end.
    destruct (skipSpaces (String c1 r1') 0) as [r2 p2]. cbn [fst snd].
    destruct r2 as [|c2 r2']; [cbn; f_equal; f_equal; lia|].
    repeat match goal with
           | |- context [countAsterisks (String c2 r2') ?p 0%Z] =>
               lazymatch p with 0 => fail
               | _ => rewrite (countAsterisks_reloc (String c2 r2') p 0%Z) end
           end.
    destruct (countAsterisks (String c2 r2') 0 0); cbn; [f_equal; f_equal; lia|reflexivity].
Qed.

Lemma parseAfterVar_Err_inv s v rest pos e :
  parseAfterVar s v rest pos = Err e ->
  exists p, e = ParseTypeError s p /\ pos <= p <= pos + String.length rest.
Proof.
  unfold parseAfterVar. intros H.
  assert (Hpre : exists r0 p0,
            (if String.prefix structPrefix rest
             then skipSpaces (dropChars (String.length structPrefix) rest)
                             (pos + String.length structPrefix)
             else (rest, pos)) = (r0, p0) /\
            pos <= p0 /\ p0 + String.length r0 = pos + String.length rest).
  { destruct (String.prefix structPrefix rest) eqn:Ep.
    - destruct (skipSpaces _ _) as [r0 p0] eqn:Es.
      exists r0, p0. split; [reflexivity|].
      apply skipSpaces_inv in Es as (n & Hd & -> & _).
      pose proof (f_equal String.length (struct_prefix_inv rest Ep)) as Hl.
      rewrite length_append, Hd, length_append in Hl. unfold spaces in Hl.
      rewrite length_repeat_char in Hl. lia.
    - exists rest, pos. repeat split; lia. }
  destruct Hpre as (r0 & p0 & E0 & Hle & Hlen). rewrite E0 in H.
  destruct r0 as [|c r].
  { injection H as <-. exists p0. split; [reflexivity|]. lia. }
  cbn [String.length] in Hlen.
  destruct (isIdentStart c).
  2:{ injection H as <-. exists p0. split; [reflexivity|]. lia. }
  destruct (scanIdentifier r (S p0)) as [[id r1] p1] eqn:Es.
  apply scanIdentifier_inv in Es as (-> & _ & -> & _).
  rewrite length_append in Hlen.
  destruct r1 as [|c1 r1'] eqn:Er1; [discriminate|]. rewrite <- Er1 in *.
  destruct (skipSpaces r1 _) as [r2 p2] eqn:Esp.
  assert (H' : match r2 with
               | "" => Err (ParseTypeError s p2)
               | String _ _ =>
                   match countAsterisks r2 p2 0 with
                   | inl bad => Err (ParseTypeError s bad)
                   | inr n => Ok (mkTypeInfo v (String c id) n)
                   end
               end = Err e).
  { destruct r1; [discriminate|exact H]. }
  clear H. apply skipSpaces_inv in Esp as (n & Hr1 & -> & _).
  rewrite Hr1, length_append in Hlen. unfold spaces in Hlen.
  rewrite length_repeat_char in Hlen.
  destruct r2 as [|c2 r2'] eqn:Er2.
  { injection H' as <-. eexists. split; [reflexivity|]. lia. }
  rewrite <- Er2 in *.
  destruct (countAsterisks r2 _ 0) as [bad|k] eqn:Ec; [|discriminate].
  injection H' as <-. apply countAsterisks_bad in Ec.
  exists bad. split; [reflexivity|]. lia.
Qed.

(** A failed parse always reports the string it was given and a position
    that is an index of the string or its end, so that the character the
    message prints, [str[pos]], exists. *)
Theorem parseType_error_position (s : string) (e : Error) :
  parseType s = Err e ->
  exists pos, e = ParseTypeError s pos /\ pos <= String.length s.
Proof.
  unfold parseType. intros H. destruct s as [|c r].
  - apply parseAfterVar_Err_inv in H as (p & -> & Hp). exists p. split; [reflexivity|lia].
  - destruct (Ascii.eqb c "%");
      apply parseAfterVar_Err_inv in H as (p & -> & Hp); exists p;
      (split; [reflexivity|cbn [String.length] in *; lia]).
Qed.

Lemma parseType_error_position_witness :
  exists pos, ParseTypeError "int *x" 5 = ParseTypeError "int *x" pos /\
              pos <= String.length "int *x".
Proof. exact (parseType_error_position "int *x" _ eq_refl). Defined.

Lemma relocate_relocate {T : Type} s s' p p' (r : Expected T) :
  relocate s' p' (relocate s p r) = relocate s' (p' + p) r.
Proof.
  destruct r as [t|[str q|msg|]]; cbn; try reflexivity. f_equal. f_equal. lia.
Qed.

Lemma parseAfterVar_skip_struct s v m rest pos :
  String.prefix structPrefix rest = false ->
  headIs (fun c => Ascii.eqb c " ") rest = false ->
  parseAfterVar s v (structPrefix ++ spaces m ++ rest) pos =
  parseAfterVar s v rest (pos + String.length structPrefix + m).
Proof.
  intros Hp Hs.
  assert (Ep : forall x, String.prefix structPrefix (structPrefix ++ x) = true)
    by (intros [|? ?]; reflexivity).
  assert (Ed : forall x, dropChars (String.length structPrefix) (structPrefix ++ x) = x)
    by reflexivity.
  unfold parseAfterVar. rewrite Ep, Ed, Hp, (skipSpaces_app m rest _ Hs).
  reflexivity.
Qed.

Lemma parseType_unmarked s :
  headIs (fun c => Ascii.eqb c "%") s = false ->
  parseType s = parseAfterVar s false s 0.
Proof.
  intros H. destruct s as [|c r]; [reflexivity|]. cbn [headIs] in H.
  unfold parseType. now rewrite H.
Qed.

(** The record keyword is not part of the type: written before a type
    token (after the ['%'] of a placeholder), with any number of spaces
    after it, it changes nothing but the position of a reported error. *)
Theorem struct_keyword_is_skipped (v : bool) (m : nat) (rest : string)
    (Hp : String.prefix structPrefix rest = false)
    (Hs : headIs (fun c => Ascii.eqb c " ") rest = false)
    (Hv : headIs (fun c => Ascii.eqb c "%") rest = false) :
  let mark := if v then "%" else "" in
  let s := mark ++ structPrefix ++ spaces m ++ rest in
  parseType s =
  relocate s (String.length structPrefix + m) (parseType (mark ++ rest)).
Proof.
  intros mark s.
  assert (E1 : parseType s =
               parseAfterVar s v (structPrefix ++ spaces m ++ rest)
                             (String.length mark)).
  { unfold s, mark. destruct v; [reflexivity|]. now apply parseType_unmarked. }
  assert (E2 : parseType (mark ++ rest) =
               parseAfterVar (mark ++ rest) v rest (String.length mark)).
  { unfold mark. destruct v; [reflexivity|]. now apply parseType_unmarked. }
  rewrite E1, E2, parseAfterVar_skip_struct by assumption.
  rewrite (parseAfterVar_reloc s), (parseAfterVar_reloc (mark ++ rest)).
  rewrite relocate_relocate. f_equal. lia.
Qed.

Lemma struct_keyword_witness :
  parseType "struct  Node *" = Ok (mkTypeInfo false "Node" 1).
Proof.
  exact (struct_keyword_is_skipped false 1 "Node *" eq_refl eq_refl eq_refl).
Defined.

(** Rendering is a normal form of what has been parsed: the rendering of
    a parsed descriptor parses to the same descriptor, unless it is a
    pointer to something called [struct]. *)
Theorem toString_of_parsed_is_stable (s : string) (t : TypeInfo)
    (Hlen : (Z.of_nat (String.length s) <= INT_MAX)%Z)
    (Hparse : parseType s = Ok t)
    (Hstruct : name t <> "struct" \/ pointers t = 0%Z) :
  parseType (toString t) = Ok t.
Proof.
  apply parseType_accepts_only_grammar in Hparse
    as (pre & n & k & Hs & _ & Hid & Hk & Hn).
  assert (Hkl : k <= String.length s).
  { rewrite Hs, !length_append. unfold asterisks. rewrite length_repeat_char. lia. }
  rewrite int_wrap_small in Hk by lia.
  destruct t as [v id p]. cbn [name pointers isVar] in *. subst p.
  unfold toString. cbn [name pointers isVar].
  destruct (Z.ltb_spec 0 (Z.of_nat k)) as [Hpos|Hzero].
  - pose proof (parseType_shape v id 1 k "" Hid) as H.
    cbv zeta in H. rewrite append_empty in H.
    change (spaces 1 ++ asterisks k) with (" " ++ asterisks k) in H.
    rewrite Nat2Z.id.
    rewrite H; try reflexivity; try discriminate.
    + destruct k; [lia|reflexivity].
    + destruct Hstruct as [Hne|Hz]; [now left|lia].
    + lia.
  - assert (k = 0) as -> by lia.
    pose proof (parseType_shape v id 0 0 "" Hid) as H.
    cbv zeta in H. cbn [spaces asterisks repeat_char append] in H.
    rewrite append_empty in *.
    apply H; try reflexivity; try discriminate; auto.
Qed.

Lemma toString_of_parsed_witness :
  parseType (toString (mkTypeInfo false "Node" 1)) = Ok (mkTypeInfo false "Node" 1).
Proof.
  apply (toString_of_parsed_is_stable "struct Node  *").
  - unfold INT_MAX. simpl. lia.
  - reflexivity.
  - left. discriminate.
Defined.

(** ** Resolution of plain type names *)

Lemma parseType_identifier id :
  validIdentifier id = true -> parseType id = Ok (mkTypeInfo false id 0).
Proof.
  intros Hid.
  pose proof (parseType_shape false id 0 0 "" Hid) as H.
  cbv zeta in H. cbn [spaces asterisks repeat_char append] in H.
  rewrite append_empty in H. apply H; try reflexivity; try discriminate; auto.
Qed.

Lemma resolveVar_identifier id varMap :
  validIdentifier id = true -> resolveVar id varMap = Ok id.
Proof. intros Hid. unfold resolveVar. now rewrite (parseType_identifier id Hid). Qed.

(** A type string without the placeholder mark resolves to its bare
    identifier: the [struct] keyword, the spaces and the asterisks it was
    written with are not in the result. *)
Theorem resolveVar_keeps_only_identifier (var r : string)
    (varMap : StdMap.t string)
    (Hplain : headIs (fun c => Ascii.eqb c "%") var = false)
    (Hres : resolveVar var varMap = Ok r) :
  validIdentifier r = true /\
  exists pre n k,
    var = pre ++ r ++ spaces n ++ asterisks k /\
    (pre = "" \/ exists m, pre = structPrefix ++ spaces m).
Proof.
  unfold resolveVar in Hres.
  destruct (parseType var) as [ty|e] eqn:P; [|discriminate].
  apply parseType_accepts_only_grammar in P as (pre & n & k & Hs & Hp & Hid & _ & _).
  destruct (isVar ty).
  - rewrite Hs in Hplain. discriminate.
  - cbn [negb] in Hres. injection Hres as <-. split; [exact Hid|].
    exists pre, n, k. split; [exact Hs|exact Hp].
Qed.

Lemma resolveVar_keeps_only_identifier_witness :
  validIdentifier "Node" = true /\
  exists pre n k,
    "struct Node **" = pre ++ "Node" ++ spaces n ++ asterisks k /\
    (pre = "" \/ exists m, pre = structPrefix ++ spaces m).
Proof.
  exact (resolveVar_keeps_only_identifier "struct Node **" "Node" [] eq_refl eq_refl).
Defined.

Lemma resolveParamsLoop_keys params varMap : forall ret r k c,
  resolveParamsLoop params varMap ret = Ok r ->
  In (k, c) r ->
  In (k, c) ret \/
  exists key, In (key, c) params /\ resolveVar key varMap = Ok k.
Proof.
  induction params as [|[key c0] rest IH]; intros ret r k c H Hin; cbn in H.
  - injection H as <-. now left.
  - destruct (parseType key); [|discriminate].
    destruct (resolveVar key varMap) as [var|] eqn:R; [|discriminate].
    destruct (IH _ _ _ _ H Hin) as [Hi|(key' & Hk & Hr)].
    + apply In_insert in Hi as [[-> ->]|Hi]; [|now left].
      right. exists key. split; [now left|exact R].
    + right. exists key'. split; [now right|exact Hr].
Qed.

(** An expected function written without placeholders resolves to
    parameter types that are bare identifiers; an observed function of
    its name with a parameter type that is not one, such as a pointer, is
    therefore always reported as a mismatch. *)
Theorem pointer_parameter_is_always_a_mismatch
    (f f' sig : FuncDecl) (varMap : StdMap.t string) (n : string)
    (funcs : StdMap.t FuncDecl) (unnamed : list FuncDecl)
    (locs : StdMap.t SourceLocation) (key : string) (count : Z)
    (Hplain : forall k c, In (k, c) (pMap f) ->
                headIs (fun c => Ascii.eqb c "%") k = false)
    (Hres : resolveFunction f varMap = Ok f')
    (Hexp : StdMap.find n funcs = Some f')
    (Hobs : In (key, count) (pMap sig))
    (Hptr : validIdentifier key = false) :
  (forall k c, In (k, c) (pMap f') -> validIdentifier k = true) /\
  snd (matchFun locs (n, sig) (funcs, unnamed)) =
    [mismatch (StdMap.find n locs) (pretty f') (pretty sig)].
Proof.
  assert (Hkeys : forall k c, In (k, c) (pMap f') -> validIdentifier k = true).
  { unfold resolveFunction in Hres.
    destruct (resolveParams (pMap f) varMap) as [p|] eqn:Rp; [|discriminate].
    destruct (resolveVar (retType f) varMap); [|discriminate].
    injection Hres as <-. cbn [pMap]. intros k c Hin.
    destruct (resolveParamsLoop_keys _ _ _ _ _ _ Rp Hin) as [[]|(key' & Hk & Hr)].
    apply Hplain in Hk.
    now destruct (resolveVar_keeps_only_identifier key' k varMap Hk Hr). }
  split; [exact Hkeys|].
  unfold matchFun. cbn [fst snd]. rewrite Hexp. cbn [snd].
  destruct (FuncDecl_eq_dec sig f') as [->|_]; [|reflexivity].
  apply Hkeys in Hobs. congruence.
Qed.

(** An expectation written with a pointer to [int] against the observed
    function with that very parameter. *)
Lemma pointer_parameter_witness :
  snd (matchFun [("f", 7)] ("f", mkFuncDecl [("int *", 1%Z)] "void")
         ([("f", mkFuncDecl [("int", 1%Z)] "void")], [])) =
  [mismatch (Some 7) "(int: 1) -> void" "(int *: 1) -> void"].
Proof.
  refine (proj2 (pointer_parameter_is_always_a_mismatch
            (mkFuncDecl [("int *", 1%Z)] "void") (mkFuncDecl [("int", 1%Z)] "void")
            (mkFuncDecl [("int *", 1%Z)] "void") [] "f"
            [("f", mkFuncDecl [("int", 1%Z)] "void")] [] [("f", 7)]
            "int *" 1%Z _ eq_refl eq_refl _ eq_refl)).
  - intros k c [[= <- <-]|[]]. reflexivity.
  - now left.
Defined.

Lemma resolveParamsLoop_plain rest varMap : forall acc,
  StdMap.sorted (acc ++ rest)%list ->
  (forall k c, In (k, c) rest -> validIdentifier k = true) ->
  resolveParamsLoop rest varMap acc = Ok (acc ++ rest)%list.
Proof.
  induction rest as [|[k c] rest IH]; intros acc Hs Hid; cbn [resolveParamsLoop].
  - now rewrite app_nil_r.
  - assert (Hk : validIdentifier k = true) by (apply (Hid k c); now left).
    cbn [fst snd]. rewrite (parseType_identifier k Hk), (resolveVar_identifier k _ Hk).
    replace (acc ++ (k, c) :: rest)%list with ((acc ++ [(k, c)]) ++ rest)%list in *
      by (rewrite <- app_assoc; reflexivity).
    rewrite insert_append by (eapply sorted_app_l; exact Hs).
    apply IH; [exact Hs|]. intros k' c' Hin. apply (Hid k' c'). now right.
Qed.

Lemma resolveParams_plain p varMap :
  plainParams p -> resolveParams p varMap = Ok p.
Proof. intros [Hs Hid]. now apply (resolveParamsLoop_plain p varMap []). Qed.

Lemma resolveFunction_plain f varMap :
  plainFunction f -> resolveFunction f varMap = Ok f.
Proof.
  intros [Hp Hr]. unfold resolveFunction.
  rewrite (resolveParams_plain _ _ Hp), (resolveVar_identifier _ _ Hr).
  now destruct f.
Qed.

Lemma resolveNamed_identity {A : Type} (resolve : A -> Expected A) skipped
    (m : StdMap.t A) :
  StdMap.sorted m -> (forall n x, In (n, x) m -> resolve x = Ok x) ->
  resolveNamed resolve skipped m = (m, []).
Proof.
  intros Hs Hid. unfold resolveNamed.
  assert (H : forall rest acc lines,
            StdMap.sorted (acc ++ rest)%list ->
            (forall n x, In (n, x) rest -> resolve x = Ok x) ->
            fold_left (resolveNamedStep resolve skipped) rest (acc, lines) =
            ((acc ++ rest)%list, lines)).
  { induction rest as [|[n x] rest IH]; intros acc lines Hs' Hid'; cbn [fold_left].
    - now rewrite app_nil_r.
    - unfold resolveNamedStep at 2. cbn [fst snd].
      rewrite (Hid' n x) by now left.
      replace (acc ++ (n, x) :: rest)%list with ((acc ++ [(n, x)]) ++ rest)%list in *
        by (rewrite <- app_assoc; reflexivity).
      rewrite insert_append by (eapply sorted_app_l; exact Hs').
      apply IH; [exact Hs'|]. intros n' x' Hin. apply (Hid' n' x'). now right. }
  now apply (H m [] []).
Qed.

Lemma resolveUnnamed_identity {A : Type} (resolve : A -> Expected A) skipped show
    (l : list A) :
  (forall x, In x l -> resolve x = Ok x) ->
  resolveUnnamed resolve skipped show l = (l, []).
Proof.
  intros Hid. unfold resolveUnnamed.
  assert (H : forall rest acc lines,
            (forall x, In x rest -> resolve x = Ok x) ->
            fold_left (resolveUnnamedStep resolve skipped show) rest (acc, lines) =
            ((acc ++ rest)%list, lines)).
  { induction rest as [|x rest IH]; intros acc lines Hid'; cbn [fold_left].
    - now rewrite app_nil_r.
    - unfold resolveUnnamedStep at 2. cbn [fst snd].
      rewrite (Hid' x) by now left.
      rewrite IH by (intros y Hy; apply Hid'; now right).
      now rewrite <- app_assoc. }
  now apply (H l [] []).
Qed.

(** Resolution leaves a catalog of plain identifiers as it is and skips
    nothing in it: the lines written are those of the binding loops. *)
Theorem resolveDeclarations_plain (decls : Declarations) (st : Found)
    (Hplain : plainCatalog decls) :
  resolveDeclarations decls st = (decls, snd (bindVars decls st)).
Proof.
  destruct Hplain as ((Sf & Pf) & (Ss & Ps) & Puf & Pus & (Sv & Pv)).
  rewrite resolveDeclarations_parts. cbv zeta.
  rewrite (resolveNamed_identity _ ", skipped " (functions decls) Sf)
    by (intros n f Hin; apply resolveFunction_plain; eauto).
  rewrite (resolveNamed_identity _ " skipped " (structs decls) Ss)
    by (intros n p Hin; apply resolveParams_plain; eauto).
  rewrite (resolveUnnamed_identity _ " skipped " pretty (unnamedFunctions decls))
    by (intros f Hin; apply resolveFunction_plain; eauto).
  rewrite (resolveUnnamed_identity _ " skipped " prettyMapAsStruct (unnamedStructs decls))
    by (intros p Hin; apply resolveParams_plain; eauto).
  rewrite (resolveNamed_identity _ " skipped " (varStructs decls) Sv)
    by (intros n p Hin; apply resolveParams_plain; eauto).
  cbn [fst snd]. rewrite !app_nil_r. now destruct decls.
Qed.

Lemma plainParams_int : plainParams [("int", 1%Z)].
Proof.
  split; [sorted_by_computation|].
  intros k c [[= <- <-]|[]]. reflexivity.
Qed.

(** The catalog that expects [foo : (int: 1) -> int] is left as it is. *)
Lemma resolveDeclarations_plain_witness :
  resolveDeclarations (mkDeclarations fooExpected [] [] [] []) nothingFound =
  (mkDeclarations fooExpected [] [] [] [], []).
Proof.
  apply (resolveDeclarations_plain (mkDeclarations fooExpected [] [] [] []) nothingFound).
  unfold plainCatalog. cbn [functions structs unnamedFunctions unnamedStructs varStructs].
  split; [split; [sorted_by_computation|]|].
  { intros n f [[= <- <-]|[]]. split; [exact plainParams_int|reflexivity]. }
  split; [split; [constructor|intros n p []]|].
  split; [intros f []|]. split; [intros p []|].
  split; [constructor|intros n p []].
Defined.

(** ** Which record a placeholder is bound to *)

Lemma bindOne_candidates var founds : forall acc,
  fst (fold_left (bindOne var) founds acc) =
  fold_left (fun vm c => StdMap.insert (fst c) (snd c) vm)
    (flat_map
       (fun found =>
          if ParamMap_eq_dec (snd var) (snd found)
          then match templateName (fst var) with
               | Some id => [(id, fst found)]
               | None => []
               end
          else []) founds)
    (fst acc).
Proof.
  induction founds as [|found rest IH]; intros acc; [reflexivity|].
  cbn [fold_left flat_map]. rewrite IH, fold_left_app, bindOne_fst.
  destruct (ParamMap_eq_dec (snd var) (snd found)); [|reflexivity].
  now destruct (templateName (fst var)).
Qed.

Lemma bindVars_candidates_from st vars : forall acc,
  fst (fold_left (fun acc var => fold_left (bindOne var) (foundStructs st) acc)
                 vars acc) =
  fold_left (fun vm c => StdMap.insert (fst c) (snd c) vm)
    (flat_map
       (fun var =>
          flat_map
            (fun found =>
               if ParamMap_eq_dec (snd var) (snd found)
               then match templateName (fst var) with
                    | Some id => [(id, fst found)]
                    | None => []
                    end
               else [])
            (foundStructs st)) vars)
    (fst acc).
Proof.
  induction vars as [|var rest IH]; intros acc; [reflexivity|].
  cbn [fold_left flat_map]. rewrite IH, fold_left_app, bindOne_candidates.
  reflexivity.
Qed.

Lemma bindVars_candidates decls st :
  fst (bindVars decls st) =
  fold_left (fun vm c => StdMap.insert (fst c) (snd c) vm)
            (bindingCandidates decls st) [].
Proof. apply bindVars_candidates_from. Qed.

Lemma fold_insert_first (cands : list (string * string)) :
  forall (vm : StdMap.t string) (id : string),
  StdMap.sorted vm ->
  StdMap.find id (fold_left (fun vm c => StdMap.insert (fst c) (snd c) vm) cands vm) =
  match StdMap.find id vm with
  | Some old => Some old
  | None => option_map snd (List.find (fun c => String.eqb (fst c) id) cands)
  end.
Proof.
  induction cands as [|[i t] rest IH]; intros vm id Hs; cbn [fold_left List.find].
  - now destruct (StdMap.find id vm).
  - rewrite IH by now apply insert_sorted.
    cbn [fst snd]. rewrite find_insert by assumption.
    destruct (String.eqb_spec id i) as [->|Hne].
    + rewrite String.eqb_refl. now destruct (StdMap.find i vm).
    + destruct (String.eqb_spec i id) as [E|_]; [congruence|reflexivity].
Qed.

(** Of the bindings the nested loops attempt for an identifier, the first
    one stays: a later template or a later observed record of the same
    shape does not overwrite it. *)
Theorem bindVars_first_candidate_wins (decls : Declarations) (st : Found)
    (id : string) :
  StdMap.find id (fst (bindVars decls st)) =
  option_map snd
    (List.find (fun c => String.eqb (fst c) id) (bindingCandidates decls st)).
Proof.
  rewrite bindVars_candidates. rewrite fold_insert_first by constructor.
  reflexivity.
Qed.

(** ** More on matching *)

Lemma eraseFirst_count {A : Type} (eq_dec : forall a b : A, {a = b} + {a <> b})
    (x : A) (l : list A) (y : A) :
  count_occ eq_dec (eraseFirst eq_dec x l) y =
  if eq_dec y x then pred (count_occ eq_dec l x) else count_occ eq_dec l y.
Proof.
  induction l as [|z r IH]; cbn [eraseFirst count_occ].
  - now destruct (eq_dec y x).
  - destruct (eq_dec z x) as [->|Hzx].
    + destruct (eq_dec y x) as [->|Hyx].
      * destruct (eq_dec x x); [reflexivity|congruence].
      * destruct (eq_dec x y); [congruence|reflexivity].
    + cbn [count_occ]. rewrite IH.
      destruct (eq_dec y x) as [->|Hyx].
      * destruct (eq_dec z x); [congruence|reflexivity].
      * reflexivity.
Qed.

(** An observed function whose name is not expected consumes exactly one
    unnamed expectation of its signature, if there is one, and nothing
    else; it never gives a diagnostic. *)
Theorem unnamed_match_consumes_one (locs : StdMap.t SourceLocation)
    (n : string) (sig : FuncDecl) (funcs : StdMap.t FuncDecl)
    (unnamed : list FuncDecl)
    (Hname : StdMap.find n funcs = None) :
  let result := matchFun locs (n, sig) (funcs, unnamed) in
  fst (fst result) = funcs /\
  snd result = [] /\
  forall y, count_occ FuncDecl_eq_dec (snd (fst result)) y =
            if FuncDecl_eq_dec y sig
            then pred (count_occ FuncDecl_eq_dec unnamed sig)
            else count_occ FuncDecl_eq_dec unnamed y.
Proof.
  intros result. unfold result, matchFun. cbn [fst snd]. rewrite Hname.
  cbn [fst snd]. repeat split. intros y. apply eraseFirst_count.
Qed.

(** Of two identical unnamed expectations one observation leaves one. *)
Lemma unnamed_match_witness :
  let sig := mkFuncDecl [("char", 1%Z)] "void" in
  count_occ FuncDecl_eq_dec
    (snd (fst (matchFun [] ("g", sig) ([], [sig; sig])))) sig = 1.
Proof.
  intros sig.
  exact (proj2 (proj2 (unnamed_match_consumes_one [] "g" sig [] [sig; sig] eq_refl)) sig).
Defined.

Lemma matchStructs_spec locs found : forall structs vs us,
  StdMap.sorted found -> StdMap.sorted structs ->
  let '((structs', _, _), diags) := matchStructs locs found (structs, vs, us) in
  (forall n, StdMap.find n structs' =
             match StdMap.find n found with
             | Some _ => None
             | None => StdMap.find n structs
             end) /\
  diags = flat_map (mismatchOfStruct locs structs) found.
Proof.
  induction found as [|[k shape] rest IH]; intros structs vs us Sf Sm;
    cbn [matchStructs].
  - split; [reflexivity|reflexivity].
  - assert (Hrest : forall f, In f rest -> fst f <> k).
    { intros [k' v'] Hin. simpl. apply not_eq_sym, key_lt_neq.
      eapply sorted_head_lt; eassumption. }
    apply sorted_tail in Sf.
    cbn [matchStruct fst snd flat_map]. unfold mismatchOfStruct at 1. cbn [fst snd].
    destruct (StdMap.find k structs) as [e|] eqn:F.
    + specialize (IH (StdMap.erase k structs) vs us Sf (erase_sorted _ k Sm)).
      destruct (matchStructs locs rest _) as [[[s' v'] u'] d2].
      destruct IH as (Hfind & Hd). split.
      * intros n. rewrite Hfind, find_erase by assumption. cbn [StdMap.find].
        destruct (String.eqb_spec n k) as [->|Hne]; [|reflexivity].
        now destruct (StdMap.find k rest).
      * f_equal. rewrite Hd. apply flat_map_agree. intros f Hin.
        unfold mismatchOfStruct. rewrite find_erase by assumption.
        apply Hrest, String.eqb_neq in Hin. now rewrite Hin.
    + assert (Hgoal : forall st',
                (let '((structs', _, _), diags) := matchStructs locs rest st' in
                 (forall n, StdMap.find n structs' =
                    match StdMap.find n rest with
                    | Some _ => None
                    | None => StdMap.find n structs
                    end) /\
                 diags = flat_map (mismatchOfStruct locs structs) rest) ->
                let '((structs', _, _), diags) :=
                  (let '(st2, d2) := matchStructs locs rest st' in (st2, ([] ++ d2)%list)) in
                (forall n, StdMap.find n structs' =
                   match StdMap.find n ((k, shape) :: rest) with
                   | Some _ => None
                   | None => StdMap.find n structs
                   end) /\
                diags = ([] ++ flat_map (mismatchOfStruct locs structs) rest)%list).
      { intros st' H. destruct (matchStructs locs rest st') as [[[s' v'] u'] d2].
        destruct H as (Hfind & Hd). split; [|now rewrite Hd].
        intros n. rewrite Hfind. cbn [StdMap.find].
        destruct (String.eqb_spec n k) as [->|Hne]; [|reflexivity].
        rewrite F. now destruct (StdMap.find k rest). }
      destruct (findVarRec shape vs) as [pm|]; apply Hgoal; apply IH; assumption.
Qed.

(** The records are handled like the functions: the loop removes from the
    expected named records the entry of every observed name and no other,
    and emits, in observation order, one diagnostic for each observed
    record whose name is expected with another shape; what the
    placeholder records and the unnamed records hold has no part in it. *)
Theorem named_records_pop_and_report (locs : StdMap.t SourceLocation)
    (found structs vs : StdMap.t ParamMap) (us : list ParamMap)
    (Hfound : StdMap.sorted found) (Hstructs : StdMap.sorted structs) :
  let result := matchStructs locs found (structs, vs, us) in
  (forall n, StdMap.find n (fst (fst (fst result))) =
             match StdMap.find n found with
             | Some _ => None
             | None => StdMap.find n structs
             end) /\
  snd result = flat_map (mismatchOfStruct locs structs) found.
Proof.
  intros result.
  pose proof (matchStructs_spec locs found structs vs us Hfound Hstructs) as H.
  fold result in H. now destruct result as [[[s' v'] u'] d].
Qed.

Lemma named_records_witness :
  snd (matchStructs [] [("Point", [("int", 2%Z)])]
         ([("Point", [("int", 1%Z)])], [], [])) =
  flat_map (mismatchOfStruct [] [("Point", [("int", 1%Z)])])
           [("Point", [("int", 2%Z)])].
Proof.
  refine (proj2 (named_records_pop_and_report [] [("Point", [("int", 2%Z)])]
                   [("Point", [("int", 1%Z)])] [] [] _ _));
    sorted_by_computation.
Defined.

Lemma eraseFirst_In {A : Type} (eq_dec : forall a b : A, {a = b} + {a <> b})
    (x y : A) (l : list A) :
  In y (eraseFirst eq_dec x l) -> In y l.
Proof.
  induction l as [|z r IH]; cbn [eraseFirst]; [tauto|].
  destruct (eq_dec z x); [now right|]. intros [H|H]; [now left|right; auto].
Qed.

Lemma matchFuncs_unnamed_subset locs found : forall funcs unnamed x,
  In x (snd (fst (matchFuncs locs found (funcs, unnamed)))) -> In x unnamed.
Proof.
  induction found as [|func rest IH]; intros funcs unnamed x; cbn [matchFuncs];
    [auto|].
  unfold matchFun. cbn [fst snd].
  destruct (StdMap.find (fst func) funcs) as [e|].
  - specialize (IH (StdMap.erase (fst func) funcs) unnamed x).
    now destruct (matchFuncs locs rest _) as [[f' u'] d2].
  - specialize (IH funcs (eraseFirst FuncDecl_eq_dec (snd func) unnamed) x).
    destruct (matchFuncs locs rest _) as [[f' u'] d2]. cbn [fst snd] in *.
    intros Hin. eapply eraseFirst_In, IH, Hin.
Qed.

Lemma matchStructs_unnamed_subset locs found : forall structs vs us x,
  In x (snd (fst (matchStructs locs found (structs, vs, us)))) -> In x us.
Proof.
  induction found as [|record rest IH]; intros structs vs us x; cbn [matchStructs];
    [auto|].
  cbn [matchStruct].
  destruct (StdMap.find (fst record) structs) as [e|].
  - specialize (IH (StdMap.erase (fst record) structs) vs us x).
    now destruct (matchStructs locs rest _) as [[[s' v'] u'] d2].
  - destruct (findVarRec (snd record) vs) as [pm|].
    + specialize (IH structs (StdMap.erase (fst pm) vs) us x).
      now destruct (matchStructs locs rest _) as [[[s' v'] u'] d2].
    + specialize (IH structs vs (eraseFirst ParamMap_eq_dec (snd record) us) x).
      destruct (matchStructs locs rest _) as [[[s' v'] u'] d2]. cbn [fst snd] in *.
      intros Hin. eapply eraseFirst_In, IH, Hin.
Qed.

(** Matching only removes: whatever is left over for the missing report,
    in any of the five categories, is an entry of the resolved catalog. *)
Theorem leftover_only_expected (decls : Declarations) (st : Found) :
  let resolved := fst (resolveDeclarations decls st) in
  let rest := leftover decls st in
  (forall x, In x (functions rest) -> In x (functions resolved)) /\
  (forall x, In x (structs rest) -> In x (structs resolved)) /\
  (forall x, In x (unnamedFunctions rest) -> In x (unnamedFunctions resolved)) /\
  (forall x, In x (unnamedStructs rest) -> In x (unnamedStructs resolved)) /\
  (forall x, In x (varStructs rest) -> In x (varStructs resolved)).
Proof.
  intros resolved rest.
  destruct (leftover_subset decls st) as (H1 & H2 & H5). fold resolved in H1, H2, H5.
  fold rest in H1, H2, H5.
  split; [exact H1|]. split; [exact H2|].
  split; [|split; [|exact H5]]; unfold rest, leftover; fold resolved;
    rewrite matchAll_parts; cbn [fst unnamedFunctions unnamedStructs].
  - apply matchFuncs_unnamed_subset.
  - apply matchStructs_unnamed_subset.
Qed.

(** The diagnostics of a run and its missing named entries, in full: one
    diagnostic for each observed function, in name order, whose name is
    expected with another resolved signature, then one for each such
    record; and a named entry is missing exactly when it is in the
    resolved catalog and its name was not observed. *)
Theorem run_named_outcome (decls : Declarations) (st : Found)
    (Hst : wellFormed st) :
  let resolved := fst (resolveDeclarations decls st) in
  diagnostics (onEndOfTranslationUnit decls st) =
    (flat_map (mismatchOf (funcLocMap st) (functions resolved)) (foundFuncs st)
     ++ flat_map (mismatchOfStruct (funcLocMap st) (structs resolved))
                 (foundStructs st))%list /\
  (forall n, StdMap.find n (functions (leftover decls st)) =
             match StdMap.find n (foundFuncs st) with
             | Some _ => None
             | None => StdMap.find n (functions resolved)
             end) /\
  (forall n, StdMap.find n (structs (leftover decls st)) =
             match StdMap.find n (foundStructs st) with
             | Some _ => None
             | None => StdMap.find n (structs resolved)
             end).
Proof.
  intros resolved. destruct Hst as (W1 & _ & W3 & _).
  assert (Sf : StdMap.sorted (functions resolved)).
  { unfold resolved. rewrite resolveDeclarations_parts. apply resolveNamed_sorted. }
  assert (Ss : StdMap.sorted (structs resolved)).
  { unfold resolved. rewrite resolveDeclarations_parts. apply resolveNamed_sorted. }
  pose proof (matchFuncs_spec (funcLocMap st) (foundFuncs st) (functions resolved)
                (unnamedFunctions resolved) W1 Sf) as Hf.
  pose proof (matchStructs_spec (funcLocMap st) (foundStructs st) (structs resolved)
                (varStructs resolved) (unnamedStructs resolved) W3 Ss) as Hs.
  rewrite onEndOfTranslationUnit_parts. unfold leftover. fold resolved.
  rewrite matchAll_parts. cbn [diagnostics fst snd functions structs].
  destruct (matchFuncs _ _ _) as [[f' u'] d1].
  destruct (matchStructs _ _ _) as [[[s' v'] us'] d2]. cbn [fst snd].
  destruct Hf as (_ & Hf1 & ->). destruct Hs as (Hs1 & ->). auto.
Qed.

Lemma run_named_outcome_witness :
  diagnostics (onEndOfTranslationUnit (mkDeclarations fooExpected [] [] [] [])
                 (observe fooVisit nothingFound)) =
  [mismatch (Some 7) "(int: 1) -> int" "(char: 1, int: 1) -> int"].
Proof.
  exact (proj1 (run_named_outcome (mkDeclarations fooExpected [] [] [] [])
                  (observe fooVisit nothingFound)
                  (observe_wellFormed fooVisit _ nothingFound_wellFormed))).
Defined.

(** ** The location of a record diagnostic *)

Lemma observe_structLocMap nodes : forall st n,
  wellFormed st ->
  StdMap.find n (structLocMap (observe nodes st)) =
  match StdMap.find n (structLocMap st) with
  | Some old => Some old
  | None => option_map rd_location (hd_error (recordsNamed n nodes))
  end.
Proof.
  induction nodes as [|r rest IH]; intros st n W.
  - simpl. now destruct (StdMap.find n (structLocMap st)).
  - change (observe (r :: rest) st) with (observe rest (check r st)).
    rewrite IH by now apply check_wellFormed.
    destruct W as (_ & _ & _ & W4).
    destruct r as [d|d|d]; simpl.
    + unfold checkFun. now destruct (String.eqb (fd_name d) "main").
    + rewrite find_insert by assumption.
      destruct (String.eqb_spec n (rd_name d)) as [->|Nn].
      * rewrite String.eqb_refl.
        now destruct (StdMap.find (rd_name d) (structLocMap st)).
      * destruct (String.eqb_spec (rd_name d) n) as [E|_]; [congruence|].
        reflexivity.
    + unfold checkTypedef. destruct (td_record d) as [rd|]; [|reflexivity].
      simpl. rewrite find_insert by assumption.
      destruct (String.eqb_spec n (td_name d)) as [->|Nn].
      * rewrite String.eqb_refl.
        now destruct (StdMap.find (td_name d) (structLocMap st)).
      * destruct (String.eqb_spec (td_name d) n) as [E|_]; [congruence|].
        reflexivity.
Qed.

(** The diagnostics of a run over a visit: those of the function loop,
    then those of the record loop. *)
Lemma run_diagnostics decls st :
  wellFormed st ->
  let resolved := fst (resolveDeclarations decls st) in
  diagnostics (onEndOfTranslationUnit decls st) =
    (flat_map (mismatchOf (funcLocMap st) (functions resolved)) (foundFuncs st)
     ++ flat_map (mismatchOfStruct (funcLocMap st) (structs resolved))
                 (foundStructs st))%list.
Proof.
  intros (W1 & _ & W3 & _) resolved.
  assert (Sf : StdMap.sorted (functions resolved)).
  { unfold resolved. rewrite resolveDeclarations_parts. apply resolveNamed_sorted. }
  assert (Ss : StdMap.sorted (structs resolved)).
  { unfold resolved. rewrite resolveDeclarations_parts. apply resolveNamed_sorted. }
  pose proof (matchFuncs_spec (funcLocMap st) (foundFuncs st) (functions resolved)
                (unnamedFunctions resolved) W1 Sf) as Hf.
  pose proof (matchStructs_spec (funcLocMap st) (foundStructs st) (structs resolved)
                (varStructs resolved) (unnamedStructs resolved) W3 Ss) as Hs.
  rewrite onEndOfTranslationUnit_parts. fold resolved.
  rewrite matchAll_parts. cbn [diagnostics fst snd].
  destruct (matchFuncs _ _ _) as [[f' u'] d1].
  destruct (matchStructs _ _ _) as [[[s' v'] us'] d2]. cbn [fst snd].
  destruct Hf as (_ & _ & ->). now destruct Hs as (_ & ->).
Qed.

(** C10: the record loop of a run takes the location of its mismatch
    diagnostic from [funcLocMap]: the diagnostics of the run are those of
    the function loop followed by one for each observed record whose
    name is expected with another shape, located at the first function
    declaration of the record's name.  Such a diagnostic is emitted
    whether or not a function of that name was visited: for a name that
    only a record carries the lookup finds nothing and its result is
    used all the same.  [structLocMap] holds the location of the record
    and has no influence on the run. *)
Theorem record_mismatch_uses_funcLocMap (nodes : list MatchResult)
    (decls : Declarations) :
  let st := observe nodes nothingFound in
  let resolved := fst (resolveDeclarations decls st) in
  diagnostics (onEndOfTranslationUnit decls st) =
    (flat_map (mismatchOf (funcLocMap st) (functions resolved)) (foundFuncs st)
     ++ flat_map (recordDiagnostics nodes (structs resolved))
                 (foundStructs st))%list /\
  (forall n rd expected,
     hd_error (recordsNamed n nodes) = Some rd ->
     StdMap.find n (structs resolved) = Some expected ->
     shapeOf rd <> expected ->
     In (mismatch (functionLocation n nodes)
                  (prettyMapAsStruct expected) (prettyMapAsStruct (shapeOf rd)))
        (diagnostics (onEndOfTranslationUnit decls st)) /\
     StdMap.find n (funcLocMap st) = functionLocation n nodes /\
     StdMap.find n (structLocMap st) = Some (rd_location rd)) /\
  (forall n, functionsNamed n nodes = [] -> functionLocation n nodes = None) /\
  (forall ff fl fs sl sl',
     onEndOfTranslationUnit decls (mkFound ff fl fs sl) =
     onEndOfTranslationUnit decls (mkFound ff fl fs sl')).
Proof.
  intros st resolved.
  pose proof (observe_wellFormed nodes _ nothingFound_wellFormed) as W.
  fold st in W.
  assert (Hloc : forall n, StdMap.find n (funcLocMap st) = functionLocation n nodes).
  { intros n. unfold st, functionLocation.
    now rewrite observe_funcLocMap by apply nothingFound_wellFormed. }
  assert (Hd : diagnostics (onEndOfTranslationUnit decls st) =
    (flat_map (mismatchOf (funcLocMap st) (functions resolved)) (foundFuncs st)
     ++ flat_map (recordDiagnostics nodes (structs resolved))
                 (foundStructs st))%list).
  { rewrite (run_diagnostics decls st W). fold resolved. f_equal.
    apply flat_map_agree. intros record _.
    unfold mismatchOfStruct, recordDiagnostics. now rewrite Hloc. }
  split; [exact Hd|]. split; [|split].
  - intros n rd expected Hrd Hexp Hne. split; [|split; [apply Hloc|]].
    + rewrite Hd. apply in_or_app. right. apply in_flat_map.
      exists (n, shapeOf rd). split.
      * apply find_In. unfold st.
        rewrite observe_foundStructs by apply nothingFound_wellFormed.
        cbn [foundStructs nothingFound StdMap.find]. now rewrite Hrd.
      * unfold recordDiagnostics. cbn [fst snd]. rewrite Hexp.
        destruct (ParamMap_eq_dec (shapeOf rd) expected); [contradiction|].
        now left.
    + unfold st. rewrite observe_structLocMap by apply nothingFound_wellFormed.
      cbn [structLocMap nothingFound StdMap.find]. now rewrite Hrd.
  - intros n Hn. unfold functionLocation. rewrite Hn.
    now destruct (String.eqb n "main").
  - reflexivity.
Qed.

(** [Point] is declared as a record only, with one [int] where two are
    expected: the diagnostic is emitted without a location, while
    [structLocMap] holds the location of the record. *)
Lemma record_mismatch_witness :
  In (mismatch None "{ int: 2; };" "{ int: 1; };")
     (diagnostics (onEndOfTranslationUnit pointExpected
                     (observe exampleVisit nothingFound))) /\
  StdMap.find "Point" (funcLocMap (observe exampleVisit nothingFound)) = None /\
  StdMap.find "Point" (structLocMap (observe exampleVisit nothingFound)) = Some 3.
Proof.
  refine (proj1 (proj2 (record_mismatch_uses_funcLocMap exampleVisit pointExpected))
            "Point" (mkRecordDecl "Point" ["int"] 3) [("int", 2%Z)] _ _ _).
  - reflexivity.
  - reflexivity.
  - discriminate.
Defined.

(** When a function carries the name of the record, the diagnostic
    about the record is located at the function. *)
Lemma record_diagnostic_at_the_function :
  diagnostics (onEndOfTranslationUnit pointExpected
                 (observe sharedNameVisit nothingFound)) =
  [mismatch (Some 9) "{ int: 2; };" "{ int: 1; };"].
Proof. reflexivity. Qed.

Lemma flat_map_none {A B : Type} (l : list A) :
  flat_map (fun _ => @nil B) l = [].
Proof. induction l as [|a r IH]; [reflexivity|exact IH]. Qed.

Lemma find_all_None {V : Type} (m : StdMap.t V) :
  (forall n, StdMap.find n m = None) -> m = [].
Proof.
  destruct m as [|[k v] r]; [reflexivity|]. intros H. specialize (H k).
  cbn in H. rewrite String.eqb_refl in H. discriminate.
Qed.

Lemma In_nil_all {A : Type} (l : list A) : (forall x, In x l -> False) -> l = [].
Proof. destruct l as [|a r]; [reflexivity|]. intros H. destruct (H a). now left. Qed.

(** The report is empty exactly when nothing is left over: a category
    without entries prints no title. *)
Theorem report_empty_iff (rest : Declarations) :
  report rest = [] <->
  functions rest = [] /\ structs rest = [] /\ unnamedFunctions rest = [] /\
  unnamedStructs rest = [] /\ varStructs rest = [].
Proof.
  split.
  - unfold report. cbn [List.concat]. intros H.
    destruct (functions rest); [|discriminate].
    destruct (structs rest); [|discriminate].
    destruct (unnamedFunctions rest); [|discriminate].
    destruct (unnamedStructs rest); [|discriminate].
    destruct (varStructs rest); [|discriminate]. auto.
  - intros (H1 & H2 & H3 & H4 & H5). unfold report. now rewrite H1, H2, H3, H4, H5.
Qed.

(** A translation unit that declares every expected function and record
    of a plain catalog of named entries with the expected signature or
    shape gives no diagnostic and no line of output, whatever else it
    declares. *)
Theorem exact_match_is_silent (decls : Declarations) (st : Found)
    (Hplain : plainCatalog decls)
    (Hnamed : unnamedFunctions decls = [] /\ unnamedStructs decls = [] /\
              varStructs decls = [])
    (Hst : wellFormed st)
    (Hfuncs : forall n e, StdMap.find n (functions decls) = Some e ->
                          StdMap.find n (foundFuncs st) = Some e)
    (Hstructs : forall n e, StdMap.find n (structs decls) = Some e ->
                            StdMap.find n (foundStructs st) = Some e) :
  onEndOfTranslationUnit decls st = mkOutput [] [].
Proof.
  destruct Hnamed as (Huf & Hus & Hvs).
  pose proof (resolveDeclarations_plain decls st Hplain) as Hres.
  assert (Hbind : bindVars decls st = ([], [])).
  { unfold bindVars. now rewrite Hvs. }
  rewrite Hbind in Hres. cbn [snd] in Hres.
  destruct (run_named_outcome decls st Hst) as (Hd & Hlf & Hls).
  destruct (leftover_only_expected decls st) as (_ & _ & L3 & L4 & L5).
  rewrite Hres in Hd, Hlf, Hls, L3, L4, L5. cbn [fst] in Hd, Hlf, Hls, L3, L4, L5.
  destruct Hst as (W1 & _ & W3 & _).
  rewrite onEndOfTranslationUnit_parts in Hd |- *. cbn [diagnostics] in Hd.
  rewrite Hd, Hres. cbn [snd app].
  f_equal.
  - assert (E1 : flat_map (mismatchOf (funcLocMap st) (functions decls)) (foundFuncs st) = []).
    { rewrite (flat_map_agree _ (fun _ => [])); [apply flat_map_none|].
      intros [k sig] Hin. unfold mismatchOf. cbn [fst snd].
      destruct (StdMap.find k (functions decls)) as [e|] eqn:F; [|reflexivity].
      apply Hfuncs in F. apply (In_find _ _ _ W1) in Hin.
      assert (e = sig) as -> by congruence.
      now destruct (FuncDecl_eq_dec sig sig). }
    assert (E2 : flat_map (mismatchOfStruct (funcLocMap st) (structs decls))
                          (foundStructs st) = []).
    { rewrite (flat_map_agree _ (fun _ => [])); [apply flat_map_none|].
      intros [k shape] Hin. unfold mismatchOfStruct. cbn [fst snd].
      destruct (StdMap.find k (structs decls)) as [e|] eqn:F; [|reflexivity].
      apply Hstructs in F. apply (In_find _ _ _ W3) in Hin.
      assert (e = shape) as -> by congruence.
      now destruct (ParamMap_eq_dec shape shape). }
    now rewrite E1, E2.
  - apply report_empty_iff. repeat split.
    + apply find_all_None. intros n. rewrite Hlf.
      destruct (StdMap.find n (foundFuncs st)) eqn:Ff; [reflexivity|].
      destruct (StdMap.find n (functions decls)) as [e|] eqn:F; [|reflexivity].
      apply Hfuncs in F. congruence.
    + apply find_all_None. intros n. rewrite Hls.
      destruct (StdMap.find n (foundStructs st)) eqn:Ff; [reflexivity|].
      destruct (StdMap.find n (structs decls)) as [e|] eqn:F; [|reflexivity].
      apply Hstructs in F. congruence.
    + apply In_nil_all. intros x Hin. apply L3 in Hin. now rewrite Huf in Hin.
    + apply In_nil_all. intros x Hin. apply L4 in Hin. now rewrite Hus in Hin.
    + apply In_nil_all. intros x Hin. apply L5 in Hin. now rewrite Hvs in Hin.
Qed.

Lemma plainCatalog_foo : plainCatalog (mkDeclarations fooExpected [] [] [] []).
Proof.
  unfold plainCatalog. cbn [functions structs unnamedFunctions unnamedStructs varStructs].
  split; [split; [sorted_by_computation|]|].
  { intros n f [[= <- <-]|[]]. split; [exact plainParams_int|reflexivity]. }
  split; [split; [constructor|intros n p []]|].
  split; [intros f []|]. split; [intros p []|].
  split; [constructor|intros n p []].
Qed.

(** [int foo(int)] and an unexpected [void bar(char)] against the
    expected [foo]. *)
Lemma exact_match_witness :
  onEndOfTranslationUnit (mkDeclarations fooExpected [] [] [] [])
    (observe [MatchedFun (mkFunctionDecl "foo" ["int"] "int" 3);
              MatchedFun (mkFunctionDecl "bar" ["char"] "void" 9)] nothingFound) =
  mkOutput [] [].
Proof.
  apply exact_match_is_silent.
  - exact plainCatalog_foo.
  - repeat split.
  - apply observe_wellFormed, nothingFound_wellFormed.
  - intros n e. cbn. destruct (String.eqb_spec n "foo") as [->|Hne]; [|discriminate].
    intros [= <-]. reflexivity.
  - intros n e. cbn. discriminate.
Defined.

(** ** More on observation *)

(** A declaration whose names are all known already. *)
Lemma checkFun_known d st old loc :
  wellFormed st ->
  StdMap.find (fd_name d) (foundFuncs st) = Some old ->
  StdMap.find (fd_name d) (funcLocMap st) = Some loc ->
  checkFun d st = st.
Proof.
  intros (W1 & W2 & _) F L. unfold checkFun.
  destruct (String.eqb (fd_name d) "main"); [reflexivity|].
  rewrite (insert_present _ _ _ _ W1 F), (insert_present _ _ _ _ W2 L).
  now destruct st.
Qed.

Lemma checkStruct_known d n st old loc :
  wellFormed st ->
  let name := match n with Some x => x | None => rd_name d end in
  StdMap.find name (foundStructs st) = Some old ->
  StdMap.find name (structLocMap st) = Some loc ->
  checkStruct d n st = st.
Proof.
  intros (_ & _ & W3 & W4) name F L. unfold checkStruct. fold name.
  rewrite (insert_present _ _ _ _ W3 F), (insert_present _ _ _ _ W4 L).
  now destruct st.
Qed.

(** The signature map and the location map of the functions always have
    the same names, and so have the two maps of the records. *)
Lemma observe_same_names nodes : forall st,
  wellFormed st ->
  (forall n, StdMap.find n (foundFuncs st) = None <->
             StdMap.find n (funcLocMap st) = None) ->
  (forall n, StdMap.find n (foundStructs st) = None <->
             StdMap.find n (structLocMap st) = None) ->
  let st' := observe nodes st in
  (forall n, StdMap.find n (foundFuncs st') = None <->
             StdMap.find n (funcLocMap st') = None) /\
  (forall n, StdMap.find n (foundStructs st') = None <->
             StdMap.find n (structLocMap st') = None).
Proof.
  induction nodes as [|r rest IH]; intros st W Hf Hs; [now split|].
  change (observe (r :: rest) st) with (observe rest (check r st)).
  apply IH; [now apply check_wellFormed| |]; destruct W as (W1 & W2 & W3 & W4).
  - intros n. destruct r as [d|d|d]; cbn [check]; try apply Hf.
    + unfold checkFun. destruct (String.eqb (fd_name d) "main"); [apply Hf|].
      cbn [foundFuncs funcLocMap]. rewrite !find_insert by assumption.
      destruct (String.eqb n (fd_name d)); [|apply Hf].
      destruct (StdMap.find (fd_name d) (foundFuncs st)),
               (StdMap.find (fd_name d) (funcLocMap st)); split; discriminate.
    + unfold checkTypedef. destruct (td_record d); apply Hf.
  - intros n. destruct r as [d|d|d]; cbn [check].
    + unfold checkFun. destruct (String.eqb (fd_name d) "main"); apply Hs.
    + cbn [checkStruct foundStructs structLocMap].
      rewrite !find_insert by assumption.
      destruct (String.eqb n (rd_name d)); [|apply Hs].
      destruct (StdMap.find (rd_name d) (foundStructs st)),
               (StdMap.find (rd_name d) (structLocMap st)); split; discriminate.
    + unfold checkTypedef. destruct (td_record d) as [rd|]; [|apply Hs].
      cbn [checkStruct foundStructs structLocMap].
      rewrite !find_insert by assumption.
      destruct (String.eqb n (td_name d)); [|apply Hs].
      destruct (StdMap.find (td_name d) (foundStructs st)),
               (StdMap.find (td_name d) (structLocMap st)); split; discriminate.
Qed.

(** Every observed function has a recorded location, and every observed
    record has one in [structLocMap]: in the loop over the functions the
    location that a diagnostic needs is always there. *)
Theorem observed_names_have_locations (nodes : list MatchResult) (n : string) :
  let st := observe nodes nothingFound in
  (StdMap.find n (foundFuncs st) = None <-> StdMap.find n (funcLocMap st) = None) /\
  (StdMap.find n (foundStructs st) = None <->
   StdMap.find n (structLocMap st) = None).
Proof.
  intros st.
  destruct (observe_same_names nodes nothingFound nothingFound_wellFormed)
    as [Hf Hs]; try (intros k; split; reflexivity).
  split; [apply Hf|apply Hs].
Qed.

Lemma check_covered r st : wellFormed st -> covered r st -> check r st = st.
Proof.
  intros W C. destruct r as [d|d|d]; cbn [check covered] in *.
  - destruct C as [E|[F L]].
    + unfold checkFun. now rewrite E.
    + destruct (StdMap.find (fd_name d) (foundFuncs st)) eqn:Ef; [|congruence].
      destruct (StdMap.find (fd_name d) (funcLocMap st)) eqn:El; [|congruence].
      eapply checkFun_known; eassumption.
  - destruct C as [F L].
    destruct (StdMap.find (rd_name d) (foundStructs st)) eqn:Ef; [|congruence].
    destruct (StdMap.find (rd_name d) (structLocMap st)) eqn:El; [|congruence].
    eapply (checkStruct_known d None); eassumption.
  - unfold checkTypedef. destruct (td_record d) as [rd|]; [|reflexivity].
    destruct C as [E|[F L]]; [discriminate|].
    destruct (StdMap.find (td_name d) (foundStructs st)) eqn:Ef; [|congruence].
    destruct (StdMap.find (td_name d) (structLocMap st)) eqn:El; [|congruence].
    eapply (checkStruct_known rd (Some (td_name d))); eassumption.
Qed.

Lemma find_insert_keeps {V : Type} (m : StdMap.t V) k v k' :
  StdMap.sorted m -> StdMap.find k' m <> None ->
  StdMap.find k' (StdMap.insert k v m) <> None.
Proof.
  intros Hs H. rewrite find_insert by assumption.
  destruct (String.eqb_spec k' k) as [->|_]; [|exact H].
  now destruct (StdMap.find k m).
Qed.

Lemma find_insert_same {V : Type} (m : StdMap.t V) k v :
  StdMap.sorted m -> StdMap.find k (StdMap.insert k v m) <> None.
Proof.
  intros Hs. rewrite find_insert, String.eqb_refl by assumption.
  now destruct (StdMap.find k m).
Qed.

Lemma check_keeps_covered r r' st :
  wellFormed st -> covered r st -> covered r (check r' st).
Proof.
  intros (W1 & W2 & W3 & W4) C.
  destruct r' as [d'|d'|d']; cbn [check].
  - unfold checkFun. destruct (String.eqb (fd_name d') "main"); [exact C|].
    destruct r as [d|d|d]; cbn [covered foundFuncs funcLocMap foundStructs structLocMap] in *;
      try exact C.
    destruct C as [E|[F L]]; [now left|right].
    split; now apply find_insert_keeps.
  - destruct r as [d|d|d];
      cbn [covered checkStruct foundFuncs funcLocMap foundStructs structLocMap] in *;
      try exact C.
    + destruct C as [F L]. split; now apply find_insert_keeps.
    + destruct C as [E|[F L]]; [now left|right]. split; now apply find_insert_keeps.
  - unfold checkTypedef. destruct (td_record d') as [rd'|]; [|exact C].
    destruct r as [d|d|d];
      cbn [covered checkStruct foundFuncs funcLocMap foundStructs structLocMap] in *;
      try exact C.
    + destruct C as [F L]. split; now apply find_insert_keeps.
    + destruct C as [E|[F L]]; [now left|right]. split; now apply find_insert_keeps.
Qed.

Lemma check_covers r st : wellFormed st -> covered r (check r st).
Proof.
  intros (W1 & W2 & W3 & W4). destruct r as [d|d|d]; cbn [check covered].
  - unfold checkFun. destruct (String.eqb_spec (fd_name d) "main") as [E|_];
      [now left|right].
    cbn [foundFuncs funcLocMap]. split; now apply find_insert_same.
  - cbn [checkStruct foundStructs structLocMap]. split; now apply find_insert_same.
  - unfold checkTypedef. destruct (td_record d) as [rd|]; [right|now left].
    cbn [checkStruct foundStructs structLocMap]. split; now apply find_insert_same.
Qed.

Lemma observe_keeps_covered nodes : forall r st,
  wellFormed st -> covered r st -> covered r (observe nodes st).
Proof.
  induction nodes as [|r' rest IH]; intros r st W C; [exact C|].
  change (observe (r' :: rest) st) with (observe rest (check r' st)).
  apply IH; [now apply check_wellFormed|now apply check_keeps_covered].
Qed.

Lemma observe_covers nodes : forall st r,
  wellFormed st -> In r nodes -> covered r (observe nodes st).
Proof.
  induction nodes as [|r' rest IH]; intros st r W Hin; [destruct Hin|].
  change (observe (r' :: rest) st) with (observe rest (check r' st)).
  destruct Hin as [->|Hin].
  - apply observe_keeps_covered; [now apply check_wellFormed|now apply check_covers].
  - apply IH; [now apply check_wellFormed|exact Hin].
Qed.

Lemma observe_covered nodes : forall st,
  wellFormed st -> (forall r, In r nodes -> covered r st) -> observe nodes st = st.
Proof.
  induction nodes as [|r rest IH]; intros st W C; [reflexivity|].
  change (observe (r :: rest) st) with (observe rest (check r st)).
  rewrite check_covered by (auto; apply C; now left).
  apply IH; [exact W|]. intros r' Hin. apply C. now right.
Qed.

(** The maps are never reset and [insert] never overwrites: declarations
    under names that are known already change nothing, so visiting the
    same declarations a second time leaves the maps as they are. *)
Theorem observe_again_changes_nothing (nodes more : list MatchResult) (st : Found)
    (Hst : wellFormed st)
    (Hknown : forall r, In r more -> covered r (observe nodes st)) :
  observe more (observe nodes st) = observe nodes st /\
  observe nodes (observe nodes st) = observe nodes st.
Proof.
  assert (W : wellFormed (observe nodes st)) by now apply observe_wellFormed.
  split; apply observe_covered; auto.
  intros r Hin. now apply observe_covers.
Qed.

(** A second [struct Point] with other members is ignored. *)
Lemma observe_again_witness :
  observe [MatchedStruct (mkRecordDecl "Point" ["char"; "char"] 40)]
          (observe exampleVisit nothingFound) =
  observe exampleVisit nothingFound.
Proof.
  refine (proj1 (observe_again_changes_nothing exampleVisit
            [MatchedStruct (mkRecordDecl "Point" ["char"; "char"] 40)]
            nothingFound nothingFound_wellFormed _)).
  intros r [<-|[]]. split; discriminate.
Defined.

(** ** The loader *)

(** A configuration without the [%structs] key is loaded by the current
    loader exactly as by the one of the earlier revision. *)
Theorem loaders_agree_without_placeholders (o : list (string * Value))
    (out : Declarations) (P : Path)
    (Hkey : getProperty "%structs" o = None) :
  fromJSON_Declarations (JObject o) out P =
  Legacy.fromJSON_Declarations (JObject o) out P.
Proof.
  unfold fromJSON_Declarations, Legacy.fromJSON_Declarations. rewrite Hkey.
  destruct (loadKey (fromJSON_map fromJSON_FuncDecl emptyFuncDecl) _ _ _) as [fs [e|]];
    [reflexivity|].
  cbn [functions structs unnamedFunctions unnamedStructs varStructs].
  destruct (loadKey (fromJSON_map fromJSON_ParamMap []) _ _ _) as [ss [e|]];
    [reflexivity|].
  cbn [functions structs unnamedFunctions unnamedStructs varStructs].
  destruct (loadKey (fromJSON_vector fromJSON_FuncDecl emptyFuncDecl) _ _ _)
    as [ufs [e|]]; [reflexivity|].
  cbn [functions structs unnamedFunctions unnamedStructs varStructs].
  destruct (loadKey (fromJSON_vector fromJSON_ParamMap []) _ _ _) as [uss [e|]];
    reflexivity.
Qed.

Lemma loaders_agree_witness :
  fromJSON_Declarations (JObject [("structs*", JArray [JObject []])])
                        noDeclarations [] =
  Legacy.fromJSON_Declarations (JObject [("structs*", JArray [JObject []])])
                               noDeclarations [].
Proof.
  exact (loaders_agree_without_placeholders [("structs*", JArray [JObject []])]
           noDeclarations [] eq_refl).
Defined.

(** The loader writes only to the parts of the catalog whose key is in
    the configuration: a part whose key is absent is as it was before the
    load, whether the load succeeds or not. *)
Theorem loader_keeps_absent_parts (o : list (string * Value))
    (out : Declarations) (P : Path) :
  let loaded := fst (fromJSON_Declarations (JObject o) out P) in
  (getProperty "functions" o = None -> functions loaded = functions out) /\
  (getProperty "structs" o = None -> structs loaded = structs out) /\
  (getProperty "functions*" o = None ->
     unnamedFunctions loaded = unnamedFunctions out) /\
  (getProperty "structs*" o = None -> unnamedStructs loaded = unnamedStructs out) /\
  (getProperty "%structs" o = None -> varStructs loaded = varStructs out).
Proof.
  cbv zeta. unfold fromJSON_Declarations.
  destruct (getProperty "functions" o) as [v1|] eqn:K1;
  destruct (getProperty "structs" o) as [v2|] eqn:K2;
  destruct (getProperty "functions*" o) as [v3|] eqn:K3;
  destruct (getProperty "structs*" o) as [v4|] eqn:K4;
  destruct (getProperty "%structs" o) as [v5|] eqn:K5;
  cbn [loadKey];
  repeat match goal with
         | |- context [fromJSON_map ?a ?b ?c ?d ?e] =>
             destruct (fromJSON_map a b c d e) as [? [?|]]
         | |- context [fromJSON_vector ?a ?b ?c ?d ?e] =>
             destruct (fromJSON_vector a b c d e) as [? [?|]]
         end;
  cbn [fst functions structs unnamedFunctions unnamedStructs varStructs];
  repeat split; intros; try reflexivity; try discriminate.
Qed.

(** A configuration of unnamed records only leaves the named records of
    an earlier load in the catalog. *)
Lemma loader_keeps_absent_witness :
  structs (fst (fromJSON_Declarations (JObject [("structs*", JArray [JObject []])])
                  (mkDeclarations [] [("Point", [("int", 1%Z)])] [] [] []) [])) =
  [("Point", [("int", 1%Z)])].
Proof.
  exact (proj1 (proj2 (loader_keeps_absent_parts [("structs*", JArray [JObject []])]
                  (mkDeclarations [] [("Point", [("int", 1%Z)])] [] [] []) []))
           eq_refl).
Defined.

(** ** The earlier revision *)

Lemma Earlier_check_functions r st n :
  StdMap.sorted (functions (fst st)) ->
  StdMap.sorted (functions (fst (Earlier.check r st))) /\
  StdMap.find n (functions (fst (Earlier.check r st))) =
  match functionsNamed n [r] with
  | [] => StdMap.find n (functions (fst st))
  | _ :: _ => None
  end.
Proof.
  destruct st as [decls diags]. cbn [fst]. intros Hs.
  destruct r as [d|d|d]; cbn [Earlier.check functionsNamed flat_map app].
  - unfold Earlier.checkFun.
    destruct (StdMap.find (fd_name d) (functions decls)) as [e|] eqn:F;
      cbn [fst functions].
    + split; [now apply erase_sorted|]. rewrite find_erase by assumption.
      destruct (String.eqb_spec n (fd_name d)) as [->|Hne].
      * now rewrite String.eqb_refl.
      * destruct (String.eqb_spec (fd_name d) n) as [E|_]; [congruence|reflexivity].
    + split; [exact Hs|].
      destruct (String.eqb_spec (fd_name d) n) as [<-|_]; [exact F|reflexivity].
  - unfold Earlier.checkStruct.
    destruct (StdMap.find (rd_name d) (structs decls)); cbn [fst functions]; auto.
  - unfold Earlier.checkTypedef. destruct (td_record d) as [rd|]; [|auto].
    unfold Earlier.checkStruct.
    destruct (StdMap.find (td_name d) (structs decls)); cbn [fst functions]; auto.
Qed.

Lemma Earlier_check_structs r st n :
  StdMap.sorted (structs (fst st)) ->
  StdMap.sorted (structs (fst (Earlier.check r st))) /\
  StdMap.find n (structs (fst (Earlier.check r st))) =
  match recordsNamed n [r] with
  | [] => StdMap.find n (structs (fst st))
  | _ :: _ => None
  end.
Proof.
  destruct st as [decls diags]. cbn [fst]. intros Hs.
  assert (H : forall d name,
    StdMap.sorted (structs (fst (Earlier.checkStruct d name (decls, diags)))) /\
    StdMap.find n (structs (fst (Earlier.checkStruct d name (decls, diags)))) =
    if String.eqb (match name with Some x => x | None => rd_name d end) n
    then None else StdMap.find n (structs decls)).
  { intros d name. unfold Earlier.checkStruct.
    set (k := match name with Some x => x | None => rd_name d end).
    destruct (StdMap.find k (structs decls)) as [e|] eqn:F; cbn [fst structs].
    - split; [now apply erase_sorted|]. rewrite find_erase by assumption.
      now rewrite String.eqb_sym.
    - split; [exact Hs|].
      destruct (String.eqb_spec k n) as [<-|_]; [exact F|reflexivity]. }
  destruct r as [d|d|d]; cbn [Earlier.check recordsNamed flat_map app].
  - unfold Earlier.checkFun.
    destruct (StdMap.find (fd_name d) (functions decls)); cbn [fst structs]; auto.
  - destruct (H d None) as [H1 H2]. split; [exact H1|]. rewrite H2. cbn.
    now destruct (String.eqb (rd_name d) n).
  - unfold Earlier.checkTypedef. destruct (td_record d) as [rd|]; [|auto].
    destruct (H rd (Some (td_name d))) as [H1 H2]. split; [exact H1|]. rewrite H2.
    cbn. now destruct (String.eqb (td_name d) n).
Qed.

Lemma functionsNamed_cons n r rest :
  functionsNamed n (r :: rest) = (functionsNamed n [r] ++ functionsNamed n rest)%list.
Proof. unfold functionsNamed. cbn [flat_map]. now rewrite app_nil_r. Qed.

Lemma recordsNamed_cons n r rest :
  recordsNamed n (r :: rest) = (recordsNamed n [r] ++ recordsNamed n rest)%list.
Proof. unfold recordsNamed. cbn [flat_map]. now rewrite app_nil_r. Qed.

Lemma Earlier_observe_names nodes n : forall st,
  StdMap.sorted (functions (fst st)) -> StdMap.sorted (structs (fst st)) ->
  StdMap.find n (functions (fst (Earlier.observe nodes st))) =
    match functionsNamed n nodes with
    | [] => StdMap.find n (functions (fst st))
    | _ :: _ => None
    end /\
  StdMap.find n (structs (fst (Earlier.observe nodes st))) =
    match recordsNamed n nodes with
    | [] => StdMap.find n (structs (fst st))
    | _ :: _ => None
    end.
Proof.
  induction nodes as [|r rest IH]; intros st Wf Ws; [now split|].
  change (Earlier.observe (r :: rest) st)
    with (Earlier.observe rest (Earlier.check r st)).
  destruct (Earlier_check_functions r st n Wf) as [Wf' Hf].
  destruct (Earlier_check_structs r st n Ws) as [Ws' Hs].
  destruct (IH _ Wf' Ws') as [IHf IHs].
  rewrite (functionsNamed_cons n r rest), (recordsNamed_cons n r rest).
  rewrite IHf, IHs, Hf, Hs.
  split.
  - destruct (functionsNamed n [r]), (functionsNamed n rest); reflexivity.
  - destruct (recordsNamed n [r]), (recordsNamed n rest); reflexivity.
Qed.

(** In the earlier revision a visit removes from the catalog the named
    functions and records that it meets, [main] included, and leaves the
    other named entries for the listing of what is missing. *)
Theorem Earlier_visit_pops_visited_names (nodes : list MatchResult)
    (decls : Declarations) (diags : list Diag) (n : string)
    (Hwf : wellFormedCatalog decls) :
  let after := fst (Earlier.observe nodes (decls, diags)) in
  StdMap.find n (functions after) =
    match functionsNamed n nodes with
    | [] => StdMap.find n (functions decls)
    | _ :: _ => None
    end /\
  StdMap.find n (structs after) =
    match recordsNamed n nodes with
    | [] => StdMap.find n (structs decls)
    | _ :: _ => None
    end.
Proof.
  destruct Hwf as (Wf & Ws & _).
  exact (Earlier_observe_names nodes n (decls, diags) Wf Ws).
Qed.

Lemma Earlier_visit_witness :
  StdMap.find "main"
    (functions (fst (Earlier.observe mainVisit (mainExpected, [])))) = None.
Proof.
  refine (proj1 (Earlier_visit_pops_visited_names mainVisit mainExpected [] "main" _)).
  repeat split; sorted_by_computation.
Defined.

Lemma Earlier_check_emits r decls diags :
  Earlier.check r (decls, diags) =
  (fst (Earlier.check r (decls, [])), app diags (emittedBy r decls)).
Proof.
  assert (H : forall rd name,
    Earlier.checkStruct rd name (decls, diags) =
    (fst (Earlier.checkStruct rd name (decls, [])),
     app diags (snd (Earlier.checkStruct rd name (decls, []))))).
  { intros rd name. unfold Earlier.checkStruct.
    destruct (StdMap.find _ (structs decls)) as [e|]; cbn [fst snd];
      [|now rewrite app_nil_r].
    destruct (ParamMap_eq_dec e _); [now rewrite app_nil_r|reflexivity]. }
  unfold emittedBy. destruct r as [fd|rd|td]; cbn [Earlier.check].
  - unfold Earlier.checkFun.
    destruct (StdMap.find _ (functions decls)) as [e|]; cbn [fst snd];
      [|now rewrite app_nil_r].
    destruct (FuncDecl_eq_dec _ e); [now rewrite app_nil_r|reflexivity].
  - apply H.
  - unfold Earlier.checkTypedef. destruct (td_record td) as [rd|]; [apply H|].
    cbn [fst snd]. now rewrite app_nil_r.
Qed.

(** One visit emits at most one diagnostic, at the location of the
    declaration behind the node. *)
Lemma emittedBy_location r decls d :
  In d (emittedBy r decls) ->
  emittedBy r decls = [d] /\
  exists loc, nodeLocation r = Some loc /\ location d = Some loc.
Proof.
  assert (H : forall rd name,
    In d (snd (Earlier.checkStruct rd name (decls, []))) ->
    snd (Earlier.checkStruct rd name (decls, [])) = [d] /\
    location d = Some (rd_location rd)).
  { intros rd name. unfold Earlier.checkStruct.
    destruct (StdMap.find _ (structs decls)) as [e|]; cbn [snd]; [|intros []].
    destruct (ParamMap_eq_dec e _); [intros []|].
    intros [<-|[]]. split; reflexivity. }
  unfold emittedBy. destruct r as [fd|rd|td]; cbn [Earlier.check nodeLocation].
  - unfold Earlier.checkFun.
    destruct (StdMap.find _ (functions decls)) as [e|]; cbn [snd]; [|intros []].
    destruct (FuncDecl_eq_dec _ e); [intros []|].
    intros [<-|[]]. split; [reflexivity|]. now exists (fd_location fd).
  - intros Hin. apply H in Hin as [E L]. split; [exact E|].
    now exists (rd_location rd).
  - unfold Earlier.checkTypedef. destruct (td_record td) as [rd|]; [|intros []].
    intros Hin. apply H in Hin as [E L]. split; [exact E|].
    now exists (rd_location rd).
Qed.

Lemma Earlier_observe_keeps nodes d : forall st,
  In d (snd st) -> In d (snd (Earlier.observe nodes st)).
Proof.
  induction nodes as [|r rest IH]; intros st Hin; [exact Hin|].
  change (Earlier.observe (r :: rest) st)
    with (Earlier.observe rest (Earlier.check r st)).
  apply IH. destruct st as [decls diags]. rewrite Earlier_check_emits.
  cbn [snd] in *. apply in_or_app. now left.
Qed.

Lemma Earlier_observe_app pre post st :
  Earlier.observe (pre ++ post)%list st =
  Earlier.observe post (Earlier.observe pre st).
Proof. unfold Earlier.observe. apply fold_left_app. Qed.

Lemma Earlier_observe_emitted nodes d : forall st,
  In d (snd (Earlier.observe nodes st)) ->
  In d (snd st) \/
  exists pre r post,
    nodes = (pre ++ r :: post)%list /\
    In d (emittedBy r (fst (Earlier.observe pre st))).
Proof.
  induction nodes as [|r rest IH]; intros st Hin; [now left|].
  change (Earlier.observe (r :: rest) st)
    with (Earlier.observe rest (Earlier.check r st)) in Hin.
  apply IH in Hin as [Hin|(pre & r' & post & E & Hin)].
  - destruct st as [decls diags]. rewrite Earlier_check_emits in Hin.
    cbn [snd] in Hin. apply in_app_or in Hin as [Hin|Hin]; [now left|].
    right. exists [], r, rest. split; [reflexivity|exact Hin].
  - right. exists (r :: pre), r', post. split; [now rewrite E|exact Hin].
Qed.

(** In the earlier revision every diagnostic of a visit is the one
    diagnostic that the visit of some node emits, in the catalog as the
    nodes before it have left it, and it is located at the declaration
    behind that very node: the function, the record, or the record
    behind the typedef.  Conversely, nothing a visit emits is lost. *)
Theorem Earlier_diagnostics_at_declarations (nodes : list MatchResult)
    (decls : Declarations) :
  (forall d, In d (snd (Earlier.observe nodes (decls, []))) ->
     exists pre r post loc,
       nodes = (pre ++ r :: post)%list /\
       emittedBy r (fst (Earlier.observe pre (decls, []))) = [d] /\
       nodeLocation r = Some loc /\ location d = Some loc) /\
  (forall pre r post d, nodes = (pre ++ r :: post)%list ->
     In d (emittedBy r (fst (Earlier.observe pre (decls, [])))) ->
     In d (snd (Earlier.observe nodes (decls, [])))).
Proof.
  split.
  - intros d Hin.
    apply Earlier_observe_emitted in Hin as [[]|(pre & r & post & E & Hin)].
    apply emittedBy_location in Hin as (E1 & loc & L1 & L2).
    exists pre, r, post, loc. auto.
  - intros pre r post d -> Hin.
    change (pre ++ r :: post)%list with (pre ++ [r] ++ post)%list.
    rewrite !Earlier_observe_app. apply Earlier_observe_keeps.
    cbn [Earlier.observe fold_left].
    destruct (Earlier.observe pre (decls, [])) as [decls' diags'].
    rewrite Earlier_check_emits. cbn [fst snd] in *. apply in_or_app. now right.
Qed.

(** Of a function and a typedef that both miss what is expected, the
    diagnostic for [Point] is the one emitted at the record behind the
    typedef. *)
Lemma Earlier_diagnostics_witness :
  exists pre r post loc,
    [MatchedFun (mkFunctionDecl "foo" ["char"] "int" 7);
     MatchedTypedef
       (mkTypedefDecl "Point" (Some (mkRecordDecl "" ["int"; "int"] 12)))] =
      (pre ++ r :: post)%list /\
    emittedBy r
      (fst (Earlier.observe pre
              (mkDeclarations fooExpected [("Point", [("int", 1%Z)])] [] [] [],
               []))) =
      [mkDiag (Some 12) "Wrong members of '%0': should consist of %1"
              "Point" "{ int: 1; };"] /\
    nodeLocation r = Some loc /\
    location (mkDiag (Some 12) "Wrong members of '%0': should consist of %1"
                     "Point" "{ int: 1; };") = Some loc.
Proof.
  refine (proj1 (Earlier_diagnostics_at_declarations
            [MatchedFun (mkFunctionDecl "foo" ["char"] "int" 7);
             MatchedTypedef
               (mkTypedefDecl "Point" (Some (mkRecordDecl "" ["int"; "int"] 12)))]
            (mkDeclarations fooExpected [("Point", [("int", 1%Z)])] [] [] []))
            (mkDiag (Some 12) "Wrong members of '%0': should consist of %1"
                    "Point" "{ int: 1; };") _).
  right. now left.
Defined.

(** On a plain catalog the two revisions agree on which named functions
    and records are missing after a visit, except for [main], which only
    the earlier one takes as found. *)
Theorem revisions_agree_on_missing_names (nodes : list MatchResult)
    (decls : Declarations) (n : string)
    (Hplain : plainCatalog decls) :
  let now_ := leftover decls (observe nodes nothingFound) in
  let before := fst (Earlier.observe nodes (decls, [])) in
  (n <> "main" -> StdMap.find n (functions now_) = StdMap.find n (functions before)) /\
  StdMap.find "main" (functions now_) = StdMap.find "main" (functions decls) /\
  StdMap.find n (structs now_) = StdMap.find n (structs before).
Proof.
  intros now_ before.
  pose proof (observe_wellFormed nodes _ nothingFound_wellFormed) as W.
  destruct (run_named_outcome decls (observe nodes nothingFound) W) as (_ & Hf & Hs).
  rewrite (resolveDeclarations_plain decls _ Hplain) in Hf, Hs. cbn [fst] in Hf, Hs.
  assert (Hwf : wellFormedCatalog decls).
  { destruct Hplain as ((Sf & _) & (Ss & _) & _ & _ & (Sv & _)). now repeat split. }
  destruct (Earlier_visit_pops_visited_names nodes decls [] n Hwf) as [Ef Es].
  fold before in Ef, Es. fold now_ in Hf, Hs.
  split; [|split].
  - intros Hne. rewrite Hf, Ef.
    rewrite observe_foundFuncs by apply nothingFound_wellFormed. cbn [StdMap.find nothingFound foundFuncs].
    apply String.eqb_neq in Hne. rewrite Hne.
    now destruct (functionsNamed n nodes).
  - rewrite Hf, observe_foundFuncs by apply nothingFound_wellFormed.
    reflexivity.
  - rewrite Hs, Es. rewrite observe_foundStructs by apply nothingFound_wellFormed.
    cbn [StdMap.find nothingFound foundStructs].
    now destruct (recordsNamed n nodes).
Qed.

Lemma revisions_agree_witness :
  StdMap.find "foo"
    (functions (leftover (mkDeclarations fooExpected [] [] [] [])
                         (observe fooVisit nothingFound))) =
  StdMap.find "foo"
    (functions (fst (Earlier.observe fooVisit
                       (mkDeclarations fooExpected [] [] [] [], [])))).
Proof.
  refine (proj1 (revisions_agree_on_missing_names fooVisit
                   (mkDeclarations fooExpected [] [] [] []) "foo" plainCatalog_foo) _).
  discriminate.
Defined.

(** ** Type strings that resolve to the same name *)

Lemma resolveParamsLoop_first params varMap : forall ret r k,
  StdMap.sorted ret ->
  resolveParamsLoop params varMap ret = Ok r ->
  StdMap.find k r =
  match StdMap.find k ret with
  | Some c => Some c
  | None => option_map snd (List.find (resolvesTo varMap k) params)
  end.
Proof.
  induction params as [|[key c0] rest IH]; intros ret r k Hs H; cbn in H.
  - injection H as <-. now destruct (StdMap.find k ret).
  - destruct (parseType key); [|discriminate].
    destruct (resolveVar key varMap) as [var|] eqn:R; [|discriminate].
    rewrite (IH _ _ k (insert_sorted _ var c0 Hs) H).
    rewrite find_insert by assumption.
    cbn [List.find]. unfold resolvesTo at 2. cbn [fst]. rewrite R.
    destruct (String.eqb_spec k var) as [->|Hne].
    + rewrite String.eqb_refl. now destruct (StdMap.find var ret).
    + destruct (String.eqb_spec var k) as [E|_]; [congruence|reflexivity].
Qed.

(** When several type strings of a shape resolve to the same name, the
    resolved shape holds that name once, with the count of the first of
    them in key order: the counts are not added. *)
Theorem resolveParams_keeps_first_count (params r : ParamMap)
    (varMap : StdMap.t string) (k : string)
    (Hres : resolveParams params varMap = Ok r) :
  StdMap.find k r = option_map snd (List.find (resolvesTo varMap k) params).
Proof.
  unfold resolveParams in Hres.
  now rewrite (resolveParamsLoop_first params varMap [] r k (StdMap.sorted_nil) Hres).
Qed.

(** Two [Node] and one [struct Node] are resolved to two [Node], not
    three. *)
Lemma resolveParams_first_count_witness :
  StdMap.find "Node" [("Node", 2%Z)] =
  option_map snd
    (List.find (resolvesTo [] "Node") [("Node", 2%Z); ("struct Node", 1%Z)]).
Proof.
  exact (resolveParams_keeps_first_count
           [("Node", 2%Z); ("struct Node", 1%Z)] [("Node", 2%Z)] [] "Node" eq_refl).
Defined.

(** ** Placeholder binding and substitution *)

Lemma find_app_first {A : Type} (p : A -> bool) (l1 l2 : list A) :
  List.find p (l1 ++ l2)%list =
  match List.find p l1 with
  | Some x => Some x
  | None => List.find p l2
  end.
Proof.
  induction l1 as [|a r IH]; cbn [app List.find]; [reflexivity|].
  now destruct (p a).
Qed.

Lemma bindVars_find decls st id :
  StdMap.find id (fst (bindVars decls st)) =
  option_map snd
    (List.find (fun c => String.eqb (fst c) id) (bindingCandidates decls st)).
Proof.
  rewrite bindVars_candidates. rewrite fold_insert_first by constructor.
  reflexivity.
Qed.

(** The first binding one template attempts for [id]. *)
Lemma candidates_of_template (var : string * ParamMap)
    (founds : StdMap.t ParamMap) (id : string) :
  option_map snd
    (List.find (fun c => String.eqb (fst c) id)
       (flat_map
          (fun found : string * ParamMap =>
             if ParamMap_eq_dec (snd var) (snd found)
             then match templateName (fst var) with
                  | Some i => [(i, fst found)]
                  | None => []
                  end
             else []) founds)) =
  match templateName (fst var) with
  | Some i => if String.eqb i id then firstOfShape (snd var) founds else None
  | None => None
  end.
Proof.
  unfold firstOfShape.
  induction founds as [|found rest IH]; cbn [flat_map List.find].
  - destruct (templateName (fst var)) as [i|]; [|reflexivity].
    now destruct (String.eqb i id).
  - rewrite find_app_first.
    destruct (ParamMap_eq_dec (snd var) (snd found)); [|exact IH].
    destruct (templateName (fst var)) as [i|]; [|exact IH].
    cbn [List.find fst]. destruct (String.eqb i id); [reflexivity|exact IH].
Qed.

Lemma first_candidate_app (id : string) (l1 l2 : list (string * string)) :
  option_map snd (List.find (fun c => String.eqb (fst c) id) (l1 ++ l2)%list) =
  match option_map snd (List.find (fun c => String.eqb (fst c) id) l1) with
  | Some t => Some t
  | None => option_map snd (List.find (fun c => String.eqb (fst c) id) l2)
  end.
Proof.
  rewrite find_app_first. now destruct (List.find _ l1).
Qed.

Lemma candidates_same_shape (founds : StdMap.t ParamMap) (id : string)
    (shape : ParamMap) (vars : StdMap.t ParamMap) :
  (forall var' shape', In (var', shape') vars ->
     templateName var' = Some id -> shape' = shape) ->
  let first :=
    option_map snd
      (List.find (fun c => String.eqb (fst c) id)
         (flat_map
            (fun var : string * ParamMap =>
               flat_map
                 (fun found : string * ParamMap =>
                    if ParamMap_eq_dec (snd var) (snd found)
                    then match templateName (fst var) with
                         | Some i => [(i, fst found)]
                         | None => []
                         end
                    else []) founds) vars)) in
  first = firstOfShape shape founds \/
  (first = None /\
   forall var' shape', In (var', shape') vars -> templateName var' <> Some id).
Proof.
  induction vars as [|[v sh] rest IH]; intros Hsame; cbn zeta.
  - right. split; [reflexivity|]. intros ? ? [].
  - specialize (IH (fun var' shape' Hin => Hsame var' shape' (or_intror Hin))).
    cbn zeta in IH.
    cbn [flat_map].
    rewrite first_candidate_app, (candidates_of_template (v, sh) founds id).
    cbn [fst snd].
    destruct (templateName v) as [i|] eqn:Tn.
    + destruct (String.eqb_spec i id) as [->|Hne].
      * assert (sh = shape) as -> by (apply (Hsame v sh); [now left|exact Tn]).
        left. destruct (firstOfShape shape founds) as [t|]; [reflexivity|].
        destruct IH as [IH|[IH _]]; exact IH.
      * destruct IH as [IH|[IH Hno]]; [now left|right].
        split; [exact IH|]. intros var' shape' [[= <- <-]|Hin]; [congruence|].
        now apply (Hno var' shape').
    + destruct IH as [IH|[IH Hno]]; [now left|right].
      split; [exact IH|]. intros var' shape' [[= <- <-]|Hin]; [congruence|].
      now apply (Hno var' shape').
Qed.

Lemma candidates_sound (founds : StdMap.t ParamMap) (id target : string)
    (vars : StdMap.t ParamMap) :
  option_map snd
    (List.find (fun c => String.eqb (fst c) id)
       (flat_map
          (fun var : string * ParamMap =>
             flat_map
               (fun found : string * ParamMap =>
                  if ParamMap_eq_dec (snd var) (snd found)
                  then match templateName (fst var) with
                       | Some i => [(i, fst found)]
                       | None => []
                       end
                  else []) founds) vars)) = Some target ->
  exists var shape,
    In (var, shape) vars /\ templateName var = Some id /\
    firstOfShape shape founds = Some target.
Proof.
  induction vars as [|[v sh] rest IH]; [discriminate|].
  cbn [flat_map].
  rewrite first_candidate_app, (candidates_of_template (v, sh) founds id).
  cbn [fst snd].
  assert (Hrest : option_map snd
    (List.find (fun c => String.eqb (fst c) id)
       (flat_map
          (fun var : string * ParamMap =>
             flat_map
               (fun found : string * ParamMap =>
                  if ParamMap_eq_dec (snd var) (snd found)
                  then match templateName (fst var) with
                       | Some i => [(i, fst found)]
                       | None => []
                       end
                  else []) founds) rest)) = Some target ->
    exists var shape,
      In (var, shape) ((v, sh) :: rest) /\ templateName var = Some id /\
      firstOfShape shape founds = Some target).
  { intros H. destruct (IH H) as (var & shape & Hin & Tn & F).
    exists var, shape. split; [now right|]. now split. }
  destruct (templateName v) as [i|] eqn:Tn; [|exact Hrest].
  destruct (String.eqb_spec i id) as [->|Hne]; [|exact Hrest].
  destruct (firstOfShape sh founds) as [t|] eqn:F; [|exact Hrest].
  intros [= <-]. exists v, sh. split; [now left|]. now split.
Qed.

(** An entry that resolves is in the resolved map under its name. *)
Lemma resolveNamed_find_resolved {A : Type} (resolve : A -> Expected A) skipped
    (m : StdMap.t A) n x r :
  StdMap.sorted m -> StdMap.find n m = Some x -> resolve x = Ok r ->
  StdMap.find n (fst (resolveNamed resolve skipped m)) = Some r.
Proof.
  intros Hs F R.
  assert (Hex : exists r', StdMap.find n (fst (resolveNamed resolve skipped m)) = Some r').
  { rewrite resolveNamed_fst.
    apply (fold_left_reach _ (fun acc => StdMap.sorted acc)
             (fun acc => exists r', StdMap.find n acc = Some r')
             _ (n, x) (find_In _ _ _ F)); [| | |constructor].
    - intros acc entry Hacc. destruct (resolve (snd entry)); auto using insert_sorted.
    - intros acc Hacc. cbv beta. cbn [fst snd]. rewrite R.
      rewrite find_insert by assumption. rewrite String.eqb_refl.
      destruct (StdMap.find n acc); eauto.
    - intros acc entry Hacc (r' & F'). exists r'. cbv beta.
      destruct (resolve (snd entry)); [|exact F'].
      rewrite find_insert by assumption.
      destruct (String.eqb_spec n (fst entry)) as [<-|_]; [now rewrite F'|exact F']. }
  destruct Hex as (r' & F'). rewrite F'.
  apply resolveNamed_find in F' as (y & Hin & Ry).
  apply In_find in Hin; [|assumption]. congruence.
Qed.

(** A shape all of whose type strings resolve is resolved. *)
Lemma resolveParamsLoop_total params varMap :
  (forall key c, In (key, c) params -> exists r, resolveVar key varMap = Ok r) ->
  forall ret, exists r, resolveParamsLoop params varMap ret = Ok r.
Proof.
  induction params as [|[key c] rest IH]; intros Hall ret; cbn [resolveParamsLoop fst snd].
  - eauto.
  - destruct (Hall key c (or_introl eq_refl)) as (r & R).
    assert (P : exists ty, parseType key = Ok ty).
    { unfold resolveVar in R. destruct (parseType key); [eauto|discriminate]. }
    destruct P as (ty & ->). rewrite R.
    apply IH. intros key' c' Hin. apply (Hall key' c'). now right.
Qed.

Lemma resolveParams_substitutes params varMap :
  resolvable varMap params ->
  exists resolved,
    resolveParams params varMap = Ok resolved /\
    resolvedShape varMap params resolved.
Proof.
  intros Hall. destruct (resolveParamsLoop_total params varMap Hall []) as (r & R).
  exists r. split; [exact R|]. intros k.
  now rewrite (resolveParamsLoop_first params varMap [] r k (StdMap.sorted_nil) R).
Qed.

Lemma resolveFunction_substitutes f varMap ret :
  resolvable varMap (pMap f) -> resolveVar (retType f) varMap = Ok ret ->
  exists params,
    resolveFunction f varMap = Ok (mkFuncDecl params ret) /\
    resolvedShape varMap (pMap f) params.
Proof.
  intros Hall Hret.
  destruct (resolveParams_substitutes (pMap f) varMap Hall) as (params & R & Hfind).
  exists params. split; [|exact Hfind]. unfold resolveFunction. now rewrite R, Hret.
Qed.

(** An entry of a vector that resolves is in the resolved vector. *)
Lemma resolveUnnamed_In {A : Type} (resolve : A -> Expected A) skipped show
    (l : list A) x r :
  In x l -> resolve x = Ok r ->
  In r (fst (resolveUnnamed resolve skipped show l)).
Proof.
  intros Hin R. unfold resolveUnnamed. rewrite resolveUnnamed_fst_from. cbn [fst].
  apply (fold_left_reach _ (fun _ => True) (fun acc => In r acc) _ x Hin); auto.
  - intros acc _. cbv beta. rewrite R. apply in_or_app. right. now left.
  - intros acc y _ Hacc. cbv beta.
    destruct (resolve y); [apply in_or_app; now left|exact Hacc].
Qed.

(** C2 (amended): the identifier of a placeholder-record template is
    read from the template's declared name, which has to parse as a plain
    identifier (["T"]); a name that parses as a placeholder (["%T"]) or
    with asterisks binds nothing.  When all the templates that declare an identifier have
    one shape (as when only one template declares it), the identifier is
    bound to the first observed record of exactly that shape, and to
    nothing when there is none; in general it is bound whenever a
    template that declares it has the shape of an observed record, and
    what it is bound to is the first observed record of the shape of
    some template that declares it.  A reference [%T] is then rewritten to the bound name with its
    asterisks: every expected declaration all of whose type strings
    resolve (a named or unnamed function or record, or a template) is in
    the resolved catalog, a named one under its name, with its return
    type resolved and, for each resolved type name, the count of the
    first type string that resolves to it.  With
    [%structs {"T": {"int": 1}}], the observed record [Point] of shape
    [{int: 1}] and the expected [f : (%T: 1) -> void], the resolved [f]
    has the parameters [{Point: 1}], and matching the observed [f(Point)]
    gives no diagnostic and nothing missing. *)
Theorem placeholder_binding_by_shape :
  (forall decls st id shape,
     (exists var, In (var, shape) (varStructs decls) /\ templateName var = Some id) ->
     (forall var' shape', In (var', shape') (varStructs decls) ->
        templateName var' = Some id -> shape' = shape) ->
     StdMap.find id (fst (bindVars decls st)) =
       firstOfShape shape (foundStructs st)) /\
  (forall decls st var shape observed id,
     In (var, shape) (varStructs decls) ->
     In (observed, shape) (foundStructs st) ->
     templateName var = Some id ->
     exists target, StdMap.find id (fst (bindVars decls st)) = Some target) /\
  (forall decls st id target,
     StdMap.find id (fst (bindVars decls st)) = Some target ->
     exists var shape,
       In (var, shape) (varStructs decls) /\ templateName var = Some id /\
       firstOfShape shape (foundStructs st) = Some target) /\
  (forall var target varMap,
     fst (associateVar var target varMap) =
     match templateName var with
     | Some id => StdMap.insert id target varMap
     | None => varMap
     end) /\
  (forall var ty, parseType var = Ok ty ->
     isVar ty = true \/ (0 < pointers ty)%Z ->
     templateName var = None) /\
  (forall s ty varMap target,
     parseType s = Ok ty -> isVar ty = true ->
     StdMap.find (name ty) varMap = Some target ->
     resolveVar s varMap =
       Ok (toString (mkTypeInfo false target (pointers ty)))) /\
  (forall decls st,
     let varMap := fst (bindVars decls st) in
     let resolved := fst (resolveDeclarations decls st) in
     (forall n f ret,
        StdMap.sorted (functions decls) ->
        StdMap.find n (functions decls) = Some f ->
        resolvable varMap (pMap f) -> resolveVar (retType f) varMap = Ok ret ->
        exists params,
          StdMap.find n (functions resolved) = Some (mkFuncDecl params ret) /\
          resolvedShape varMap (pMap f) params) /\
     (forall n p,
        StdMap.sorted (structs decls) ->
        StdMap.find n (structs decls) = Some p -> resolvable varMap p ->
        exists params,
          StdMap.find n (structs resolved) = Some params /\
          resolvedShape varMap p params) /\
     (forall f ret,
        In f (unnamedFunctions decls) ->
        resolvable varMap (pMap f) -> resolveVar (retType f) varMap = Ok ret ->
        exists params,
          In (mkFuncDecl params ret) (unnamedFunctions resolved) /\
          resolvedShape varMap (pMap f) params) /\
     (forall p,
        In p (unnamedStructs decls) -> resolvable varMap p ->
        exists params,
          In params (unnamedStructs resolved) /\ resolvedShape varMap p params) /\
     (forall n p,
        StdMap.sorted (varStructs decls) ->
        StdMap.find n (varStructs decls) = Some p -> resolvable varMap p ->
        exists params,
          StdMap.find n (varStructs resolved) = Some params /\
          resolvedShape varMap p params)) /\
  (let decls := exampleTemplates "T" in
   let st := observe exampleVisit nothingFound in
   fst (bindVars decls st) = [("T", "Point")] /\
   StdMap.find "f" (functions (fst (resolveDeclarations decls st))) =
     Some (mkFuncDecl [("Point", 1%Z)] "void") /\
   onEndOfTranslationUnit decls st = mkOutput [] []).
Proof.
  split; [|split; [|split; [|split; [|split; [|split; [|split]]]]]].
  - intros decls st id shape (var & Hin & Tn) Hsame.
    rewrite bindVars_find. unfold bindingCandidates.
    destruct (candidates_same_shape (foundStructs st) id shape (varStructs decls) Hsame)
      as [H|[_ Hno]]; [exact H|].
    now destruct (Hno var shape Hin).
  - apply bindVars_complete.
  - intros decls st id target. rewrite bindVars_find. apply candidates_sound.
  - apply associateVar_fst.
  - intros var ty P [V|Hp]; unfold templateName; rewrite P.
    + now rewrite V.
    + destruct (isVar ty); [reflexivity|].
      apply Z.ltb_lt in Hp. now rewrite Hp.
  - apply resolveVar_bound.
  - intros decls st varMap resolved. unfold resolved.
    rewrite resolveDeclarations_parts.
    cbn [fst functions structs unnamedFunctions unnamedStructs varStructs].
    fold varMap.
    split; [|split; [|split; [|split]]].
    + intros n f ret Hs F Hall Hret.
      destruct (resolveFunction_substitutes f varMap ret Hall Hret)
        as (params & R & Hshape).
      exists params. split; [|exact Hshape].
      now apply (resolveNamed_find_resolved _ _ _ n f).
    + intros n p Hs F Hall.
      destruct (resolveParams_substitutes p varMap Hall) as (params & R & Hshape).
      exists params. split; [|exact Hshape].
      now apply (resolveNamed_find_resolved _ _ _ n p).
    + intros f ret Hin Hall Hret.
      destruct (resolveFunction_substitutes f varMap ret Hall Hret)
        as (params & R & Hshape).
      exists params. split; [|exact Hshape].
      now apply (resolveUnnamed_In _ _ _ _ f).
    + intros p Hin Hall.
      destruct (resolveParams_substitutes p varMap Hall) as (params & R & Hshape).
      exists params. split; [|exact Hshape].
      now apply (resolveUnnamed_In _ _ _ _ p).
    + intros n p Hs F Hall.
      destruct (resolveParams_substitutes p varMap Hall) as (params & R & Hshape).
      exists params. split; [|exact Hshape].
      now apply (resolveNamed_find_resolved _ _ _ n p).
  - repeat split.
Qed.

(** The template declared as [T] is bound to the first observed record
    of its shape, which is [Point]. *)
Lemma placeholder_binding_witness :
  StdMap.find "T" (fst (bindVars (exampleTemplates "T")
                                 (observe exampleVisit nothingFound))) =
  firstOfShape [("int", 1%Z)] (foundStructs (observe exampleVisit nothingFound)).
Proof.
  refine (proj1 placeholder_binding_by_shape (exampleTemplates "T")
            (observe exampleVisit nothingFound) "T" [("int", 1%Z)] _ _).
  - exists "T". split; [now left|reflexivity].
  - intros var' shape' [[= <- <-]|[]] _. reflexivity.
Defined.

(** A second template that declares an identifier already bound does not
    rebind it: [struct T] has the shape of [C], and [T] stays bound to
    [A]. *)
Lemma second_template_does_not_rebind :
  templateName "struct T" = Some "T" /\
  fst (bindVars twoTemplates (observe twoRecordsVisit nothingFound)) =
    [("T", "A")].
Proof. split; reflexivity. Qed.
